(** * Python-MAAB homework scripts: bank ledgers, search tree, dates,
      thread pools and the roster table, embedded and verified.

    The embedding follows the lesson files one module per script
    ([L9], [L10], [L12], [L13], [L15]).  Python values are modelled as the
    interpreter has them: [int] is unbounded ([Z]), [decimal.Decimal] is a
    signed coefficient with a power-of-ten exponent that is rounded by the
    default arithmetic context, [datetime.date] is a proleptic Gregorian
    date restricted to the years 1..9999, a [dict] is a [gmap], and a raised
    exception is the [Raise] outcome of a computation that also returns the
    (possibly mutated) state. *)

From Stdlib Require Import ZArith QArith Qpower Qabs Lia List String Ascii Bool.
From stdpp Require Import gmap strings list sorting.

Local Open Scope Z_scope.

(** ** Exceptions and outcomes *)

Module Py.

(** A class is identified with its method resolution order, most derived
    class first; [class C(B)] prepends the new name to the order of [B]. *)
Definition pyclass := list string.

Definition subclass (name : string) (base : pyclass) : pyclass := name :: base.

Definition BaseException : pyclass := ["BaseException"%string].
Definition Exception : pyclass := subclass "Exception" BaseException.
Definition ArithmeticError : pyclass := subclass "ArithmeticError" Exception.
Definition LookupError : pyclass := subclass "LookupError" Exception.
Definition KeyError : pyclass := subclass "KeyError" LookupError.
Definition ValueError : pyclass := subclass "ValueError" Exception.
Definition RuntimeError : pyclass := subclass "RuntimeError" Exception.
Definition OverflowError : pyclass := subclass "OverflowError" ArithmeticError.
Definition SystemError : pyclass := subclass "SystemError" Exception.
Definition IndexError : pyclass := subclass "IndexError" LookupError.

(** [issubclass c d]: the order of [d] is a tail of the order of [c]. *)
Fixpoint issubclass (c d : pyclass) : bool :=
  if bool_decide (c = d) then true
  else match c with
       | [] => false
       | _ :: base => issubclass base d
       end.

(** Outcome of a call: a value, or the class of the exception raised.
    Messages are not modelled. *)
Inductive result (A : Type) : Type :=
| Ok (a : A)
| Raise (e : pyclass).
Arguments Ok {A} a.
Arguments Raise {A} e.

Definition raises {A} (r : result A) (c : pyclass) : Prop :=
  exists e, r = Raise e /\ issubclass e c = true.

(** Computations over a mutable store [S]: the store survives a raise. *)
Definition M (S A : Type) : Type := S -> result A * S.

Definition ret {S A} (a : A) : M S A := fun s => (Ok a, s).
Definition throw {S A} (e : pyclass) : M S A := fun s => (Raise e, s).
Definition bind {S A B} (m : M S A) (k : A -> M S B) : M S B :=
  fun s => match m s with
           | (Ok a, s') => k a s'
           | (Raise e, s') => (Raise e, s')
           end.
(** [try: m except c as e: h e] *)
Definition try_except {S A} (m : M S A) (c : pyclass) (h : pyclass -> M S A) : M S A :=
  fun s => match m s with
           | (Ok a, s') => (Ok a, s')
           | (Raise e, s') => if issubclass e c then h e s' else (Raise e, s')
           end.
(** A computation that does not touch the store. *)
Definition lift {S A} (r : result A) : M S A := fun s => (r, s).

End Py.

Import Py.

#[global] Instance M_ret {S} : MRet (M S) := fun A a => ret a.
#[global] Instance M_bind {S} : MBind (M S) := fun A B k m => bind m k.

(** ** decimal.Decimal under the default context *)

Module Dec.

(** A finite decimal: signed coefficient and exponent, denoting
    [coeff * 10 ^ dexp].  The sign of a zero, infinities and NaNs are not
    represented. *)
Record Decimal : Type := mkDec { coeff : Z; dexp : Z }.

(** decimal.DefaultContext: prec=28, rounding=ROUND_HALF_EVEN,
    Emin=-999999, Emax=999999, clamp=0,
    traps=[InvalidOperation, DivisionByZero, Overflow]. *)
Definition prec : Z := 28.
Definition Emax : Z := 999999.
Definition Emin : Z := -999999.
Definition Etiny : Z := Emin - prec + 1.
Definition Etop : Z := Emax - prec + 1.

Definition DecimalException : pyclass := subclass "DecimalException" ArithmeticError.
(** class Overflow(Inexact, Rounded) *)
Definition Overflow : pyclass :=
  "Overflow"%string :: "Inexact"%string :: "Rounded"%string :: DecimalException.

(** Number of decimal digits of a positive integer, [len(str(n))]. *)
Fixpoint ndigits_fuel (fuel : nat) (n : Z) : Z :=
  match fuel with
  | O => 1
  | S f => if n <? 10 then 1 else 1 + ndigits_fuel f (n / 10)
  end.
Definition ndigits (n : Z) : Z := ndigits_fuel (Z.to_nat (Z.log2 n)) n.

(** Context rounding of an exact result ([Decimal._fix]): at most [prec]
    digits are kept, ties go to the even neighbour, a result above [Emax]
    raises the trapped [Overflow] signal, a subnormal result is rounded at
    [Etiny] without raising. *)
Definition fix_ (d : Decimal) : result Decimal :=
  let c := coeff d in
  let e := dexp d in
  if c =? 0 then Ok (mkDec 0 (Z.min (Z.max e Etiny) Emax))
  else
    let exp_min := ndigits (Z.abs c) + e - prec in
    if exp_min >? Etop then Raise Overflow
    else
      let exp_min := Z.max exp_min Etiny in
      if e <? exp_min then
        let k := exp_min - e in
        let q := Z.abs c / 10 ^ k in
        let r := Z.abs c mod 10 ^ k in
        let up := (2 * r >? 10 ^ k) || ((2 * r =? 10 ^ k) && Z.odd q) in
        let q1 := if up then q + 1 else q in
        let carry := ndigits q1 >? prec in
        let q2 := if carry then q1 / 10 else q1 in
        let exp2 := if carry then exp_min + 1 else exp_min in
        if exp2 >? Etop then Raise Overflow
        else Ok (mkDec (Z.sgn c * q2) exp2)
      else Ok d.

(** The exact sum, on the smaller exponent. *)
Definition exact_add (a b : Decimal) : Decimal :=
  let e := Z.min (dexp a) (dexp b) in
  mkDec (coeff a * 10 ^ (dexp a - e) + coeff b * 10 ^ (dexp b - e)) e.

Definition copy_negate (a : Decimal) : Decimal := mkDec (- coeff a) (dexp a).

Definition exact_sub (a b : Decimal) : Decimal := exact_add a (copy_negate b).

(** [a + b], [a - b] and [-a]: the exact result, then the context. *)
Definition add (a b : Decimal) : result Decimal := fix_ (exact_add a b).
Definition sub (a b : Decimal) : result Decimal := fix_ (exact_sub a b).
Definition neg (a : Decimal) : result Decimal := fix_ (copy_negate a).

(** Comparisons are exact. *)
Definition cmp (a b : Decimal) : comparison :=
  let e := Z.min (dexp a) (dexp b) in
  (coeff a * 10 ^ (dexp a - e)) ?= (coeff b * 10 ^ (dexp b - e)).

Definition lt (a b : Decimal) : bool :=
  match cmp a b with Lt => true | _ => false end.
Definition le (a b : Decimal) : bool :=
  match cmp a b with Gt => false | _ => true end.
Definition eqb (a b : Decimal) : bool :=
  match cmp a b with Eq => true | _ => false end.

Definition zero : Decimal := mkDec 0 0.
Definition of_Z (n : Z) : Decimal := mkDec n 0.

(** The rational a decimal denotes. *)
Definition value (a : Decimal) : Q := (inject_Z (coeff a) * (10 # 1) ^ dexp a)%Q.

(** [fits d]: the context keeps [d] as it is (no rounding, no overflow). *)
Definition fits (d : Decimal) : bool :=
  (coeff d =? 0) ||
  (let exp_min := ndigits (Z.abs (coeff d)) + dexp d - prec in
   negb (exp_min >? Etop) && negb (dexp d <? Z.max exp_min Etiny)).

(** [exactly r v]: the operation returned, and returned the exact value.
    [unrounded r v]: if the operation returned, it returned the exact
    value (it may have raised instead). *)
Definition exactly (r : result Decimal) (v : Q) : Prop :=
  exists d, r = Ok d /\ (value d == v)%Q.
Definition unrounded (r : result Decimal) (v : Q) : Prop :=
  forall d, r = Ok d -> (value d == v)%Q.

(** [a * b]: the exact product, then the context. *)
Definition mul (a b : Decimal) : result Decimal :=
  fix_ (mkDec (coeff a * coeff b) (dexp a + dexp b)).

(** class InvalidOperation(DecimalException), trapped by the context. *)
Definition InvalidOperation : pyclass := subclass "InvalidOperation" DecimalException.

(** [d.adjusted()]: the exponent of the most significant digit. *)
Definition adjusted (d : Decimal) : Z := ndigits (Z.abs (coeff d)) + dexp d - 1.

(** [d._rescale(e, ROUND_HALF_UP)]: the coefficient is padded with zeros,
    or cut with the discarded part rounded half up on the magnitude. *)
Definition rescale_half_up (d : Decimal) (e : Z) : Decimal :=
  if coeff d =? 0 then mkDec 0 e
  else if e <=? dexp d then mkDec (coeff d * 10 ^ (dexp d - e)) e
  else
    let k := e - dexp d in
    let q := Z.abs (coeff d) / 10 ^ k in
    let r := Z.abs (coeff d) mod 10 ^ k in
    mkDec (Z.sgn (coeff d) * (if 2 * r >=? 10 ^ k then q + 1 else q)) e.

(** [d.quantize(Decimal(1).scaleb(e), rounding=ROUND_HALF_UP)]: the
    target exponent must lie in the range of the context and the result
    must not need more than [prec] digits, else InvalidOperation. *)
Definition quantize_half_up (d : Decimal) (e : Z) : result Decimal :=
  if negb ((Etiny <=? e) && (e <=? Emax)) then Raise InvalidOperation
  else if coeff d =? 0 then fix_ (mkDec 0 e)
  else if adjusted d >? Emax then Raise InvalidOperation
  else if adjusted d - e + 1 >? prec then Raise InvalidOperation
  else
    let ans := rescale_half_up d e in
    if adjusted ans >? Emax then Raise InvalidOperation
    else if ndigits (Z.abs (coeff ans)) >? prec then Raise InvalidOperation
    else fix_ ans.

End Dec.

Import Dec.

(** ** Ledgers: the balances of a bank, by account id *)

Module Ledger.

(** The exact sum of all balances. *)
Definition total (balances : gmap Z Decimal) : Q :=
  map_fold (fun _ b s => (value b + s)%Q) 0%Q balances.

(** [moves before after from_id to_id amount]: exactly [amount] went from
    one balance to the other and no other balance changed. *)
Definition moves (before after : gmap Z Decimal) (from_id to_id : Z)
    (amount : Decimal) : Prop :=
  (exists s s' : Decimal,
      (before !! from_id) = Some s /\ (after !! from_id) = Some s' /\
      (value s' == value s - value amount)%Q) /\
  (exists d d' : Decimal,
      (before !! to_id) = Some d /\ (after !! to_id) = Some d' /\
      (value d' == value d + value amount)%Q) /\
  (forall k : Z, k <> from_id -> k <> to_id -> (after !! k) = (before !! k)).

End Ledger.

(** ** Lesson 9: Account and Bank (9-uv.py, Task 11) *)

Module L9.

(** class InsufficientFundsError(RuntimeError), AccountNotFoundError(KeyError),
    DuplicateAccountError(KeyError) *)
Definition InsufficientFundsError : pyclass := subclass "InsufficientFundsError" RuntimeError.
Definition AccountNotFoundError : pyclass := subclass "AccountNotFoundError" KeyError.
Definition DuplicateAccountError : pyclass := subclass "DuplicateAccountError" KeyError.

Record Account : Type := mkAccount {
  account_id : Z;
  owner : string;
  balance : Decimal
}.

Definition set_balance (a : Account) (b : Decimal) : Account :=
  mkAccount (account_id a) (owner a) b.

(** Account.deposit: the object after the call, or the exception. *)
Definition Account_deposit (a : Account) (amount : Decimal) : result Account :=
  if Dec.le amount Dec.zero then Raise ValueError
  else match Dec.add (balance a) amount with
       | Ok b => Ok (set_balance a b)
       | Raise e => Raise e
       end.

(** Account.withdraw *)
Definition Account_withdraw (a : Account) (amount : Decimal) : result Account :=
  if Dec.le amount Dec.zero then Raise ValueError
  else if Dec.lt (balance a) amount then Raise InsufficientFundsError
  else match Dec.sub (balance a) amount with
       | Ok b => Ok (set_balance a b)
       | Raise e => Raise e
       end.

(** The bank's [_accounts] dict.  An account object lives in the slot it
    was created in and is never removed or replaced, so a reference to an
    account is the key of its slot. *)
Abbreviation Bank := (gmap Z Account).

(** A method call on the account object referenced by [r]: the object is
    mutated in place when the method returns, untouched when it raises. *)
Definition call (r : Z) (method : Account -> result Account) : M Bank unit :=
  fun bank =>
    match bank !! r with
    | Some acc =>
        match method acc with
        | Ok acc' => (Ok tt, <[r := acc']> bank)
        | Raise e => (Raise e, bank)
        end
    | None => (Raise SystemError, bank)
    end.

Definition create_account (id : Z) (owner : string) (initial : Decimal) : M Bank unit :=
  fun bank =>
    match bank !! id with
    | Some _ => (Raise DuplicateAccountError, bank)
    | None =>
        if Dec.lt initial Dec.zero then (Raise ValueError, bank)
        else (Ok tt, <[id := mkAccount id owner initial]> bank)
    end.

(** Bank.get_account returns the reference of an existing account. *)
Definition get_account (id : Z) : M Bank Z :=
  fun bank =>
    match bank !! id with
    | None => (Raise AccountNotFoundError, bank)
    | Some _ => (Ok id, bank)
    end.

Definition deposit (id : Z) (amount : Decimal) : M Bank unit :=
  acc ← get_account id; call acc (fun a => Account_deposit a amount).

Definition withdraw (id : Z) (amount : Decimal) : M Bank unit :=
  acc ← get_account id; call acc (fun a => Account_withdraw a amount).

(** Bank.transfer: "Transfer with rollback on deposit failure." *)
Definition transfer (from_id to_id : Z) (amount : Decimal) : M Bank unit :=
  if Dec.le amount Dec.zero then throw ValueError
  else
    src ← get_account from_id;
    dst ← get_account to_id;
    call src (fun a => Account_withdraw a amount);;
    try_except (call dst (fun a => Account_deposit a amount)) Exception
      (fun _ => call src (fun a => Account_deposit a amount);;
                throw RuntimeError).

Definition get_balance (id : Z) : M Bank Decimal :=
  fun bank =>
    match get_account id bank with
    | (Ok r, bank') =>
        match bank' !! r with
        | Some acc => (Ok (balance acc), bank')
        | None => (Raise SystemError, bank')
        end
    | (Raise e, bank') => (Raise e, bank')
    end.

Definition balances (bank : Bank) : gmap Z Decimal := balance <$> bank.

(** The bank of the class doctest: Alice holds 100, Bob holds 50. *)
Definition doctest_bank : Bank :=
  <[2 := mkAccount 2 "Bob" (Dec.of_Z 50)]>
    (<[1 := mkAccount 1 "Alice" (Dec.of_Z 100)]> ∅).

(** A bank whose first account holds Decimal("1E+29"). *)
Definition large_bank : Bank :=
  <[2 := mkAccount 2 "Bob" (Dec.of_Z 0)]>
    (<[1 := mkAccount 1 "Alice" (mkDec 1 29)]> ∅).

(** Banks at the top of the exponent range: Bob holds Decimal("9E+999999"),
    Alice holds Decimal("90000000000000000000000000001E+999971"), resp.
    Decimal("99999999999999999999999999995E+999971"). *)
Definition top_bank : Bank :=
  <[2 := mkAccount 2 "Bob" (mkDec 9 999999)]>
    (<[1 := mkAccount 1 "Alice" (mkDec 90000000000000000000000000001 999971)]> ∅).
Definition top_bank' : Bank :=
  <[2 := mkAccount 2 "Bob" (mkDec 9 999999)]>
    (<[1 := mkAccount 1 "Alice" (mkDec 99999999999999999999999999995 999971)]> ∅).

(** The bank once [amount] has been debited from [from_id] as [b1]. *)
Definition debited (bank : Bank) (from_id : Z) (src : Account) (b1 : Decimal) : Bank :=
  <[from_id := set_balance src b1]> bank.

(** The debit, if the call gets to it and it returns, is exact. *)
Definition debit_unrounded (bank : Bank) (from_id : Z) (amount : Decimal) : Prop :=
  forall src : Account, (bank !! from_id) = Some src ->
    unrounded (Dec.sub (balance src) amount) (value (balance src) - value amount).

(** The credit, if the call gets to it, returns and is exact. *)
Definition credit_exact (bank : Bank) (from_id to_id : Z) (amount : Decimal) : Prop :=
  forall (src dst1 : Account) (b1 : Decimal),
    (bank !! from_id) = Some src ->
    Dec.sub (balance src) amount = Ok b1 ->
    (debited bank from_id src b1 !! to_id) = Some dst1 ->
    exactly (Dec.add (balance dst1) amount) (value (balance dst1) + value amount).

(** No account is overdrawn. *)
Definition solvent (bank : Bank) : Prop :=
  forall (id : Z) (acc : Account), (bank !! id) = Some acc -> (0 <= value (balance acc))%Q.

End L9.

(** ** Lesson 10: Account with overdraft and Bank (10-uv.py, Task 3) *)

Module L10.

(** class BankError(Exception); the three errors derive from BankError. *)
Definition BankError : pyclass := subclass "BankError" Exception.
Definition DuplicateAccountError : pyclass := subclass "DuplicateAccountError" BankError.
Definition AccountNotFoundError : pyclass := subclass "AccountNotFoundError" BankError.
Definition InsufficientFundsError : pyclass := subclass "InsufficientFundsError" BankError.

Record Account : Type := mkAccount {
  number : Z;
  holder : string;
  balance : Decimal;
  overdraft_limit : Decimal
}.

Definition set_balance (a : Account) (b : Decimal) : Account :=
  mkAccount (number a) (holder a) b (overdraft_limit a).

Definition Account_deposit (a : Account) (amount : Decimal) : result Account :=
  if Dec.le amount Dec.zero then Raise ValueError
  else match Dec.add (balance a) amount with
       | Ok b => Ok (set_balance a b)
       | Raise e => Raise e
       end.

(** Account.withdraw: [new_balance < -self.overdraft_limit] is refused. *)
Definition Account_withdraw (a : Account) (amount : Decimal) : result Account :=
  if Dec.le amount Dec.zero then Raise ValueError
  else match Dec.sub (balance a) amount with
       | Raise e => Raise e
       | Ok new_balance =>
           match Dec.neg (overdraft_limit a) with
           | Raise e => Raise e
           | Ok floor =>
               if Dec.lt new_balance floor then Raise InsufficientFundsError
               else Ok (set_balance a new_balance)
           end
       end.

Abbreviation Bank := (gmap Z Account).

Definition call (r : Z) (method : Account -> result Account) : M Bank unit :=
  fun bank =>
    match bank !! r with
    | Some acc =>
        match method acc with
        | Ok acc' => (Ok tt, <[r := acc']> bank)
        | Raise e => (Raise e, bank)
        end
    | None => (Raise SystemError, bank)
    end.

(** Attribute read [r.balance] and assignment [r.balance = b]. *)
Definition read_balance (r : Z) : M Bank Decimal :=
  fun bank =>
    match bank !! r with
    | Some acc => (Ok (balance acc), bank)
    | None => (Raise SystemError, bank)
    end.

Definition assign_balance (r : Z) (b : Decimal) : M Bank unit :=
  call r (fun a => Ok (set_balance a b)).

Definition add_account (n : Z) (holder : string) (bal od : Decimal) : M Bank Z :=
  fun bank =>
    match bank !! n with
    | Some _ => (Raise DuplicateAccountError, bank)
    | None => (Ok n, <[n := mkAccount n holder bal od]> bank)
    end.

(** Bank.get: an Account instance is always truthy, so [not acc] holds
    for a missing key only. *)
Definition get (n : Z) : M Bank Z :=
  fun bank =>
    match bank !! n with
    | None => (Raise AccountNotFoundError, bank)
    | Some _ => (Ok n, bank)
    end.

Definition deposit (n : Z) (amount : Decimal) : M Bank unit :=
  acc ← get n; call acc (fun a => Account_deposit a amount).

Definition withdraw (n : Z) (amount : Decimal) : M Bank unit :=
  acc ← get n; call acc (fun a => Account_withdraw a amount).

(** Bank.transfer: the rollback restores the saved source balance by
    assignment, which cannot fail. *)
Definition transfer (from_id to_id : Z) (amount : Decimal) : M Bank unit :=
  if Dec.le amount Dec.zero then throw ValueError
  else
    src ← get from_id;
    dst ← get to_id;
    original_src_balance ← read_balance src;
    call src (fun a => Account_withdraw a amount);;
    try_except (call dst (fun a => Account_deposit a amount)) Exception
      (fun _ => assign_balance src original_src_balance;;
                throw RuntimeError).

Definition balances (bank : Bank) : gmap Z Decimal := balance <$> bank.

(** The bank of the transfer doctest: A holds 100, B holds 0. *)
Definition doctest_bank : Bank :=
  <[2 := mkAccount 2 "B" (Dec.of_Z 0) (Dec.of_Z 0)]>
    (<[1 := mkAccount 1 "A" (Dec.of_Z 100) (Dec.of_Z 0)]> ∅).

Definition large_bank : Bank :=
  <[2 := mkAccount 2 "B" (Dec.of_Z 0) (Dec.of_Z 0)]>
    (<[1 := mkAccount 1 "A" (mkDec 1 29) (Dec.of_Z 0)]> ∅).

Definition top_bank : Bank :=
  <[2 := mkAccount 2 "B" (mkDec 9 999999) (Dec.of_Z 0)]>
    (<[1 := mkAccount 1 "A" (mkDec 90000000000000000000000000001 999971) (Dec.of_Z 0)]> ∅).

Definition debited (bank : Bank) (from_id : Z) (src : Account) (b1 : Decimal) : Bank :=
  <[from_id := set_balance src b1]> bank.

Definition debit_unrounded (bank : Bank) (from_id : Z) (amount : Decimal) : Prop :=
  forall src : Account, (bank !! from_id) = Some src ->
    unrounded (Dec.sub (balance src) amount) (value (balance src) - value amount).

(** The credit, if the call gets to it and it returns, is exact; it may
    raise, which the rollback handles. *)
Definition credit_unrounded (bank : Bank) (from_id to_id : Z) (amount : Decimal) : Prop :=
  forall (src dst1 : Account) (b1 : Decimal),
    (bank !! from_id) = Some src ->
    Dec.sub (balance src) amount = Ok b1 ->
    (debited bank from_id src b1 !! to_id) = Some dst1 ->
    unrounded (Dec.add (balance dst1) amount) (value (balance dst1) + value amount).

End L10.

(** ** Lesson 9: BinarySearchTree (9-uv.py, Task 5) *)

Module BST.

(** [Optional[BSTNode]]: [Nil] is [None]; a node has a key, two children
    and a count (1 when created). *)
Inductive BSTNode : Type :=
| Nil
| Node (key : Z) (left right : BSTNode) (count : Z).

Record BinarySearchTree : Type := mkBST {
  root : BSTNode;
  on_duplicate : string
}.

(** BinarySearchTree.__init__ *)
Definition init (policy : string) : result BinarySearchTree :=
  if (String.eqb policy "ignore" || String.eqb policy "error"
      || String.eqb policy "count")%bool
  then Ok (mkBST Nil policy)
  else Raise ValueError.

(** The descent of [insert] from node [cur]; reaching [Nil] is the place
    where the loop attaches [BSTNode(key)]. *)
Fixpoint insert_from (policy : string) (key : Z) (cur : BSTNode) : result BSTNode :=
  match cur with
  | Nil => Ok (Node key Nil Nil 1)
  | Node k l r c =>
      if key =? k then
        if String.eqb policy "ignore" then Ok cur
        else if String.eqb policy "error" then Raise ValueError
        else Ok (Node k l r (c + 1))
      else if key <? k then
        match insert_from policy key l with
        | Ok l' => Ok (Node k l' r c)
        | Raise e => Raise e
        end
      else
        match insert_from policy key r with
        | Ok r' => Ok (Node k l r' c)
        | Raise e => Raise e
        end
  end.

(** BinarySearchTree.insert *)
Definition insert (key : Z) : M BinarySearchTree unit :=
  fun t =>
    match insert_from (on_duplicate t) key (root t) with
    | Ok n => (Ok tt, mkBST n (on_duplicate t))
    | Raise e => (Raise e, t)
    end.

Fixpoint search_from (key : Z) (cur : BSTNode) : bool :=
  match cur with
  | Nil => false
  | Node k l r _ =>
      if key =? k then true
      else if key <? k then search_from key l else search_from key r
  end.

Definition search (t : BinarySearchTree) (key : Z) : bool := search_from key (root t).

Fixpoint inorder_from (n : BSTNode) : list Z :=
  match n with
  | Nil => []
  | Node k l r _ => inorder_from l ++ k :: inorder_from r
  end.

Definition inorder (t : BinarySearchTree) : list Z := inorder_from (root t).

Fixpoint inorder_with_counts_from (n : BSTNode) : list (Z * Z) :=
  match n with
  | Nil => []
  | Node k l r c => inorder_with_counts_from l ++ (k, c) :: inorder_with_counts_from r
  end.

Definition inorder_with_counts (t : BinarySearchTree) : list (Z * Z) :=
  inorder_with_counts_from (root t).

(** The search-tree order: keys to the left are smaller, keys to the right
    are larger. *)
Fixpoint all_keys (P : Z -> Prop) (n : BSTNode) : Prop :=
  match n with
  | Nil => True
  | Node k l r _ => P k /\ all_keys P l /\ all_keys P r
  end.

Fixpoint ordered (n : BSTNode) : Prop :=
  match n with
  | Nil => True
  | Node k l r _ =>
      all_keys (fun x => x < k) l /\ all_keys (fun x => k < x) r /\
      ordered l /\ ordered r
  end.

(** Trees obtained from the constructor by successful inserts. *)
Inductive built : BinarySearchTree -> Prop :=
| built_init policy t : init policy = Ok t -> built t
| built_insert key t t' : built t -> insert key t = (Ok tt, t') -> built t'.

(** The count bump on the entry of [key], other entries untouched. *)
Definition bump (key : Z) (entry : Z * Z) : Z * Z :=
  if fst entry =? key then (fst entry, snd entry + 1) else entry.

(** The trees of the class doctests. *)
Definition doctest_tree (policy : string) (keys : list Z) : BinarySearchTree :=
  fold_left (fun t k => snd (insert k t)) keys (mkBST Nil policy).

End BST.

(** ** Lesson 13: dates, age and next birthday (13-uv.py) *)

Module L13.

(** datetime.date: proleptic Gregorian, years MINYEAR=1 .. MAXYEAR=9999. *)
Record date : Type := mkdate { year : Z; month : Z; day : Z }.

Definition is_leap (y : Z) : bool :=
  (y mod 4 =? 0) && (negb (y mod 100 =? 0) || (y mod 400 =? 0)).

Definition days_in_month (y m : Z) : Z :=
  if m =? 2 then (if is_leap y then 29 else 28)
  else if (m =? 4) || (m =? 6) || (m =? 9) || (m =? 11) then 30
  else 31.

Definition valid_date (d : date) : Prop :=
  1 <= year d <= 9999 /\ 1 <= month d <= 12 /\
  1 <= day d <= days_in_month (year d) (month d).

(** The constructor [date(y, m, d)] raises ValueError outside the range. *)
Definition date_new (y m d : Z) : result date :=
  if (1 <=? y) && (y <=? 9999) && (1 <=? m) && (m <=? 12)
     && (1 <=? d) && (d <=? days_in_month y m)
  then Ok (mkdate y m d)
  else Raise ValueError.

Definition days_before_year (y : Z) : Z :=
  let p := y - 1 in p * 365 + p / 4 - p / 100 + p / 400.

Definition days_before_month (y m : Z) : Z :=
  nth (Z.to_nat (m - 1)) [0; 31; 59; 90; 120; 151; 181; 212; 243; 273; 304; 334] 0
  + (if (2 <? m) && is_leap y then 1 else 0).

(** date.toordinal(): 1 for 0001-01-01. *)
Definition toordinal (d : date) : Z :=
  days_before_year (year d) + days_before_month (year d) (month d) + day d.

(** [(a - b).days] *)
Definition days_between (a b : date) : Z := toordinal a - toordinal b.

(** Dates compare as (year, month, day). *)
Definition pair_lt (a b : Z * Z) : bool :=
  (fst a <? fst b) || ((fst a =? fst b) && (snd a <? snd b)).
Definition date_lt (a b : date) : bool :=
  (year a <? year b) ||
  ((year a =? year b) && pair_lt (month a, day a) (month b, day b)).

(** [d - timedelta(days=1)]: the day before; OverflowError below date.min. *)
Definition minus_one_day (d : date) : result date :=
  if 1 <? day d then Ok (mkdate (year d) (month d) (day d - 1))
  else if 1 <? month d then
    Ok (mkdate (year d) (month d - 1) (days_in_month (year d) (month d - 1)))
  else if 1 <? year d then Ok (mkdate (year d - 1) 12 31)
  else Raise OverflowError.

Definition bind_result {A B} (r : result A) (k : A -> result B) : result B :=
  match r with Ok a => k a | Raise e => Raise e end.

(** last_day_of_month *)
Definition last_day_of_month (y m : Z) : result Z :=
  bind_result (if m =? 12 then date_new (y + 1) 1 1 else date_new y (m + 1) 1)
    (fun nxt => bind_result (minus_one_day nxt) (fun p => Ok (day p))).

(** add_months *)
Definition add_months (d : date) (months : Z) : result date :=
  let y := year d + (month d - 1 + months) / 12 in
  let m := (month d - 1 + months) mod 12 + 1 in
  bind_result (last_day_of_month y m)
    (fun last => date_new y m (Z.min (day d) last)).

Record AgeBreakdown : Type := mkAge {
  years : Z; months : Z; days : Z; total_days : Z
}.

(** calculate_age; [today] stands for [date.today()]. *)
Definition calculate_age (today : date) (birthdate : date) (on_date : option date)
    : result AgeBreakdown :=
  let on_date := match on_date with Some d => d | None => today end in
  if date_lt on_date birthdate then Raise ValueError
  else
    let age_years := days_between on_date birthdate / 365 in
    if 150 <? age_years then Raise ValueError
    else
      let years := year on_date - year birthdate in
      let years :=
        if pair_lt (month on_date, day on_date) (month birthdate, day birthdate)
        then years - 1 else years in
      bind_result (add_months birthdate (years * 12)) (fun anniv_this_year =>
        let months := (year on_date - year anniv_this_year) * 12
                      + (month on_date - month anniv_this_year) in
        let months := if day on_date <? day anniv_this_year then months - 1 else months in
        let months := if months <? 0 then 0 else months in
        let years := if 11 <? months then years + months / 12 else years in
        let months := if 11 <? months then months mod 12 else months in
        bind_result (add_months anniv_this_year months) (fun month_mark =>
          Ok (mkAge years months (days_between on_date month_mark)
                    (days_between on_date birthdate)))).

(** [try: date(y, m, d) except ValueError: date(y, m, last_day_of_month(y, m))] *)
Definition birthday_in (y : Z) (birthdate : date) : result date :=
  match date_new y (month birthdate) (day birthdate) with
  | Ok d => Ok d
  | Raise e =>
      if issubclass e ValueError then
        bind_result (last_day_of_month y (month birthdate))
          (fun last => date_new y (month birthdate) last)
      else Raise e
  end.

(** days_until_next_birthday *)
Definition days_until_next_birthday (today : date) (birthdate : date)
    (from_date : option date) : result Z :=
  let today := match from_date with Some d => d | None => today end in
  bind_result (birthday_in (year today) birthdate) (fun next_bd =>
    if date_lt next_bd today then
      bind_result (birthday_in (year today + 1) birthdate) (fun next_bd =>
        Ok (days_between next_bd today))
    else Ok (days_between next_bd today)).

End L13.

(** ** Lesson 12: threaded primes and word count (12-uv.py) *)

Module L12.

(** The loop of [is_prime] over the candidates 6k-1 ([f]) and 6k+1
    ([f + 2]); [None] would mean that the fuel ran out before the loop
    ended. *)
Fixpoint trial (fuel : nat) (n limit f : Z) : option bool :=
  if limit <? f then Some true
  else match fuel with
       | O => None
       | S fuel' =>
           if (n mod f =? 0) || (n mod (f + 2) =? 0) then Some false
           else trial fuel' n limit (f + 6)
       end.

(** is_prime; [isqrt] is [Z.sqrt], and the loop runs at most [limit] times. *)
Definition is_prime_run (n : Z) : option bool :=
  if n <=? 1 then Some false
  else if n <=? 3 then Some true
  else if (n mod 2 =? 0) || (n mod 3 =? 0) then Some false
  else trial (Z.to_nat (Z.sqrt n)) n (Z.sqrt n) 5.

Definition is_prime (n : Z) : bool :=
  match is_prime_run n with Some b => b | None => false end.

(** The loop of [split_range]: [count] chunks are still to be cut, the
    next one has index [i] and starts at [start]. *)
Fixpoint chunks (b r : Z) (count : nat) (i start : Z) : list (Z * Z) :=
  match count with
  | O => []
  | S count' =>
      let size := b + (if i <? r then 1 else 0) in
      let stop := start + size - 1 in
      (start, stop) :: chunks b r count' (i + 1) (stop + 1)
  end.

(** split_range *)
Definition split_range (lo hi parts : Z) : result (list (Z * Z)) :=
  if parts <=? 0 then Raise ValueError
  else
    let lo' := if hi <? lo then hi else lo in
    let hi' := if hi <? lo then lo else hi in
    if hi' <? lo' then Ok []
    else
      let n := hi' - lo' + 1 in
      let k := Z.min parts n in
      Ok (chunks (n / k) (n mod k) (Z.to_nat k) 0 lo').

(** [range(a, b + 1)] and _prime_worker on the job [(start, end)]. *)
Definition inclusive_range (a b : Z) : list Z := seqZ a (b - a + 1).

Definition prime_worker (job : Z * Z) : list Z :=
  filter (fun n => is_prime n = true) (inclusive_range (fst job) (snd job)).

(** threaded_primes.  The pool runs one [prime_worker] per chunk;
    [as_completed] hands the futures back in the order they finish, which
    the scheduler decides: it is a parameter, constrained in the theorems
    to return a permutation of the futures.  [primes.sort()] is a sort by
    [<=]. *)
Definition threaded_primes (as_completed : list (list Z) -> list (list Z))
    (lo hi threads : Z) : result (list Z) :=
  if threads <=? 0 then Raise ValueError
  else
    match split_range lo hi threads with
    | Raise e => Raise e
    | Ok ranges =>
        let futures := map prime_worker ranges in
        Ok (merge_sort Z.le (concat (as_completed futures)))
    end.

(** What the claim calls a prime. *)
Definition prime (n : Z) : Prop :=
  1 < n /\ forall d, 1 < d < n -> ~ (d | n).

(** *** Word counter *)

(** [\w] and [str.casefold] on ASCII text: letters, digits and the
    underscore; upper-case letters fold to lower case.  (For other code
    points Python consults the Unicode tables; the results below hold for
    any tokenizer.) *)
Definition is_word_char (a : ascii) : bool :=
  let n := nat_of_ascii a in
  ((48 <=? n) && (n <=? 57) || (65 <=? n) && (n <=? 90) || (n =? 95)
   || (97 <=? n) && (n <=? 122))%nat.

Definition casefold_char (a : ascii) : ascii :=
  let n := nat_of_ascii a in
  if ((65 <=? n) && (n <=? 90))%nat then ascii_of_nat (n + 32) else a.

Fixpoint casefold (w : string) : string :=
  match w with
  | EmptyString => EmptyString
  | String a w' => String (casefold_char a) (casefold w')
  end.

(** [_WORD_RE.findall]: the maximal runs of word characters; [cur] is the
    run being read. *)
Fixpoint findall_words (text cur : string) : list string :=
  match text with
  | EmptyString => if decide (cur = EmptyString) then [] else [cur]
  | String a text' =>
      if is_word_char a then findall_words text' (cur +:+ String a EmptyString)
      else if decide (cur = EmptyString) then findall_words text' EmptyString
      else cur :: findall_words text' EmptyString
  end.

Definition tokenize_to_words (text : string) : list string :=
  map casefold (findall_words text EmptyString).

(** collections.Counter: a dict from words to counts; a missing word
    counts 0. *)
Abbreviation Counter := (gmap string Z).

Definition count_of (c : Counter) (w : string) : Z := default 0 (c !! w).

(** [c.update(words)] for an iterable of words. *)
Definition update_words (c : Counter) (words : list string) : Counter :=
  fold_left (fun c w => <[w := count_of c w + 1]> c) words c.

(** [c.update(other)] for another Counter: an empty [c] takes the entries
    of [other] as they are, otherwise the counts are added entry by entry. *)
Definition update_counter (c other : Counter) : Counter :=
  if decide (c = ∅) then other
  else map_fold (fun w n acc => <[w := n + count_of acc w]> acc) c other.

(** A worker thread: in its loop with its local Counter, past the
    sentinel and about to store [results[idx] = local], or finished. *)
Inductive worker : Type :=
| Running (local : Counter)
| Storing (local : Counter)
| Exited.

(** The shared state of threaded_word_count: the lines the producer has
    still to put, the sentinels it has still to put, the queue (head
    first; [None] is the sentinel), the workers and the results list. *)
Record pool : Type := mkPool {
  lines_left : list string;
  sentinels_left : nat;
  queue : list (option string);
  workers : list worker;
  results : list Counter
}.

(** [q.put] blocks while a bounded queue is full; maxsize <= 0 is unbounded. *)
Definition has_room (maxsize : Z) (q : list (option string)) : bool :=
  (maxsize <=? 0) || (Z.of_nat (length q) <? maxsize).

(** One atomic step of the main thread ([None]) or of worker [Some i];
    the result is [None] when that thread is blocked or has finished. *)
Definition step (tokenize : string -> list string) (maxsize : Z)
    (thread : option nat) (s : pool) : option pool :=
  match thread with
  | None =>
      if has_room maxsize (queue s) then
        match lines_left s, sentinels_left s with
        | line :: rest, _ =>
            Some (mkPool rest (sentinels_left s) (queue s ++ [Some line])
                         (workers s) (results s))
        | [], S n =>
            Some (mkPool [] n (queue s ++ [None]) (workers s) (results s))
        | [], O => None
        end
      else None
  | Some i =>
      match workers s !! i with
      | Some (Running local) =>
          match queue s with
          | Some line :: q =>
              Some (mkPool (lines_left s) (sentinels_left s) q
                           (<[i := Running (update_words local (tokenize line))]> (workers s))
                           (results s))
          | None :: q =>
              Some (mkPool (lines_left s) (sentinels_left s) q
                           (<[i := Storing local]> (workers s)) (results s))
          | [] => None
          end
      | Some (Storing local) =>
          Some (mkPool (lines_left s) (sentinels_left s) (queue s)
                       (<[i := Exited]> (workers s)) (<[i := local]> (results s)))
      | Some Exited | None => None
      end
  end.

(** A run under a schedule, the list of the threads that move. *)
Fixpoint run (tokenize : string -> list string) (maxsize : Z)
    (schedule : list (option nat)) (s : pool) : option pool :=
  match schedule with
  | [] => Some s
  | t :: rest =>
      match step tokenize maxsize t s with
      | Some s' => run tokenize maxsize rest s'
      | None => None
      end
  end.

(** The state once the workers are started. *)
Definition start (lines : list string) (threads : nat) : pool :=
  mkPool lines threads [] (replicate threads (Running ∅)) (replicate threads ∅).

(** [q.join()] and the [t.join()] calls have returned: everything was put
    and taken, and every worker has stored its Counter and exited. *)
Definition joined (s : pool) : Prop :=
  lines_left s = [] /\ sentinels_left s = O /\ queue s = [] /\
  Forall (fun w => w = Exited) (workers s).

(** Merge local counters: [total = Counter(); for c in results: total.update(c)] *)
Definition merge (results : list Counter) : Counter :=
  fold_left update_counter results ∅.



(** Bookkeeping for the proofs: how often [w] occurs in a list of words,
    counters without zero or negative entries, what a worker has counted
    so far, the sum of the counts of [w] over a list of counters, and the
    words of the lines that no worker has taken yet. *)
Fixpoint occurrences (w : string) (words : list string) : Z :=
  match words with
  | [] => 0
  | x :: rest => (if decide (x = w) then 1 else 0) + occurrences w rest
  end.







(** Bookkeeping for liveness.  A worker that has not exited is active, a
    worker in its loop is looping.  [work_left] counts the atomic steps
    still to be made: two per line and per sentinel still to be put (put
    and take), one per item in the queue, one per active worker (its
    store). *)
Definition active (w : worker) : bool :=
  match w with Exited => false | _ => true end.

Definition looping (w : worker) : bool :=
  match w with Running _ => true | _ => false end.

Definition work_left (s : pool) : nat :=
  (2 * length (lines_left s) + 2 * sentinels_left s + length (queue s)
   + length (List.filter active (workers s)))%nat.

(** The shape of the pool in every reachable state: the queue holds lines
    before sentinels, every looping worker has a sentinel coming (still to
    be put, or in the queue), sentinels are put after the last line only,
    and no worker leaves its loop while a line is in the queue. *)
Definition orderly (s : pool) : Prop :=
  exists (ls : list string) (k : nat),
    queue s = map Some ls ++ replicate k None /\
    length (List.filter looping (workers s)) = (sentinels_left s + k)%nat /\
    (lines_left s <> [] -> k = O /\ sentinels_left s = length (workers s)) /\
    (ls <> [] -> (sentinels_left s + k)%nat = length (workers s)).

(** Text made of ASCII characters only, for which [is_word_char] and
    [casefold] are the interpreter's [\w] and [str.casefold]. *)
Definition ascii_text (text : string) : Prop :=
  forall a : ascii, In a (list_ascii_of_string text) -> (nat_of_ascii a < 128)%nat.

(** The characters a token is made of: word characters that are not
    upper-case letters. *)
Definition folded_word_char (a : ascii) : bool :=
  is_word_char a && negb ((65 <=? nat_of_ascii a) && (nat_of_ascii a <=? 90))%nat.

(** Chunks that follow one another from [start] on. *)
Fixpoint consecutive (start : Z) (ranges : list (Z * Z)) : Prop :=
  match ranges with
  | [] => True
  | c :: rest => fst c = start /\ consecutive (snd c + 1) rest
  end.

(** [text] without the characters that are not word characters. *)
Fixpoint word_chars (text : string) : string :=
  match text with
  | EmptyString => EmptyString
  | String a text' =>
      if is_word_char a then String a (word_chars text') else word_chars text'
  end.

End L12.

(** ** Lesson 15: the Roster table (15-uv.py) *)

Module L15.

(** sqlite3.Error and the subclasses the engine raises; the lesson's own
    [class DatabaseError(Exception)]. *)
Definition sqlite3_Error : pyclass := subclass "sqlite3.Error" Exception.
Definition sqlite3_DatabaseError : pyclass := subclass "sqlite3.DatabaseError" sqlite3_Error.
Definition sqlite3_OperationalError : pyclass :=
  subclass "sqlite3.OperationalError" sqlite3_DatabaseError.
Definition sqlite3_ProgrammingError : pyclass :=
  subclass "sqlite3.ProgrammingError" sqlite3_DatabaseError.
Definition DatabaseError : pyclass := subclass "DatabaseError" Exception.

Record RosterMember : Type := mkMember {
  name : string;
  species : string;
  age : Z;
  id : option Z
}.

(** [str.strip()] removes white space; on ASCII text that is the
    characters 9-13 and 28-32. *)
Definition is_space (a : ascii) : bool :=
  let n := nat_of_ascii a in
  ((9 <=? n) && (n <=? 13) || (28 <=? n) && (n <=? 32))%nat.

Fixpoint is_blank (s : string) : bool :=
  match s with
  | EmptyString => true
  | String a s' => is_space a && is_blank s'
  end.

(** RosterMember(...): the dataclass constructor with __post_init__. *)
Definition RosterMember_new (name species : string) (age : Z) (id : option Z)
    : result RosterMember :=
  if is_blank name then Raise ValueError
  else if (100 <? String.length name)%nat then Raise ValueError
  else if is_blank species then Raise ValueError
  else if (50 <? String.length species)%nat then Raise ValueError
  else if negb ((0 <=? age) && (age <=? 1000)) then Raise ValueError
  else Ok (mkMember name species age id).

(** A row of the Roster table: id INTEGER PRIMARY KEY AUTOINCREMENT,
    Name TEXT NOT NULL, Species TEXT NOT NULL, Age INTEGER NOT NULL.
    The schema has no UNIQUE constraint.  (The created_at column, which
    the class never reads, is left out.) *)
Record Row : Type := mkRow {
  row_id : Z;
  row_name : string;
  row_species : string;
  row_age : Z
}.

(** The connection: open or closed; the Roster table if it exists, rows
    in rowid order; and the largest rowid ever given out, which
    AUTOINCREMENT keeps in sqlite_sequence.  (The 64-bit ceiling of
    rowids is not modelled.) *)
Record RosterDatabase : Type := mkDB {
  conn_open : bool;
  roster : option (list Row);
  sequence : Z
}.

(** RosterDatabase(":memory:") *)
Definition connect : RosterDatabase := mkDB true None 0.

Definition close : M RosterDatabase unit :=
  fun db => (Ok tt, mkDB false (roster db) (sequence db)).

(** create_table: CREATE TABLE IF NOT EXISTS Roster (...) *)
Definition create_table : M RosterDatabase unit :=
  fun db =>
    if conn_open db then
      match roster db with
      | Some _ => (Ok tt, db)
      | None => (Ok tt, mkDB true (Some []) (sequence db))
      end
    else (Raise DatabaseError, db).

Definition to_tuple (m : RosterMember) : string * string * Z :=
  (name m, species m, age m).

Definition from_row (r : Row) : result RosterMember :=
  RosterMember_new (row_name r) (row_species r) (row_age r) (Some (row_id r)).

(** The rowid AUTOINCREMENT assigns: one more than the largest rowid the
    table holds or has ever held. *)
Definition next_rowid (db_sequence : Z) (rows : list Row) : Z :=
  fold_right Z.max db_sequence (map row_id rows) + 1.

(** create: INSERT INTO Roster (Name, Species, Age) VALUES (?, ?, ?), then
    [member.id = cursor.lastrowid].  On a closed connection the rollback
    in the handler raises in its turn; without the table the engine's
    error is reported as DatabaseError. *)
Definition create (member : RosterMember) : M RosterDatabase RosterMember :=
  fun db =>
    if conn_open db then
      match roster db with
      | None => (Raise DatabaseError, db)
      | Some rows =>
          let '(n, s, a) := to_tuple member in
          let rowid := next_rowid (sequence db) rows in
          (Ok (mkMember (name member) (species member) (age member) (Some rowid)),
           mkDB true (Some (rows ++ [mkRow rowid n s a])) rowid)
      end
    else (Raise sqlite3_ProgrammingError, db).

Fixpoint map_result {A B} (f : A -> result B) (l : list A) : result (list B) :=
  match l with
  | [] => Ok []
  | x :: rest =>
      match f x with
      | Raise e => Raise e
      | Ok y =>
          match map_result f rest with
          | Raise e => Raise e
          | Ok ys => Ok (y :: ys)
          end
      end
  end.

(** ORDER BY Name: the binary collation compares the bytes of the text. *)
Definition name_le (r1 r2 : Row) : Prop :=
  String.leb (row_name r1) (row_name r2) = true.

#[global] Instance name_le_dec (r1 r2 : Row) : Decision (name_le r1 r2).
Proof. unfold name_le. apply _. Defined.

(** read_all: SELECT id, Name, Species, Age FROM Roster ORDER BY Name,
    every row rebuilt by [RosterMember.from_row]. *)
Definition read_all : M RosterDatabase (list RosterMember) :=
  fun db =>
    if conn_open db then
      match roster db with
      | None => (Raise DatabaseError, db)
      | Some rows => (map_result from_row (merge_sort name_le rows), db)
      end
    else (Raise DatabaseError, db).

(** The stored row can be read back. *)
Definition readable (r : Row) : Prop := exists m, from_row r = Ok m.

(** The record is what its constructor accepts ("valid fields"). *)
Definition valid_member (m : RosterMember) : Prop :=
  RosterMember_new (name m) (species m) (age m) (id m) = Ok m.

(** [cursor.fetchone()] after a SELECT with a WHERE clause: the first
    matching row in rowid order, rebuilt by [RosterMember.from_row], or
    None.  A raise of the engine (closed connection, missing table) is
    reported as DatabaseError; the ValueError of [from_row] on a stored
    row that fails the validation is not caught. *)
Definition fetch_one (matching : Row -> bool) : M RosterDatabase (option RosterMember) :=
  fun db =>
    if conn_open db then
      match roster db with
      | None => (Raise DatabaseError, db)
      | Some rows =>
          match List.find matching rows with
          | None => (Ok None, db)
          | Some r =>
              match from_row r with
              | Ok m => (Ok (Some m), db)
              | Raise e => (Raise e, db)
              end
          end
      end
    else (Raise DatabaseError, db).

(** read_by_id: SELECT id, Name, Species, Age FROM Roster WHERE id = ? *)
Definition read_by_id (member_id : Z) : M RosterDatabase (option RosterMember) :=
  fetch_one (fun r => row_id r =? member_id).


(** The keyword arguments of [update], for values of the types of the
    fields: [name=...], [species=...], [age=...], each given or not, and
    the names of any other keywords. *)
Record Updates : Type := mkUpdates {
  new_name : option string;
  new_species : option string;
  new_age : option Z;
  other_fields : list string
}.

Definition no_updates (u : Updates) : bool :=
  match new_name u, new_species u, new_age u, other_fields u with
  | None, None, None, [] => true
  | _, _, _, _ => false
  end.

(** UPDATE Roster SET ... WHERE id = ? on one row. *)
Definition apply_updates (u : Updates) (r : Row) : Row :=
  mkRow (row_id r)
        (default (row_name r) (new_name u))
        (default (row_species r) (new_species u))
        (default (row_age r) (new_age u)).

(** An [int] that SQLite can store (64-bit signed); binding a larger one
    raises OverflowError before the statement runs. *)
Definition fits_int64 (n : Z) : bool := (- 2 ^ 63 <=? n) && (n <? 2 ^ 63).

(** update, on the in-memory database (no backup): the member must exist;
    unknown field names and an empty update are refused; then the UPDATE
    is executed and committed, and only then the row is read back through
    [read_by_id], hence through the validation of [RosterMember]. *)
Definition update (member_id : Z) (u : Updates) : M RosterDatabase RosterMember :=
  member ← read_by_id member_id;
  match member with
  | None => throw DatabaseError
  | Some _ =>
      if negb (bool_decide (other_fields u = [])) then throw ValueError
      else if no_updates u then throw ValueError
      else if negb (fits_int64 (default 0 (new_age u))) then throw OverflowError
      else
        (fun db =>
           (Ok tt,
            mkDB (conn_open db)
                 (option_map
                    (map (fun r => if row_id r =? member_id then apply_updates u r else r))
                    (roster db))
                 (sequence db)));;
        updated_member ← read_by_id member_id;
        match updated_member with
        | Some m => ret m
        | None => throw DatabaseError
        end
  end.

(** delete: the member must exist; DELETE FROM Roster WHERE id = ?; the
    deleted member is returned.  The sequence of AUTOINCREMENT stays. *)
Definition delete (member_id : Z) : M RosterDatabase RosterMember :=
  member ← read_by_id member_id;
  match member with
  | None => throw DatabaseError
  | Some m =>
      (fun db =>
         (Ok tt,
          mkDB (conn_open db)
               (option_map (List.filter (fun r => negb (row_id r =? member_id)))
                           (roster db))
               (sequence db)));;
      ret m
  end.

(** A session: calls made one after another on the same database,
    whatever each returns or raises. *)
Inductive call : Type :=
| Create (member : RosterMember)
| Update (member_id : Z) (u : Updates)
| Delete (member_id : Z).

Definition db_after (c : call) (db : RosterDatabase) : RosterDatabase :=
  match c with
  | Create member => snd (create member db)
  | Update member_id u => snd (update member_id u db)
  | Delete member_id => snd (delete member_id db)
  end.

(** The ids that the [create] calls of a session return, in order. *)
Fixpoint created_ids (session : list call) (db : RosterDatabase) : list Z :=
  match session with
  | [] => []
  | c :: rest =>
      match c with
      | Create member =>
          match create member db with
          | (Ok m, _) => match id m with Some i => [i] | None => [] end
          | (Raise _, _) => []
          end
      | _ => []
      end ++ created_ids rest (db_after c db)
  end.

End L15.

(** ** Lesson 9: Person.age_on (9-uv.py, Task 2) *)

Module Person.

Record Person : Type := mkPerson {
  name : string;
  country : string;
  dob : L13.date
}.

(** age_on: the difference of the years, less one when the birthday has
    not occurred yet in the year of [on_date]. *)
Definition age_on (p : Person) (on_date : L13.date) : Z :=
  let years := L13.year on_date - L13.year (dob p) in
  let before_birthday :=
    L13.pair_lt (L13.month on_date, L13.day on_date)
                (L13.month (dob p), L13.day (dob p)) in
  years - (if before_birthday then 1 else 0).

(** [a <= b] on dates. *)
Definition date_le (a b : L13.date) : Prop := L13.date_lt b a = false.

End Person.

(** ** Lesson 9: Stack and Queue (9-uv.py, Tasks 6, 9 and 10) *)

Module Stack.

(** [self._data], a Python list; the top of the stack is its last item. *)
Definition Stack (A : Type) : Type := list A.

Definition init {A} : Stack A := [].

Definition push {A} (x : A) : M (Stack A) unit :=
  fun s => (Ok tt, s ++ [x]).

Definition pop {A} : M (Stack A) A :=
  fun s =>
    match last s with
    | None => (Raise IndexError, s)
    | Some x => (Ok x, removelast s)
    end.

Definition peek {A} : M (Stack A) A :=
  fun s =>
    match last s with
    | None => (Raise IndexError, s)
    | Some x => (Ok x, s)
    end.

Definition is_empty {A} (s : Stack A) : bool :=
  match s with [] => true | _ => false end.

Definition display {A} (s : Stack A) : list A := s.

Definition clear {A} : M (Stack A) unit := fun _ => (Ok tt, []).

Definition len {A} (s : Stack A) : Z := Z.of_nat (length s).

(** [for x in xs: st.push(x)] and [n] calls of [st.pop()], collecting
    what they return; the first raise ends the run. *)
Definition push_all {A} (xs : list A) : M (Stack A) unit :=
  fun s => (Ok tt, fold_left (fun s x => snd (push x s)) xs s).

Fixpoint pop_many {A} (n : nat) : M (Stack A) (list A) :=
  match n with
  | O => ret []
  | S n' => x ← pop; xs ← pop_many n'; ret (x :: xs)
  end.

End Stack.

Module Queue.

(** [self._dq], a deque; the front of the queue is its first item. *)
Definition Queue (A : Type) : Type := list A.

Definition init {A} : Queue A := [].

Definition enqueue {A} (x : A) : M (Queue A) unit :=
  fun q => (Ok tt, q ++ [x]).

Definition dequeue {A} : M (Queue A) A :=
  fun q =>
    match q with
    | [] => (Raise IndexError, q)
    | x :: rest => (Ok x, rest)
    end.

Definition peek {A} : M (Queue A) A :=
  fun q =>
    match q with
    | [] => (Raise IndexError, q)
    | x :: _ => (Ok x, q)
    end.

Definition is_empty {A} (q : Queue A) : bool :=
  match q with [] => true | _ => false end.

Definition len {A} (q : Queue A) : Z := Z.of_nat (length q).

Definition enqueue_all {A} (xs : list A) : M (Queue A) unit :=
  fun q => (Ok tt, fold_left (fun q x => snd (enqueue x q)) xs q).

Fixpoint dequeue_many {A} (n : nat) : M (Queue A) (list A) :=
  match n with
  | O => ret []
  | S n' => x ← dequeue; xs ← dequeue_many n'; ret (x :: xs)
  end.

End Queue.

(** ** Lesson 9: the singly linked list (9-uv.py, Task 7) *)

Module LinkedList.

(** LLNode objects live in a heap and are referenced by their address;
    [None] is Python's None.  A new object gets the next free address,
    and objects are never freed (a node that was unlinked stays where it
    is, unreachable).  Values are integers, compared by [==]. *)
Record LLNode : Type := mkNode {
  value : Z;
  next : option nat
}.

Record LinkedList : Type := mkList {
  heap : list LLNode;
  head : option nat;
  tail : option nat
}.

(** LinkedList() *)
Definition init : LinkedList := mkList [] None None.

(** [node.next = target] for the object at address [node]. *)
Definition set_next (node : nat) (target : option nat) (h : list LLNode) : list LLNode :=
  alter (fun n => mkNode (value n) target) node h.

Definition insert_head (v : Z) (l : LinkedList) : LinkedList :=
  let node := length (heap l) in
  let h := heap l ++ [mkNode v (head l)] in
  match tail l with
  | None => mkList h (Some node) (Some node)
  | Some t => mkList h (Some node) (Some t)
  end.

Definition insert_tail (v : Z) (l : LinkedList) : LinkedList :=
  let node := length (heap l) in
  let h := heap l ++ [mkNode v None] in
  match tail l with
  | None => mkList h (Some node) (Some node)
  | Some t => mkList (set_next t (Some node) h) (head l) (Some node)
  end.

(** The loop of delete_value with its variables [prev] and [cur]; the
    result is [None] if the fuel runs out (a cyclic chain) or a reference
    dangles. *)
Fixpoint delete_loop (fuel : nat) (v : Z) (l : LinkedList) (prev cur : option nat)
    : option (bool * LinkedList) :=
  match cur with
  | None => Some (false, l)
  | Some c =>
      match fuel with
      | O => None
      | S fuel' =>
          match heap l !! c with
          | None => None
          | Some cn =>
              if value cn =? v then
                let l1 :=
                  match prev with
                  | None => mkList (heap l) (next cn) (tail l)
                  | Some p => mkList (set_next p (next cn) (heap l)) (head l) (tail l)
                  end in
                let l2 :=
                  if bool_decide (tail l = Some c)
                  then mkList (heap l1) (head l1) prev
                  else l1 in
                Some (true, l2)
              else delete_loop fuel' v l (Some c) (next cn)
          end
      end
  end.

Definition delete_value (v : Z) (l : LinkedList) : option (bool * LinkedList) :=
  delete_loop (S (length (heap l))) v l None (head l).

(** __iter__ from [cur]; to_list and __len__. *)
Fixpoint iter_from (fuel : nat) (h : list LLNode) (cur : option nat) : option (list Z) :=
  match cur with
  | None => Some []
  | Some c =>
      match fuel with
      | O => None
      | S fuel' =>
          match h !! c with
          | None => None
          | Some n =>
              match iter_from fuel' h (next n) with
              | Some vs => Some (value n :: vs)
              | None => None
              end
          end
      end
  end.

Definition to_list (l : LinkedList) : option (list Z) :=
  iter_from (S (length (heap l))) (heap l) (head l).

Definition len (l : LinkedList) : option Z :=
  match to_list l with
  | Some vs => Some (Z.of_nat (length vs))
  | None => None
  end.

(** The lists a program can hold: LinkedList() and what the three
    mutators make of such a list. *)
Inductive reachable : LinkedList -> Prop :=
| reach_init : reachable init
| reach_insert_head v l : reachable l -> reachable (insert_head v l)
| reach_insert_tail v l : reachable l -> reachable (insert_tail v l)
| reach_delete v l b l' : reachable l -> delete_value v l = Some (b, l') -> reachable l'.

(** The nodes from reference [cur] up to reference [stop], as
    (address, value) cells. *)
Fixpoint segment (h : list LLNode) (cur : option nat) (cells : list (nat * Z))
    (stop : option nat) : Prop :=
  match cells with
  | [] => cur = stop
  | (a, v) :: rest =>
      cur = Some a /\ exists nx, (h !! a) = Some (mkNode v nx) /\ segment h nx rest stop
  end.

(** The list holds exactly [cells]: the chain from [head] ends in None,
    no node occurs twice, and [tail] is the last node. *)
Definition holds (l : LinkedList) (cells : list (nat * Z)) : Prop :=
  segment (heap l) (head l) cells None /\
  NoDup (map fst cells) /\
  tail l = last (map fst cells).

(** [xs] without the first occurrence of [v]. *)
Fixpoint remove_first (v : Z) (xs : list Z) : list Z :=
  match xs with
  | [] => []
  | x :: rest => if x =? v then rest else x :: remove_first v rest
  end.

End LinkedList.

(** ** Lesson 10: round_money and the ToDo list (10-uv.py, helpers and Task 1) *)

Module Money.

(** round_money: [Decimal(x).quantize(Decimal("0.01"), rounding=ROUND_HALF_UP)] *)
Definition round_money (x : Decimal) : result Decimal := Dec.quantize_half_up x (-2).

End Money.

Module ToDo.

Inductive TaskStatus : Type := TODO | DONE.

Record Task : Type := mkTask {
  id : Z;
  title : string;
  description : string;
  due_date : option L13.date;
  status : TaskStatus
}.

(** [str.strip()] on ASCII text. *)
Fixpoint lstrip (s : string) : string :=
  match s with
  | EmptyString => EmptyString
  | String a s' => if L15.is_space a then lstrip s' else s
  end.

Fixpoint rstrip (s : string) : string :=
  match s with
  | EmptyString => EmptyString
  | String a s' =>
      match rstrip s' with
      | EmptyString => if L15.is_space a then EmptyString else String a EmptyString
      | r => String a r
      end
  end.

Definition strip (s : string) : string := rstrip (lstrip s).

(** Task(...): __post_init__ refuses an empty or blank title and strips
    the title it keeps. *)
Definition Task_new (id : Z) (title description : string)
    (due_date : option L13.date) (status : TaskStatus) : result Task :=
  if L15.is_blank title then Raise ValueError
  else Ok (mkTask id (strip title) description due_date status).

Record ToDoList : Type := mkToDo {
  _tasks : gmap Z Task;
  _next_id : Z;
  _modified : bool
}.

(** ToDoList() *)
Definition init : ToDoList := mkToDo ∅ 1 false.

Definition add_task (title description : string) (due_date : option L13.date)
    : M ToDoList Task :=
  fun td =>
    match Task_new (_next_id td) title description due_date TODO with
    | Raise e => (Raise e, td)
    | Ok task =>
        (Ok task, mkToDo (<[id task := task]> (_tasks td)) (_next_id td + 1) true)
    end.

Definition get_task (task_id : Z) (td : ToDoList) : option Task := _tasks td !! task_id.

Definition mark_done (t : Task) : Task :=
  mkTask (id t) (title t) (description t) (due_date t) DONE.

Definition mark_complete (task_id : Z) : M ToDoList (bool * string) :=
  fun td =>
    match _tasks td !! task_id with
    | None => (Ok (false, "Task not found"%string), td)
    | Some task =>
        match status task with
        | DONE => (Ok (false, "Task already completed"%string), td)
        | TODO =>
            (Ok (true, "Task marked as complete"%string),
             mkToDo (<[task_id := mark_done task]> (_tasks td)) (_next_id td) true)
        end
    end.

Definition delete_task (task_id : Z) : M ToDoList bool :=
  fun td =>
    match _tasks td !! task_id with
    | Some _ => (Ok true, mkToDo (delete task_id (_tasks td)) (_next_id td) true)
    | None => (Ok false, td)
    end.

(** list_all: [[self._tasks[k] for k in sorted(self._tasks)]] *)
Definition list_all (td : ToDoList) : list Task :=
  omap (fun k => _tasks td !! k) (merge_sort Z.le (map fst (map_to_list (_tasks td)))).

Definition is_todo (t : Task) : bool :=
  match status t with TODO => true | DONE => false end.

Definition list_incomplete (td : ToDoList) : list Task :=
  List.filter is_todo (list_all td).

(** A program that only uses the public methods: a sequence of calls on
    ToDoList(), each of which may return or raise. *)
Inductive call : Type :=
| AddTask (title description : string) (due_date : option L13.date)
| MarkComplete (task_id : Z)
| DeleteTask (task_id : Z).

Definition do_call (c : call) (td : ToDoList) : ToDoList :=
  match c with
  | AddTask title description due_date => snd (add_task title description due_date td)
  | MarkComplete task_id => snd (mark_complete task_id td)
  | DeleteTask task_id => snd (delete_task task_id td)
  end.

Definition do_calls (cs : list call) (td : ToDoList) : ToDoList :=
  fold_left (fun td c => do_call c td) cs td.

Definition after (cs : list call) : ToDoList := do_calls cs init.

(** The ids of the tasks that the add_task calls of [cs] return, in order. *)
Fixpoint issued_ids (cs : list call) (td : ToDoList) : list Z :=
  match cs with
  | [] => []
  | c :: rest =>
      match c with
      | AddTask title description due_date =>
          match fst (add_task title description due_date td) with
          | Ok task => [id task]
          | Raise _ => []
          end
      | _ => []
      end ++ issued_ids rest (do_call c td)
  end.

(** Every task is stored under its own id, and the ids in use lie below
    the next one to be given. *)
Definition well_numbered (td : ToDoList) : Prop :=
  1 <= _next_id td /\
  forall k t, _tasks td !! k = Some t -> id t = k /\ 1 <= k < _next_id td.

End ToDo.

(** ** Lesson 9: the shopping cart (9-uv.py, Task 8) *)

Module ShoppingCart.

Record CartItem : Type := mkItem {
  name : string;
  unit_price : Decimal;
  quantity : Z
}.


(** [self._items], a dict: the entries in insertion order; assigning to
    a key that is present keeps its place. *)
Record ShoppingCart : Type := mkCart {
  _items : list (string * CartItem);
  _strict_price : bool
}.

(** ShoppingCart(strict_price=...) *)
Definition init (strict_price : bool) : ShoppingCart := mkCart [] strict_price.






Definition items (cart : ShoppingCart) : list CartItem := map snd (_items cart).

(** [sum((it.unit_price * it.quantity for it in ...), start)] *)
Fixpoint sum_from (start : Decimal) (its : list CartItem) : result Decimal :=
  match its with
  | [] => Ok start
  | it :: rest =>
      match Dec.mul (unit_price it) (Dec.of_Z (quantity it)) with
      | Raise e => Raise e
      | Ok line =>
          match Dec.add start line with
          | Raise e => Raise e
          | Ok acc => sum_from acc rest
          end
      end
  end.

(** total: the sum, quantized to cents, half up. *)
Definition total (cart : ShoppingCart) : result Decimal :=
  match sum_from Dec.zero (items cart) with
  | Raise e => Raise e
  | Ok t => Dec.quantize_half_up t (-2)
  end.

(** The sum of price times quantity, as a rational. *)
Definition exact_total (its : list CartItem) : Q :=
  fold_right (fun it acc => (value (unit_price it) * inject_Z (quantity it) + acc)%Q) 0%Q its.

(** What the class keeps true of a cart: every entry is stored under its
    own name, no name occurs twice, quantities are positive and prices
    are not negative. *)
Definition sound (cart : ShoppingCart) : Prop :=
  NoDup (map fst (_items cart)) /\
  Forall (fun e => name (snd e) = fst e /\ 0 < quantity (snd e) /\
                   (0 <= value (unit_price (snd e)))%Q) (_items cart).

End ShoppingCart.

(** * Part II: proofs *)

(** ** Facts about the decimal model *)

Section DecimalFacts.

Lemma ten_pow_Q (k : Z) : 0 <= k -> (inject_Z (10 ^ k) == (10 # 1) ^ k)%Q.
Proof.
  intros Hk. change (10 # 1)%Q with (inject_Z 10).
  apply Zpower_Qpower. exact Hk.
Qed.

Lemma ten_pow_Q_pos (e : Z) : (0 < (10 # 1) ^ e)%Q.
Proof. apply Qpower_0_lt. reflexivity. Qed.

Lemma value_aligned (a : Decimal) (e : Z) :
  e <= dexp a ->
  (value a == inject_Z (coeff a * 10 ^ (dexp a - e)) * (10 # 1) ^ e)%Q.
Proof.
  intros He. unfold value.
  rewrite inject_Z_mult, ten_pow_Q by lia.
  rewrite <- Qmult_assoc, <- Qpower_plus by discriminate.
  replace (dexp a - e + e) with (dexp a) by lia. reflexivity.
Qed.

Lemma value_exact_add (a b : Decimal) :
  (value (exact_add a b) == value a + value b)%Q.
Proof.
  rewrite (value_aligned a (Z.min (dexp a) (dexp b))) by lia.
  rewrite (value_aligned b (Z.min (dexp a) (dexp b))) by lia.
  unfold exact_add, value; simpl.
  rewrite inject_Z_plus. ring.
Qed.

Lemma value_copy_negate (a : Decimal) : (value (copy_negate a) == - value a)%Q.
Proof. unfold copy_negate, value; simpl. rewrite inject_Z_opp. ring. Qed.

Lemma value_exact_sub (a b : Decimal) :
  (value (exact_sub a b) == value a - value b)%Q.
Proof. unfold exact_sub. rewrite value_exact_add, value_copy_negate. ring. Qed.

Lemma value_zero_coeff (e : Z) : (value (mkDec 0 e) == 0)%Q.
Proof. unfold value; simpl. ring. Qed.

(** A result that fits the context is returned with its value intact. *)
Lemma fix_fits (d : Decimal) :
  fits d = true -> exists d', fix_ d = Ok d' /\ (value d' == value d)%Q.
Proof.
  unfold fits, fix_. destruct d as [c e]; simpl.
  destruct (c =? 0) eqn:Hc; simpl.
  - intros _. apply Z.eqb_eq in Hc. subst c. eexists; split; [reflexivity|].
    now rewrite !value_zero_coeff.
  - intros H. apply andb_true_iff in H as [H1 H2].
    apply negb_true_iff in H1, H2. rewrite H1, H2.
    eexists; split; reflexivity.
Qed.

Lemma cmp_value (a b : Decimal) : cmp a b = (value a ?= value b)%Q.
Proof.
  unfold cmp.
  set (e := Z.min (dexp a) (dexp b)).
  rewrite (Qcompare_comp _ _ (value_aligned a e ltac:(lia)) _ _ (value_aligned b e ltac:(lia))).
  set (x := coeff a * 10 ^ (dexp a - e)). set (y := coeff b * 10 ^ (dexp b - e)).
  pose proof (ten_pow_Q_pos e) as Hp.
  destruct (Z.compare_spec x y) as [H|H|H]; symmetry.
  - apply Qeq_alt. now rewrite H.
  - apply Qlt_alt. apply Qmult_lt_r; [exact Hp|]. now rewrite <- Zlt_Qlt.
  - apply Qgt_alt. apply Qmult_lt_r; [exact Hp|]. now rewrite <- Zlt_Qlt.
Qed.

Lemma lt_value (a b : Decimal) : lt a b = true <-> (value a < value b)%Q.
Proof.
  unfold lt. rewrite cmp_value, Qlt_alt.
  destruct (value a ?= value b)%Q; intuition congruence.
Qed.

Lemma le_value (a b : Decimal) : le a b = true <-> (value a <= value b)%Q.
Proof.
  unfold le. rewrite cmp_value, Qle_alt.
  destruct (value a ?= value b)%Q; intuition congruence.
Qed.

Lemma lt_false_value (a b : Decimal) : lt a b = false <-> (value b <= value a)%Q.
Proof.
  rewrite <- not_true_iff_false, lt_value. split.
  - apply Qnot_lt_le.
  - intros H1 H2. exact (Qlt_not_le _ _ H2 H1).
Qed.

Lemma le_false_value (a b : Decimal) : le a b = false <-> (value b < value a)%Q.
Proof.
  rewrite <- not_true_iff_false, le_value. split.
  - apply Qnot_le_lt.
  - intros H1 H2. exact (Qlt_not_le _ _ H1 H2).
Qed.

Lemma value_zero : (value Dec.zero == 0)%Q.
Proof. apply value_zero_coeff. Qed.

Lemma add_fits (a b : Decimal) :
  fits (exact_add a b) = true ->
  exists r, Dec.add a b = Ok r /\ (value r == value a + value b)%Q.
Proof.
  intros H. destruct (fix_fits _ H) as (r & Hr & Hv).
  exists r. split; [exact Hr|]. now rewrite Hv, value_exact_add.
Qed.

Lemma sub_fits (a b : Decimal) :
  fits (exact_sub a b) = true ->
  exists r, Dec.sub a b = Ok r /\ (value r == value a - value b)%Q.
Proof.
  intros H. destruct (fix_fits _ H) as (r & Hr & Hv).
  exists r. split; [exact Hr|]. now rewrite Hv, value_exact_sub.
Qed.

Lemma neg_fits (a : Decimal) :
  fits (copy_negate a) = true ->
  exists r, Dec.neg a = Ok r /\ (value r == - value a)%Q.
Proof.
  intros H. destruct (fix_fits _ H) as (r & Hr & Hv).
  exists r. split; [exact Hr|]. now rewrite Hv, value_copy_negate.
Qed.

Lemma fix_raises_overflow (d : Decimal) (e : pyclass) :
  fix_ d = Raise e -> e = Overflow.
Proof.
  unfold fix_.
  repeat match goal with
         | |- context [if ?b then _ else _] => destruct b
         end; congruence.
Qed.

Lemma overflow_is_exception : issubclass Overflow Exception = true.
Proof. reflexivity. Qed.

Lemma exactly_unrounded r v : exactly r v -> unrounded r v.
Proof. intros (d & -> & Hv) d' [= <-]. exact Hv. Qed.

Lemma fits_exactly_add a b :
  fits (exact_add a b) = true -> exactly (Dec.add a b) (value a + value b).
Proof. apply add_fits. Qed.

Lemma fits_exactly_sub a b :
  fits (exact_sub a b) = true -> exactly (Dec.sub a b) (value a - value b).
Proof. apply sub_fits. Qed.

Lemma fits_exactly_neg a :
  fits (copy_negate a) = true -> exactly (Dec.neg a) (- value a).
Proof. apply neg_fits. Qed.

End DecimalFacts.

(** ** Bank transfers (lessons 9 and 10) *)

Ltac run_M := unfold mbind, M_bind, bind, throw, try_except; simpl.

Lemma le_zero_false_pos (amount : Decimal) :
  Dec.le amount Dec.zero = false <-> (0 < value amount)%Q.
Proof. rewrite le_false_value, value_zero. reflexivity. Qed.

(** *** The exact total of a ledger *)

#[local] Instance Qeq_preorder : PreOrder Qeq.
Proof. split; [exact Qeq_refl | exact Qeq_trans]. Qed.

Lemma total_delete (m : gmap Z Decimal) (k : Z) (b : Decimal) :
  (m !! k) = Some b ->
  (Ledger.total m == value b + Ledger.total (delete k m))%Q.
Proof.
  intros Hk. unfold Ledger.total.
  apply (map_fold_delete Qeq (fun _ b s => (value b + s)%Q)); [| | exact Hk].
  - intros _ z x y Hxy. now rewrite Hxy.
  - intros. ring.
Qed.

Lemma total_insert_fresh (m : gmap Z Decimal) (k : Z) (b : Decimal) :
  (m !! k) = None ->
  (Ledger.total (<[k := b]> m) == value b + Ledger.total m)%Q.
Proof.
  intros Hk. unfold Ledger.total.
  apply (map_fold_insert Qeq (fun _ b s => (value b + s)%Q)); [| | exact Hk].
  - intros _ z x y Hxy. now rewrite Hxy.
  - intros. ring.
Qed.

(** Overwriting a balance changes the total by the difference. *)
Lemma total_insert (m : gmap Z Decimal) (k : Z) (b b' : Decimal) :
  (m !! k) = Some b ->
  (Ledger.total (<[k := b']> m) == Ledger.total m - value b + value b')%Q.
Proof.
  intros Hk. rewrite <- insert_delete_eq.
  rewrite total_insert_fresh by apply lookup_delete_eq.
  rewrite (total_delete m k b Hk). ring.
Qed.

(** *** Lesson 9: every run of transfer *)

Lemma L9_set_set (a : L9.Account) b b' :
  L9.set_balance (L9.set_balance a b) b' = L9.set_balance a b'.
Proof. reflexivity. Qed.

Lemma L9_transfer_cases (bank : gmap Z L9.Account) from_id to_id amount :
  (exists e, L9.transfer from_id to_id amount bank = (Raise e, bank)) \/
  (exists src b1 dst1,
      (bank !! from_id) = Some src /\
      Dec.le amount Dec.zero = false /\
      Dec.lt (L9.balance src) amount = false /\
      Dec.sub (L9.balance src) amount = Ok b1 /\
      (<[from_id := L9.set_balance src b1]> bank !! to_id) = Some dst1 /\
      ((exists b2,
           Dec.add (L9.balance dst1) amount = Ok b2 /\
           L9.transfer from_id to_id amount bank =
             (Ok tt, <[to_id := L9.set_balance dst1 b2]>
                       (<[from_id := L9.set_balance src b1]> bank))) \/
       (exists e,
           Dec.add (L9.balance dst1) amount = Raise e /\
           ((exists b3,
                Dec.add b1 amount = Ok b3 /\
                L9.transfer from_id to_id amount bank =
                  (Raise RuntimeError, <[from_id := L9.set_balance src b3]> bank)) \/
            (exists e',
                Dec.add b1 amount = Raise e' /\
                L9.transfer from_id to_id amount bank =
                  (Raise e', <[from_id := L9.set_balance src b1]> bank)))))).
Proof.
  destruct (L9.transfer from_id to_id amount bank) as [r bank'] eqn:Hrun.
  unfold L9.transfer in Hrun.
  destruct (Dec.le amount Dec.zero) eqn:Hpos;
    [injection Hrun as <- <-; left; eexists; reflexivity|].
  revert Hrun. run_M. unfold L9.get_account.
  destruct (bank !! from_id) as [src|] eqn:Hs;
    [|intros [= <- <-]; left; eexists; reflexivity].
  destruct (bank !! to_id) as [dst|] eqn:Hd;
    [|intros [= <- <-]; left; eexists; reflexivity].
  unfold L9.call at 1. rewrite Hs. unfold L9.Account_withdraw. rewrite Hpos.
  destruct (Dec.lt (L9.balance src) amount) eqn:Hsuf;
    [intros [= <- <-]; left; eexists; reflexivity|].
  destruct (Dec.sub (L9.balance src) amount) as [b1|e] eqn:Hsub;
    [|intros [= <- <-]; left; eexists; reflexivity].
  assert (Hd1 : exists dst1,
             (<[from_id := L9.set_balance src b1]> bank !! to_id) = Some dst1).
  { destruct (decide (from_id = to_id)) as [->|Hne].
    - rewrite lookup_insert_eq. eauto.
    - rewrite lookup_insert_ne by exact Hne. eauto. }
  destruct Hd1 as [dst1 Hd1].
  unfold L9.call at 1. rewrite Hd1. unfold L9.Account_deposit at 1. rewrite Hpos.
  destruct (Dec.add (L9.balance dst1) amount) as [b2|e] eqn:Hadd.
  - intros [= <- <-]. right. exists src, b1, dst1.
    repeat (split; [assumption || reflexivity|]).
    left. exists b2. split; [exact Hadd | reflexivity].
  - pose proof (fix_raises_overflow _ _ Hadd) as ->. simpl.
    unfold L9.call. rewrite lookup_insert_eq.
    unfold L9.Account_deposit. rewrite Hpos. simpl.
    destruct (Dec.add b1 amount) as [b3|e'] eqn:Hback.
    + rewrite insert_insert_eq. intros [= <- <-]. right. exists src, b1, dst1.
      repeat (split; [assumption || reflexivity|]).
      right. exists Overflow. split; [exact Hadd|].
      left. exists b3. split; [exact Hback | reflexivity].
    + intros [= <- <-]. right. exists src, b1, dst1.
      repeat (split; [assumption || reflexivity|]).
      right. exists Overflow. split; [exact Hadd|].
      right. exists e'. split; [exact Hback | reflexivity].
Qed.

(** *** Lesson 10: every run of transfer *)

Lemma L10_restore (a : L10.Account) b :
  L10.set_balance (L10.set_balance a b) (L10.balance a) = a.
Proof. destruct a; reflexivity. Qed.

Lemma L10_transfer_cases (bank : gmap Z L10.Account) from_id to_id amount :
  (exists e, L10.transfer from_id to_id amount bank = (Raise e, bank) /\
             e <> RuntimeError) \/
  (exists src b1 dst1,
      (bank !! from_id) = Some src /\
      Dec.le amount Dec.zero = false /\
      Dec.sub (L10.balance src) amount = Ok b1 /\
      (<[from_id := L10.set_balance src b1]> bank !! to_id) = Some dst1 /\
      ((exists b2,
           Dec.add (L10.balance dst1) amount = Ok b2 /\
           L10.transfer from_id to_id amount bank =
             (Ok tt, <[to_id := L10.set_balance dst1 b2]>
                       (<[from_id := L10.set_balance src b1]> bank))) \/
       (exists e,
           Dec.add (L10.balance dst1) amount = Raise e /\
           L10.transfer from_id to_id amount bank = (Raise RuntimeError, bank)))).
Proof.
  destruct (L10.transfer from_id to_id amount bank) as [r bank'] eqn:Hrun.
  unfold L10.transfer in Hrun.
  destruct (Dec.le amount Dec.zero) eqn:Hpos;
    [injection Hrun as <- <-; left; eexists; split; [reflexivity | discriminate]|].
  revert Hrun. run_M. unfold L10.get.
  destruct (bank !! from_id) as [src|] eqn:Hs;
    [|intros [= <- <-]; left; eexists; split; [reflexivity | discriminate]].
  destruct (bank !! to_id) as [dst|] eqn:Hd;
    [|intros [= <- <-]; left; eexists; split; [reflexivity | discriminate]].
  unfold L10.read_balance. rewrite Hs.
  unfold L10.call at 1. rewrite Hs. unfold L10.Account_withdraw. rewrite Hpos.
  destruct (Dec.sub (L10.balance src) amount) as [b1|e] eqn:Hsub.
  2:{ intros [= <- <-]. left; eexists; split; [reflexivity|].
      rewrite (fix_raises_overflow _ _ Hsub). discriminate. }
  destruct (Dec.neg (L10.overdraft_limit src)) as [fl|e] eqn:Hneg.
  2:{ intros [= <- <-]. left; eexists; split; [reflexivity|].
      rewrite (fix_raises_overflow _ _ Hneg). discriminate. }
  destruct (Dec.lt b1 fl) eqn:Hsuf;
    [intros [= <- <-]; left; eexists; split; [reflexivity | discriminate]|].
  assert (Hd1 : exists dst1,
             (<[from_id := L10.set_balance src b1]> bank !! to_id) = Some dst1).
  { destruct (decide (from_id = to_id)) as [->|Hne].
    - rewrite lookup_insert_eq. eauto.
    - rewrite lookup_insert_ne by exact Hne. eauto. }
  destruct Hd1 as [dst1 Hd1].
  unfold L10.call at 1. rewrite Hd1. unfold L10.Account_deposit at 1. rewrite Hpos.
  destruct (Dec.add (L10.balance dst1) amount) as [b2|e] eqn:Hadd.
  - intros [= <- <-]. right. exists src, b1, dst1.
    repeat (split; [assumption || reflexivity|]).
    left. exists b2. split; [exact Hadd | reflexivity].
  - pose proof (fix_raises_overflow _ _ Hadd) as ->. simpl.
    unfold L10.assign_balance, L10.call. rewrite lookup_insert_eq. simpl.
    rewrite insert_insert_eq, L10_restore, insert_id by exact Hs.
    intros [= <- <-]. right. exists src, b1, dst1.
    repeat (split; [assumption || reflexivity|]).
    right. exists Overflow. split; [exact Hadd | reflexivity].
Qed.

(** Lesson 9, the run of a transfer between two distinct accounts whose
    debit and credit are computed by the context as [b1] and [b2]. *)
Lemma L9_transfer_run (bank : gmap Z L9.Account) from_id to_id amount src dst b1 b2 :
  from_id <> to_id ->
  (bank !! from_id) = Some src -> (bank !! to_id) = Some dst ->
  Dec.le amount Dec.zero = false ->
  Dec.lt (L9.balance src) amount = false ->
  Dec.sub (L9.balance src) amount = Ok b1 ->
  Dec.add (L9.balance dst) amount = Ok b2 ->
  L9.transfer from_id to_id amount bank =
    (Ok tt, <[to_id := L9.set_balance dst b2]>
              (<[from_id := L9.set_balance src b1]> bank)).
Proof.
  intros Hne Hs Hd Hpos Hsuf Hsub Hadd.
  unfold L9.transfer. rewrite Hpos. run_M.
  unfold L9.get_account. rewrite Hs, Hd.
  unfold L9.call. rewrite Hs.
  unfold L9.Account_withdraw. rewrite Hpos, Hsuf, Hsub.
  rewrite lookup_insert_ne by exact Hne. rewrite Hd.
  unfold L9.Account_deposit. rewrite Hpos, Hadd. reflexivity.
Qed.

Lemma L10_transfer_run (bank : gmap Z L10.Account) from_id to_id amount src dst b1 fl b2 :
  from_id <> to_id ->
  (bank !! from_id) = Some src -> (bank !! to_id) = Some dst ->
  Dec.le amount Dec.zero = false ->
  Dec.sub (L10.balance src) amount = Ok b1 ->
  Dec.neg (L10.overdraft_limit src) = Ok fl ->
  Dec.lt b1 fl = false ->
  Dec.add (L10.balance dst) amount = Ok b2 ->
  L10.transfer from_id to_id amount bank =
    (Ok tt, <[to_id := L10.set_balance dst b2]>
              (<[from_id := L10.set_balance src b1]> bank)).
Proof.
  intros Hne Hs Hd Hpos Hsub Hneg Hsuf Hadd.
  unfold L10.transfer. rewrite Hpos. run_M.
  unfold L10.get. rewrite Hs, Hd.
  unfold L10.read_balance. rewrite Hs.
  unfold L10.call. rewrite Hs.
  unfold L10.Account_withdraw. rewrite Hpos, Hsub, Hneg, Hsuf.
  rewrite lookup_insert_ne by exact Hne. rewrite Hd.
  unfold L10.Account_deposit. rewrite Hpos, Hadd. reflexivity.
Qed.

(** After two in-place updates the ledger has moved [amount]. *)
Lemma moves_two_updates (m : gmap Z Decimal) from_id to_id amount s d b1 b2 :
  from_id <> to_id ->
  (m !! from_id) = Some s -> (m !! to_id) = Some d ->
  (value b1 == value s - value amount)%Q ->
  (value b2 == value d + value amount)%Q ->
  Ledger.moves m (<[to_id := b2]> (<[from_id := b1]> m)) from_id to_id amount.
Proof.
  intros Hne Hs Hd H1 H2. repeat split.
  - exists s, b1. rewrite lookup_insert_ne, lookup_insert_eq by congruence. auto.
  - exists d, b2. rewrite lookup_insert_eq. auto.
  - intros k Hk1 Hk2. rewrite !lookup_insert_ne by congruence. reflexivity.
Qed.

Lemma L9_transfer_moves (bank : gmap Z L9.Account) from_id to_id amount src dst :
  from_id <> to_id ->
  (bank !! from_id) = Some src -> (bank !! to_id) = Some dst ->
  (0 < value amount)%Q ->
  (value amount <= value (L9.balance src))%Q ->
  exactly (Dec.sub (L9.balance src) amount) (value (L9.balance src) - value amount) ->
  exactly (Dec.add (L9.balance dst) amount) (value (L9.balance dst) + value amount) ->
  exists bank', L9.transfer from_id to_id amount bank = (Ok tt, bank') /\
    Ledger.moves (L9.balances bank) (L9.balances bank') from_id to_id amount.
Proof.
  intros Hne Hs Hd Hpos Hsuf (b1 & Hb1 & Hv1) (b2 & Hb2 & Hv2).
  eexists. split.
  - eapply L9_transfer_run; eauto.
    + now apply le_zero_false_pos.
    + now apply lt_false_value.
  - unfold L9.balances. rewrite !fmap_insert. simpl.
    apply (moves_two_updates _ _ _ _ (L9.balance src) (L9.balance dst));
      auto; rewrite lookup_fmap.
    + now rewrite Hs.
    + now rewrite Hd.
Qed.

Lemma L10_transfer_moves (bank : gmap Z L10.Account) from_id to_id amount src dst :
  from_id <> to_id ->
  (bank !! from_id) = Some src -> (bank !! to_id) = Some dst ->
  (0 < value amount)%Q ->
  (- value (L10.overdraft_limit src) <= value (L10.balance src) - value amount)%Q ->
  exactly (Dec.neg (L10.overdraft_limit src)) (- value (L10.overdraft_limit src)) ->
  exactly (Dec.sub (L10.balance src) amount) (value (L10.balance src) - value amount) ->
  exactly (Dec.add (L10.balance dst) amount) (value (L10.balance dst) + value amount) ->
  exists bank', L10.transfer from_id to_id amount bank = (Ok tt, bank') /\
    Ledger.moves (L10.balances bank) (L10.balances bank') from_id to_id amount.
Proof.
  intros Hne Hs Hd Hpos Hsuf (fl & Hfl & Hv0) (b1 & Hb1 & Hv1) (b2 & Hb2 & Hv2).
  eexists. split.
  - eapply L10_transfer_run; eauto.
    + now apply le_zero_false_pos.
    + apply lt_false_value. now rewrite Hv0, Hv1.
  - unfold L10.balances. rewrite !fmap_insert. simpl.
    apply (moves_two_updates _ _ _ _ (L10.balance src) (L10.balance dst));
      auto; rewrite lookup_fmap.
    + now rewrite Hs.
    + now rewrite Hd.
Qed.

(** C1 (amended).  Between two distinct existing accounts, for a positive
    amount covered by the source's funds (balance >= amount in lesson 9,
    balance - amount >= -overdraft_limit in lesson 10), and provided the
    decimal context computes the debit and the credit (and, in lesson 10,
    the negated overdraft limit) exactly, without rounding to its 28
    significant digits and without overflow, transfer returns normally,
    the source balance has decreased by exactly the amount, the
    destination balance has increased by exactly the amount, and every
    other balance is unchanged. *)
Theorem transfer_moves_exact_amount :
  (forall (bank : gmap Z L9.Account) from_id to_id amount src dst,
      from_id <> to_id ->
      (bank !! from_id) = Some src -> (bank !! to_id) = Some dst ->
      (0 < value amount)%Q ->
      (value amount <= value (L9.balance src))%Q ->
      exactly (Dec.sub (L9.balance src) amount)
              (value (L9.balance src) - value amount) ->
      exactly (Dec.add (L9.balance dst) amount)
              (value (L9.balance dst) + value amount) ->
      exists bank', L9.transfer from_id to_id amount bank = (Ok tt, bank') /\
        Ledger.moves (L9.balances bank) (L9.balances bank') from_id to_id amount)
  /\
  (forall (bank : gmap Z L10.Account) from_id to_id amount src dst,
      from_id <> to_id ->
      (bank !! from_id) = Some src -> (bank !! to_id) = Some dst ->
      (0 < value amount)%Q ->
      (- value (L10.overdraft_limit src)
         <= value (L10.balance src) - value amount)%Q ->
      exactly (Dec.neg (L10.overdraft_limit src))
              (- value (L10.overdraft_limit src)) ->
      exactly (Dec.sub (L10.balance src) amount)
              (value (L10.balance src) - value amount) ->
      exactly (Dec.add (L10.balance dst) amount)
              (value (L10.balance dst) + value amount) ->
      exists bank', L10.transfer from_id to_id amount bank = (Ok tt, bank') /\
        Ledger.moves (L10.balances bank) (L10.balances bank') from_id to_id amount).
Proof.
  split.
  - exact L9_transfer_moves.
  - exact L10_transfer_moves.
Qed.

Lemma transfer_moves_exact_amount_witness :
  (exists bank', L9.transfer 1 2 (Dec.of_Z 20) L9.doctest_bank = (Ok tt, bank') /\
     Ledger.moves (L9.balances L9.doctest_bank) (L9.balances bank') 1 2 (Dec.of_Z 20)) /\
  (exists bank', L10.transfer 1 2 (Dec.of_Z 40) L10.doctest_bank = (Ok tt, bank') /\
     Ledger.moves (L10.balances L10.doctest_bank) (L10.balances bank') 1 2 (Dec.of_Z 40)).
Proof.
  split.
  - apply (proj1 transfer_moves_exact_amount L9.doctest_bank 1 2 (Dec.of_Z 20)
             (L9.mkAccount 1 "Alice" (Dec.of_Z 100))
             (L9.mkAccount 2 "Bob" (Dec.of_Z 50)));
      first [ discriminate | vm_compute; reflexivity | vm_compute; discriminate
            | eexists; split; vm_compute; reflexivity ].
  - apply (proj2 transfer_moves_exact_amount L10.doctest_bank 1 2 (Dec.of_Z 40)
             (L10.mkAccount 1 "A" (Dec.of_Z 100) (Dec.of_Z 0))
             (L10.mkAccount 2 "B" (Dec.of_Z 0) (Dec.of_Z 0)));
      first [ discriminate | vm_compute; reflexivity | vm_compute; discriminate
            | eexists; split; vm_compute; reflexivity ].
Defined.

(** C1 fails as stated: with a source balance of Decimal("1E+29") the
    debit of 1 is rounded back to 1E+29 by the 28-digit context, so the
    transfer returns normally although the source balance has not
    decreased (in both lessons). *)
Lemma transfer_rounds_large_balance :
  ((0 < value (Dec.of_Z 1))%Q /\ (value (Dec.of_Z 1) <= value (mkDec 1 29))%Q /\
   exists bank', L9.transfer 1 2 (Dec.of_Z 1) L9.large_bank = (Ok tt, bank') /\
     ~ Ledger.moves (L9.balances L9.large_bank) (L9.balances bank') 1 2 (Dec.of_Z 1)) /\
  (exists bank', L10.transfer 1 2 (Dec.of_Z 1) L10.large_bank = (Ok tt, bank') /\
     ~ Ledger.moves (L10.balances L10.large_bank) (L10.balances bank') 1 2 (Dec.of_Z 1)).
Proof.
  split; [split; [reflexivity | split; [vm_compute; discriminate |] ] |].
  - eexists. split; [vm_compute; reflexivity |].
    intros [(s & s' & Hs & Hs' & Hv) _].
    vm_compute in Hs, Hs'. injection Hs as <-. injection Hs' as <-.
    vm_compute in Hv. discriminate.
  - eexists. split; [vm_compute; reflexivity |].
    intros [(s & s' & Hs & Hs' & Hv) _].
    vm_compute in Hs, Hs'. injection Hs as <-. injection Hs' as <-.
    vm_compute in Hv. discriminate.
Qed.

(** C3.  transfer requires a positive amount: for every amount <= 0 and
    any account ids, transfer raises ValueError and the bank is left
    exactly as it was (both lessons). *)
Theorem transfer_rejects_nonpositive_amount (from_id to_id : Z) (amount : Decimal) :
  (value amount <= 0)%Q ->
  (forall bank : gmap Z L9.Account,
      L9.transfer from_id to_id amount bank = (Raise ValueError, bank)) /\
  (forall bank : gmap Z L10.Account,
      L10.transfer from_id to_id amount bank = (Raise ValueError, bank)).
Proof.
  intros Hle.
  assert (H : Dec.le amount Dec.zero = true).
  { apply le_value. now rewrite value_zero. }
  split; intros bank.
  - unfold L9.transfer. now rewrite H.
  - unfold L10.transfer. now rewrite H.
Qed.

Lemma transfer_rejects_nonpositive_amount_witness :
  (forall bank : gmap Z L9.Account,
      L9.transfer 1 2 (Dec.of_Z (-5)) bank = (Raise ValueError, bank)) /\
  (forall bank : gmap Z L10.Account,
      L10.transfer 1 2 (Dec.of_Z (-5)) bank = (Raise ValueError, bank)).
Proof.
  apply (transfer_rejects_nonpositive_amount 1 2 (Dec.of_Z (-5))).
  vm_compute. discriminate.
Defined.

(** C4 (amended).  For an account id that is not in the bank: in lesson 9
    get_account, deposit, withdraw and get_balance raise
    AccountNotFoundError, a subclass of KeyError, and so does transfer
    with a positive amount when either id is the missing one; in lesson 10
    get, deposit, withdraw and transfer (positive amount) raise
    AccountNotFoundError, which derives from BankError and Exception but
    not from KeyError.  The bank is unchanged in every case. *)
Theorem missing_account_raises_not_found :
  (forall (bank : gmap Z L9.Account) (id : Z),
      (bank !! id) = None ->
      issubclass L9.AccountNotFoundError KeyError = true /\
      L9.get_account id bank = (Raise L9.AccountNotFoundError, bank) /\
      (forall amount, L9.deposit id amount bank = (Raise L9.AccountNotFoundError, bank)) /\
      (forall amount, L9.withdraw id amount bank = (Raise L9.AccountNotFoundError, bank)) /\
      L9.get_balance id bank = (Raise L9.AccountNotFoundError, bank) /\
      (forall other amount, (0 < value amount)%Q ->
          L9.transfer id other amount bank = (Raise L9.AccountNotFoundError, bank) /\
          L9.transfer other id amount bank = (Raise L9.AccountNotFoundError, bank)))
  /\
  (forall (bank : gmap Z L10.Account) (id : Z),
      (bank !! id) = None ->
      issubclass L10.AccountNotFoundError KeyError = false /\
      issubclass L10.AccountNotFoundError L10.BankError = true /\
      L10.get id bank = (Raise L10.AccountNotFoundError, bank) /\
      (forall amount, L10.deposit id amount bank = (Raise L10.AccountNotFoundError, bank)) /\
      (forall amount, L10.withdraw id amount bank = (Raise L10.AccountNotFoundError, bank)) /\
      (forall other amount, (0 < value amount)%Q ->
          L10.transfer id other amount bank = (Raise L10.AccountNotFoundError, bank) /\
          L10.transfer other id amount bank = (Raise L10.AccountNotFoundError, bank))).
Proof.
  split; intros bank id Hid.
  - assert (Hg : L9.get_account id bank = (Raise L9.AccountNotFoundError, bank)).
    { unfold L9.get_account. now rewrite Hid. }
    repeat split; try reflexivity; try exact Hg.
    + intros amount. unfold L9.deposit. unfold mbind, M_bind, bind. now rewrite Hg.
    + intros amount. unfold L9.withdraw. unfold mbind, M_bind, bind. now rewrite Hg.
    + unfold L9.get_balance. now rewrite Hg.
    + apply le_zero_false_pos in H. unfold L9.transfer. rewrite H. unfold mbind, M_bind, bind.
      now rewrite Hg.
    + apply le_zero_false_pos in H. unfold L9.transfer. rewrite H. unfold mbind, M_bind, bind.
      unfold L9.get_account.
      destruct (bank !! other); [rewrite Hid|]; reflexivity.
  - assert (Hg : L10.get id bank = (Raise L10.AccountNotFoundError, bank)).
    { unfold L10.get. now rewrite Hid. }
    repeat split; try reflexivity; try exact Hg.
    + intros amount. unfold L10.deposit. unfold mbind, M_bind, bind. now rewrite Hg.
    + intros amount. unfold L10.withdraw. unfold mbind, M_bind, bind. now rewrite Hg.
    + apply le_zero_false_pos in H. unfold L10.transfer. rewrite H. unfold mbind, M_bind, bind.
      now rewrite Hg.
    + apply le_zero_false_pos in H. unfold L10.transfer. rewrite H. unfold mbind, M_bind, bind.
      unfold L10.get.
      destruct (bank !! other); [rewrite Hid|]; reflexivity.
Qed.

Lemma missing_account_raises_not_found_witness :
  issubclass L9.AccountNotFoundError KeyError = true /\
  L9.get_balance 7 L9.doctest_bank = (Raise L9.AccountNotFoundError, L9.doctest_bank) /\
  issubclass L10.AccountNotFoundError KeyError = false /\
  L10.get 7 L10.doctest_bank = (Raise L10.AccountNotFoundError, L10.doctest_bank).
Proof.
  destruct (proj1 missing_account_raises_not_found L9.doctest_bank 7)
    as (H1 & _ & _ & _ & H2 & _); [vm_compute; reflexivity|].
  destruct (proj2 missing_account_raises_not_found L10.doctest_bank 7)
    as (H3 & _ & H4 & _); [vm_compute; reflexivity|].
  exact (conj H1 (conj H2 (conj H3 H4))).
Defined.

(** C4 fails as stated: the lookup error of lesson 10 is not a KeyError,
    and a transfer of a non-positive amount on a missing account raises
    ValueError, which is not a KeyError either. *)
Lemma missing_account_not_always_keyerror :
  (exists e, fst (L10.get 1 (∅ : gmap Z L10.Account)) = Raise e /\
             issubclass e KeyError = false) /\
  (exists e, fst (L10.transfer 1 2 (Dec.of_Z 5) (∅ : gmap Z L10.Account)) = Raise e /\
             issubclass e KeyError = false) /\
  (exists e, fst (L9.transfer 1 2 (Dec.of_Z 0) (∅ : gmap Z L9.Account)) = Raise e /\
             issubclass e KeyError = false).
Proof.
  repeat split; eexists; split; vm_compute; reflexivity.
Qed.

(** *** Rollback *)


Lemma L10_credit_failure_rolls_back (bank : gmap Z L10.Account) from_id to_id amount
    src b1 dst1 e :
  (bank !! from_id) = Some src ->
  L10.Account_withdraw src amount = Ok (L10.set_balance src b1) ->
  (L10.debited bank from_id src b1 !! to_id) = Some dst1 ->
  L10.Account_deposit dst1 amount = Raise e ->
  L10.transfer from_id to_id amount bank = (Raise RuntimeError, bank).
Proof.
  intros Hs Hw Hd1 Hdep.
  destruct (L10_transfer_cases bank from_id to_id amount)
    as [(e0 & H0 & Hne) | (src' & b1' & dst1' & Hs' & Hpos & Hsub & Hd1' & Hcase)].
  - (* the call cannot have stopped before the credit *)
    exfalso. revert H0 Hne. unfold L10.transfer.
    unfold L10.Account_withdraw in Hw.
    destruct (Dec.le amount Dec.zero) eqn:Hpos; [discriminate|].
    run_M. unfold L10.get. rewrite Hs.
    assert (Hd : exists dst, (bank !! to_id) = Some dst).
    { unfold L10.debited in Hd1. destruct (decide (from_id = to_id)) as [<-|Hne].
      - eauto.
      - rewrite lookup_insert_ne in Hd1 by exact Hne. eauto. }
    destruct Hd as [dst Hd]. rewrite Hd.
    unfold L10.read_balance. rewrite Hs.
    unfold L10.call at 1. rewrite Hs.
    unfold L10.Account_withdraw. rewrite Hpos.
    destruct (Dec.sub (L10.balance src) amount) as [b|?]; [|discriminate].
    destruct (Dec.neg (L10.overdraft_limit src)) as [fl|?]; [|discriminate].
    destruct (Dec.lt b fl); [discriminate|].
    injection Hw as Hb. destruct src; simpl in *; subst b.
    unfold L10.debited in Hd1. unfold L10.set_balance at 1. simpl.
    unfold L10.call at 1. unfold L10.set_balance in Hd1. simpl in Hd1.
    rewrite Hd1, Hdep.
    unfold L10.Account_deposit in Hdep. rewrite Hpos in Hdep.
    destruct (Dec.add (L10.balance dst1) amount) eqn:Hadd; [discriminate|].
    injection Hdep as <-. pose proof (fix_raises_overflow _ _ Hadd) as ->. simpl.
    unfold L10.assign_balance, L10.call. rewrite lookup_insert_eq. simpl.
    intros [= <- _] Hne. now apply Hne.
  - destruct Hcase as [(b2 & Hadd & H0) | (e0 & _ & H0)]; [|exact H0].
    exfalso.
    rewrite Hs in Hs'. injection Hs' as <-.
    unfold L10.Account_withdraw in Hw. rewrite Hpos, Hsub in Hw.
    destruct (Dec.neg (L10.overdraft_limit src)) as [fl|?]; [|discriminate].
    destruct (Dec.lt b1' fl); [discriminate|].
    injection Hw as Hb. destruct src; simpl in *; subst b1'.
    unfold L10.debited in Hd1. rewrite Hd1 in Hd1'. injection Hd1' as <-.
    unfold L10.Account_deposit in Hdep. rewrite Hpos, Hadd in Hdep. discriminate.
Qed.

(** Comparisons with zero, without computing a power of ten. *)
Lemma value_pos (a : Decimal) : 0 < coeff a -> (0 < value a)%Q.
Proof.
  intros H. unfold value. apply Qmult_lt_0_compat; [|apply ten_pow_Q_pos].
  change 0%Q with (inject_Z 0). now rewrite <- Zlt_Qlt.
Qed.

Lemma value_nonneg (a : Decimal) : 0 <= coeff a -> (0 <= value a)%Q.
Proof.
  intros H. unfold value. apply Qmult_le_0_compat.
  - change 0%Q with (inject_Z 0). now rewrite <- Zle_Qle.
  - apply Qlt_le_weak, ten_pow_Q_pos.
Qed.

Lemma positive_coeff_not_le_zero (a : Decimal) :
  0 < coeff a -> Dec.le a Dec.zero = false.
Proof. intros H. apply le_zero_false_pos. now apply value_pos. Qed.

Lemma nonneg_coeff_not_lt_zero (a : Decimal) (e : Z) :
  0 <= coeff a -> Dec.lt a (mkDec 0 e) = false.
Proof.
  intros H. apply lt_false_value. rewrite value_zero_coeff. now apply value_nonneg.
Qed.

(** Lesson 9, the two runs in which the credit fails. *)
Lemma L9_transfer_rollback_run (bank : gmap Z L9.Account)
    from_id to_id amount src dst b1 e b3 :
  from_id <> to_id ->
  (bank !! from_id) = Some src -> (bank !! to_id) = Some dst ->
  Dec.le amount Dec.zero = false ->
  Dec.lt (L9.balance src) amount = false ->
  Dec.sub (L9.balance src) amount = Ok b1 ->
  Dec.add (L9.balance dst) amount = Raise e ->
  Dec.add b1 amount = Ok b3 ->
  L9.transfer from_id to_id amount bank
  = (Raise RuntimeError, <[from_id := L9.set_balance src b3]> bank).
Proof.
  intros Hne Hs Hd Hpos Hsuf Hsub Hadd Hback.
  pose proof (fix_raises_overflow _ _ Hadd) as ->.
  unfold L9.transfer. rewrite Hpos. run_M.
  unfold L9.get_account. rewrite Hs, Hd.
  unfold L9.call at 1. rewrite Hs.
  unfold L9.Account_withdraw. rewrite Hpos, Hsuf, Hsub.
  unfold L9.call at 1. rewrite lookup_insert_ne by exact Hne. rewrite Hd.
  unfold L9.Account_deposit at 1. rewrite Hpos, Hadd.
  replace (issubclass Overflow Exception) with true by reflexivity.
  unfold L9.call. rewrite lookup_insert_eq.
  unfold L9.Account_deposit. rewrite Hpos. cbn [L9.balance L9.set_balance].
  rewrite Hback. cbn [L9.set_balance L9.account_id L9.owner].
  now rewrite insert_insert_eq.
Qed.

Lemma L9_transfer_rollback_raises_run (bank : gmap Z L9.Account)
    from_id to_id amount src dst b1 e e' :
  from_id <> to_id ->
  (bank !! from_id) = Some src -> (bank !! to_id) = Some dst ->
  Dec.le amount Dec.zero = false ->
  Dec.lt (L9.balance src) amount = false ->
  Dec.sub (L9.balance src) amount = Ok b1 ->
  Dec.add (L9.balance dst) amount = Raise e ->
  Dec.add b1 amount = Raise e' ->
  L9.transfer from_id to_id amount bank
  = (Raise e', <[from_id := L9.set_balance src b1]> bank).
Proof.
  intros Hne Hs Hd Hpos Hsuf Hsub Hadd Hback.
  pose proof (fix_raises_overflow _ _ Hadd) as ->.
  unfold L9.transfer. rewrite Hpos. run_M.
  unfold L9.get_account. rewrite Hs, Hd.
  unfold L9.call at 1. rewrite Hs.
  unfold L9.Account_withdraw. rewrite Hpos, Hsuf, Hsub.
  unfold L9.call at 1. rewrite lookup_insert_ne by exact Hne. rewrite Hd.
  unfold L9.Account_deposit at 1. rewrite Hpos, Hadd.
  replace (issubclass Overflow Exception) with true by reflexivity.
  unfold L9.call. rewrite lookup_insert_eq.
  unfold L9.Account_deposit. rewrite Hpos. cbn [L9.balance L9.set_balance].
  now rewrite Hback.
Qed.

Example L10_rollback_at_top_of_range :
  Dec.add (mkDec 9 999999) (mkDec 9 999999) = Raise Overflow /\
  L10.transfer 1 2 (mkDec 9 999999) L10.top_bank = (Raise RuntimeError, L10.top_bank).
Proof.
  split; [vm_compute; reflexivity|].
  assert (Hpos : Dec.le (mkDec 9 999999) Dec.zero = false)
    by (apply positive_coeff_not_le_zero; reflexivity).
  apply (L10_credit_failure_rolls_back L10.top_bank 1 2 (mkDec 9 999999)
           (L10.mkAccount 1 "A" (mkDec 90000000000000000000000000001 999971) (Dec.of_Z 0))
           (mkDec 1 999971)
           (L10.mkAccount 2 "B" (mkDec 9 999999) (Dec.of_Z 0)) Overflow).
  - vm_compute. reflexivity.
  - unfold L10.Account_withdraw. rewrite Hpos. cbn [L10.balance L10.overdraft_limit].
    replace (Dec.sub (mkDec 90000000000000000000000000001 999971) (mkDec 9 999999))
      with (Ok (mkDec 1 999971)) by (vm_compute; reflexivity).
    replace (Dec.neg (Dec.of_Z 0)) with (Ok (mkDec 0 0)) by (vm_compute; reflexivity).
    rewrite nonneg_coeff_not_lt_zero by (simpl; lia). reflexivity.
  - vm_compute. reflexivity.
  - unfold L10.Account_deposit. rewrite Hpos. vm_compute. reflexivity.
Qed.

(** C2 on lesson 9: the rollback re-deposits the amount instead of
    restoring the saved balance.  With Alice at
    Decimal("90000000000000000000000000001E+999971") and Bob at
    Decimal("9E+999999"), transferring Decimal("9E+999999") overflows the
    credit; the re-deposit rounds to 28 digits, so RuntimeError is raised
    with Alice's balance changed.  With Alice at
    Decimal("99999999999999999999999999995E+999971") the re-deposit itself
    overflows: decimal.Overflow escapes instead of RuntimeError and Alice
    stays debited. *)
Theorem L9_rollback_does_not_restore :
  Dec.add (mkDec 9 999999) (mkDec 9 999999) = Raise Overflow /\
  (exists bank' src',
      L9.transfer 1 2 (mkDec 9 999999) L9.top_bank = (Raise RuntimeError, bank') /\
      (bank' !! 1) = Some src' /\
      Dec.eqb (L9.balance src') (mkDec 90000000000000000000000000001 999971) = false) /\
  (exists bank' src',
      L9.transfer 1 2 (mkDec 9 999999) L9.top_bank' = (Raise Overflow, bank') /\
      issubclass Overflow RuntimeError = false /\
      (bank' !! 1) = Some src' /\
      Dec.eqb (L9.balance src') (mkDec 99999999999999999999999999995 999971) = false).
Proof.
  assert (Hpos : Dec.le (mkDec 9 999999) Dec.zero = false)
    by (apply positive_coeff_not_le_zero; reflexivity).
  split; [vm_compute; reflexivity|]. split.
  - do 2 eexists. split; [|split].
    + apply (L9_transfer_rollback_run L9.top_bank 1 2 (mkDec 9 999999)
               (L9.mkAccount 1 "Alice" (mkDec 90000000000000000000000000001 999971))
               (L9.mkAccount 2 "Bob" (mkDec 9 999999))
               (mkDec 1 999971) Overflow (mkDec 9000000000000000000000000000 999972));
        first [ exact Hpos | lia | vm_compute; reflexivity ].
    + vm_compute. reflexivity.
    + vm_compute. reflexivity.
  - do 2 eexists. split; [|split; [|split]].
    + apply (L9_transfer_rollback_raises_run L9.top_bank' 1 2 (mkDec 9 999999)
               (L9.mkAccount 1 "Alice" (mkDec 99999999999999999999999999995 999971))
               (L9.mkAccount 2 "Bob" (mkDec 9 999999))
               (mkDec 9999999999999999999999999995 999971) Overflow Overflow);
        first [ exact Hpos | lia | vm_compute; reflexivity ].
    + reflexivity.
    + vm_compute. reflexivity.
    + vm_compute. reflexivity.
Qed.

(** *** Conservation of the total *)

Lemma total_two_updates (m : gmap Z Decimal) from_id to_id (s d1 b1 b2 amount : Decimal) :
  (m !! from_id) = Some s ->
  (<[from_id := b1]> m !! to_id) = Some d1 ->
  (value b1 == value s - value amount)%Q ->
  (value b2 == value d1 + value amount)%Q ->
  (Ledger.total (<[to_id := b2]> (<[from_id := b1]> m)) == Ledger.total m)%Q.
Proof.
  intros Hs Hd H1 H2.
  rewrite (total_insert _ to_id d1 b2 Hd).
  rewrite (total_insert _ from_id s b1 Hs).
  rewrite H1, H2. ring.
Qed.

Lemma L9_transfer_conserves (bank : gmap Z L9.Account) from_id to_id amount :
  L9.debit_unrounded bank from_id amount ->
  L9.credit_exact bank from_id to_id amount ->
  (Ledger.total (L9.balances (snd (L9.transfer from_id to_id amount bank)))
   == Ledger.total (L9.balances bank))%Q.
Proof.
  intros Hdeb Hcred.
  destruct (L9_transfer_cases bank from_id to_id amount)
    as [(e0 & H0) | (src & b1 & dst1 & Hs & Hpos & Hsuf & Hsub & Hd1 & Hcase)].
  - rewrite H0. reflexivity.
  - destruct (Hcred src dst1 b1 Hs Hsub Hd1) as (b2 & Hadd & Hv2).
    destruct Hcase as [(b2' & Hadd' & H0) | (e & Hadd' & _)]; [|congruence].
    rewrite H0. simpl. rewrite Hadd in Hadd'. injection Hadd' as <-.
    unfold L9.balances. rewrite !fmap_insert. simpl.
    apply (total_two_updates _ _ _ (L9.balance src) (L9.balance dst1) _ _ amount).
    + now rewrite lookup_fmap, Hs.
    + rewrite <- (fmap_insert L9.balance bank from_id (L9.set_balance src b1)).
      now rewrite lookup_fmap, Hd1.
    + exact (Hdeb src Hs b1 Hsub).
    + exact Hv2.
Qed.

Lemma L10_transfer_conserves (bank : gmap Z L10.Account) from_id to_id amount :
  L10.debit_unrounded bank from_id amount ->
  L10.credit_unrounded bank from_id to_id amount ->
  (Ledger.total (L10.balances (snd (L10.transfer from_id to_id amount bank)))
   == Ledger.total (L10.balances bank))%Q.
Proof.
  intros Hdeb Hcred.
  destruct (L10_transfer_cases bank from_id to_id amount)
    as [(e0 & H0 & _) | (src & b1 & dst1 & Hs & Hpos & Hsub & Hd1 & Hcase)].
  - rewrite H0. reflexivity.
  - destruct Hcase as [(b2 & Hadd & H0) | (e & _ & H0)];
      [|rewrite H0; reflexivity].
    rewrite H0. simpl.
    unfold L10.balances. rewrite !fmap_insert. simpl.
    apply (total_two_updates _ _ _ (L10.balance src) (L10.balance dst1) _ _ amount).
    + now rewrite lookup_fmap, Hs.
    + rewrite <- (fmap_insert L10.balance bank from_id (L10.set_balance src b1)).
      now rewrite lookup_fmap, Hd1.
    + exact (Hdeb src Hs b1 Hsub).
    + exact (Hcred src dst1 b1 Hs Hsub Hd1 b2 Hadd).
Qed.

(** C10 (amended).  transfer conserves the exact sum of all balances for
    every call in which the decimal context computes the debit and the
    credit without rounding, whether the call returns normally or raises,
    the case from_id = to_id included.  In lesson 10 the credit may fail
    (the rollback path is covered); in lesson 9 the statement is for calls
    whose credit, if reached, does not fail. *)
Theorem transfer_conserves_total_when_exact :
  (forall (bank : gmap Z L9.Account) from_id to_id amount,
      L9.debit_unrounded bank from_id amount ->
      L9.credit_exact bank from_id to_id amount ->
      (Ledger.total (L9.balances (snd (L9.transfer from_id to_id amount bank)))
       == Ledger.total (L9.balances bank))%Q)
  /\
  (forall (bank : gmap Z L10.Account) from_id to_id amount,
      L10.debit_unrounded bank from_id amount ->
      L10.credit_unrounded bank from_id to_id amount ->
      (Ledger.total (L10.balances (snd (L10.transfer from_id to_id amount bank)))
       == Ledger.total (L10.balances bank))%Q).
Proof.
  split.
  - exact L9_transfer_conserves.
  - exact L10_transfer_conserves.
Qed.

Ltac at_input :=
  repeat match goal with
         | H : _ = Some _ |- _ => vm_compute in H; injection H as <-
         | H : _ = Ok _ |- _ => vm_compute in H; first [discriminate H | injection H as <-]
         end.

Lemma transfer_conserves_total_when_exact_witness :
  (Ledger.total (L9.balances (snd (L9.transfer 1 1 (Dec.of_Z 20) L9.doctest_bank)))
   == Ledger.total (L9.balances L9.doctest_bank))%Q /\
  (Ledger.total (L10.balances (snd (L10.transfer 1 2 (Dec.of_Z 40) L10.doctest_bank)))
   == Ledger.total (L10.balances L10.doctest_bank))%Q.
Proof.
  split.
  - apply (proj1 transfer_conserves_total_when_exact L9.doctest_bank 1 1 (Dec.of_Z 20)).
    + intros src H d Hd. at_input. vm_compute. reflexivity.
    + intros src dst1 b1 H1 H2 H3. at_input.
      eexists; split; vm_compute; reflexivity.
  - apply (proj2 transfer_conserves_total_when_exact L10.doctest_bank 1 2 (Dec.of_Z 40)).
    + intros src H d Hd. at_input. vm_compute. reflexivity.
    + intros src dst1 b1 H1 H2 H3 d Hd. at_input. vm_compute. reflexivity.
Defined.

(** C10 fails as stated: the transfer of 1 out of a balance of
    Decimal("1E+29") returns normally, leaves the source at 1E+29 and
    credits 1: the total has grown by 1 (both lessons). *)
Lemma transfer_rounding_creates_money :
  fst (L9.transfer 1 2 (Dec.of_Z 1) L9.large_bank) = Ok tt /\
  ~ (Ledger.total (L9.balances (snd (L9.transfer 1 2 (Dec.of_Z 1) L9.large_bank)))
     == Ledger.total (L9.balances L9.large_bank))%Q /\
  fst (L10.transfer 1 2 (Dec.of_Z 1) L10.large_bank) = Ok tt /\
  ~ (Ledger.total (L10.balances (snd (L10.transfer 1 2 (Dec.of_Z 1) L10.large_bank)))
     == Ledger.total (L10.balances L10.large_bank))%Q.
Proof.
  repeat split; try (vm_compute; reflexivity);
    intros H; vm_compute in H; discriminate.
Qed.

(** ** The search tree and its duplicate policy (lesson 9) *)

Section BSTFacts.

Import BST.

Lemma all_keys_spec (P : Z -> Prop) (n : BSTNode) :
  all_keys P n <-> (forall k, In k (inorder_from n) -> P k).
Proof.
  induction n as [|k l IHl r IHr c]; simpl.
  - split; [intros _ k [] | auto].
  - rewrite IHl, IHr. split.
    + intros (Hk & Hl & Hr) x Hx. apply in_app_or in Hx as [Hx|[<-|Hx]]; auto.
    + intros H. repeat split; intros; apply H; apply in_or_app; simpl; auto.
Qed.

(** On an ordered tree the descent finds exactly the keys of the traversal. *)
Lemma search_from_In (key : Z) (n : BSTNode) :
  ordered n -> (search_from key n = true <-> In key (inorder_from n)).
Proof.
  induction n as [|k l IHl r IHr c]; simpl.
  - intros _. split; [discriminate | intros []].
  - intros (Hl & Hr & Ol & Or).
    rewrite all_keys_spec in Hl, Hr.
    destruct (Z.eqb_spec key k) as [->|Hne].
    + split; [intros _; apply in_or_app; simpl; auto | reflexivity].
    + destruct (Z.ltb_spec key k) as [Hlt|Hge].
      * rewrite (IHl Ol). split.
        -- intros H. apply in_or_app. auto.
        -- intros H. apply in_app_or in H as [H|[H|H]]; [exact H | congruence |].
           specialize (Hr _ H). lia.
      * rewrite (IHr Or). split.
        -- intros H. apply in_or_app. simpl. auto.
        -- intros H. apply in_app_or in H as [H|[H|H]]; [| congruence | exact H].
           specialize (Hl _ H). lia.
Qed.

Lemma insert_from_ignore (key : Z) (n : BSTNode) :
  search_from key n = true -> insert_from "ignore" key n = Ok n.
Proof.
  induction n as [|k l IHl r IHr c]; simpl; [discriminate|].
  destruct (key =? k); [reflexivity|].
  destruct (key <? k); intros H.
  - now rewrite (IHl H).
  - now rewrite (IHr H).
Qed.

Lemma insert_from_error (key : Z) (n : BSTNode) :
  search_from key n = true -> insert_from "error" key n = Raise ValueError.
Proof.
  induction n as [|k l IHl r IHr c]; simpl; [discriminate|].
  destruct (key =? k); [reflexivity|].
  destruct (key <? k); intros H.
  - now rewrite (IHl H).
  - now rewrite (IHr H).
Qed.

Lemma map_bump_other (key : Z) (l : list (Z * Z)) :
  (forall e, In e l -> fst e <> key) -> map (bump key) l = l.
Proof.
  induction l as [|e l IH]; simpl; [reflexivity|].
  intros H. rewrite IH by auto. unfold bump.
  destruct (Z.eqb_spec (fst e) key) as [Heq|_]; [|reflexivity].
  exfalso. exact (H e (or_introl eq_refl) Heq).
Qed.

Lemma counts_keys (n : BSTNode) :
  map fst (inorder_with_counts_from n) = inorder_from n.
Proof.
  induction n as [|k l IHl r IHr c]; simpl; [reflexivity|].
  now rewrite map_app, IHl; simpl; rewrite IHr.
Qed.

Lemma counts_entry_key (n : BSTNode) (e : Z * Z) :
  In e (inorder_with_counts_from n) -> In (fst e) (inorder_from n).
Proof. intros H. rewrite <- counts_keys. now apply in_map. Qed.

Lemma insert_from_count (key : Z) (n : BSTNode) :
  search_from key n = true ->
  exists n', insert_from "count" key n = Ok n' /\
    inorder_from n' = inorder_from n /\
    (ordered n -> ordered n' /\
       inorder_with_counts_from n' = map (bump key) (inorder_with_counts_from n)).
Proof.
  induction n as [|k l IHl r IHr c]; simpl; [discriminate|].
  destruct (Z.eqb_spec key k) as [->|Hne].
  - intros _. eexists. split; [reflexivity|]. split; [reflexivity|].
    intros (Hl & Hr & Ol & Or). split; [simpl; auto|]. simpl.
    rewrite all_keys_spec in Hl, Hr.
    rewrite map_app. simpl. unfold bump at 2. simpl. rewrite Z.eqb_refl.
    rewrite (map_bump_other k (inorder_with_counts_from l)).
    2:{ intros e He Hk. apply counts_entry_key in He. rewrite Hk in He.
        specialize (Hl _ He). lia. }
    rewrite (map_bump_other k (inorder_with_counts_from r)).
    2:{ intros e He Hk. apply counts_entry_key in He. rewrite Hk in He.
        specialize (Hr _ He). lia. }
    reflexivity.
  - destruct (Z.ltb_spec key k) as [Hlt|Hge]; intros H.
    + destruct (IHl H) as (l' & -> & Hk & Hc). eexists. split; [reflexivity|].
      simpl. split; [now rewrite Hk|].
      intros (Hl & Hr & Ol & Or). destruct (Hc Ol) as (Ol' & Hc').
      split.
      * simpl. repeat split; auto.
        rewrite all_keys_spec in Hl |- *. now rewrite Hk.
      * rewrite Hc', map_app. simpl. f_equal. f_equal.
        -- unfold bump. simpl. destruct (Z.eqb_spec k key); [lia | reflexivity].
        -- symmetry. apply map_bump_other.
           rewrite all_keys_spec in Hr.
           intros e He Hk'. apply counts_entry_key in He. rewrite Hk' in He.
           specialize (Hr _ He). lia.
    + destruct (IHr H) as (r' & -> & Hk & Hc). eexists. split; [reflexivity|].
      simpl. split; [now rewrite Hk|].
      intros (Hl & Hr & Ol & Or). destruct (Hc Or) as (Or' & Hc').
      split.
      * simpl. repeat split; auto.
        rewrite all_keys_spec in Hr |- *. now rewrite Hk.
      * rewrite Hc', map_app. simpl. f_equal.
        -- symmetry. apply map_bump_other.
           rewrite all_keys_spec in Hl.
           intros e He Hk'. apply counts_entry_key in He. rewrite Hk' in He.
           specialize (Hl _ He). lia.
        -- f_equal. unfold bump. simpl.
           destruct (Z.eqb_spec k key); [lia | reflexivity].
Qed.

Lemma insert_from_absent (policy : string) (key : Z) (n : BSTNode) :
  search_from key n = false ->
  exists n', insert_from policy key n = Ok n' /\
    Permutation (inorder_with_counts_from n') ((key, 1) :: inorder_with_counts_from n) /\
    search_from key n' = true /\
    (ordered n -> ordered n').
Proof.
  induction n as [|k l IHl r IHr c]; simpl.
  - intros _. eexists. split; [reflexivity|]. simpl. rewrite Z.eqb_refl.
    split; [reflexivity|]. split; [reflexivity|]. intros _. simpl. auto.
  - destruct (Z.eqb_spec key k) as [->|Hne]; [discriminate|].
    destruct (Z.ltb_spec key k) as [Hlt|Hge]; intros H.
    + destruct (IHl H) as (l' & -> & Hp & Hs & Ho). eexists. split; [reflexivity|].
      simpl. destruct (Z.eqb_spec key k); [lia|].
      destruct (Z.ltb_spec key k); [|lia].
      split; [now rewrite Hp|]. split; [exact Hs|].
      intros (Hl & Hr & Ol & Or). repeat split; auto.
      rewrite all_keys_spec in Hl |- *. intros x Hx.
      rewrite <- counts_keys in Hx. apply in_map_iff in Hx as (e & <- & He).
      apply (Permutation_in _ Hp) in He as [<-|He]; [exact Hlt|].
      apply Hl. now apply counts_entry_key.
    + destruct (IHr H) as (r' & -> & Hp & Hs & Ho). eexists. split; [reflexivity|].
      simpl. destruct (Z.eqb_spec key k); [lia|].
      destruct (Z.ltb_spec key k); [lia|].
      split.
      { rewrite Hp. rewrite Permutation_middle. simpl.
        rewrite <- !Permutation_middle. apply perm_swap. }
      split; [exact Hs|].
      intros (Hl & Hr & Ol & Or). repeat split; auto.
      rewrite all_keys_spec in Hr |- *. intros x Hx.
      rewrite <- counts_keys in Hx. apply in_map_iff in Hx as (e & <- & He).
      apply (Permutation_in _ Hp) in He as [<-|He]; [simpl; lia|].
      apply Hr. now apply counts_entry_key.
Qed.

Lemma init_valid (policy : string) (t : BinarySearchTree) :
  init policy = Ok t ->
  root t = Nil /\
  (on_duplicate t = "ignore" \/ on_duplicate t = "error" \/ on_duplicate t = "count")%string.
Proof.
  unfold init.
  destruct (String.eqb_spec policy "ignore") as [->|_]; simpl.
  { intros [= <-]. auto. }
  destruct (String.eqb_spec policy "error") as [->|_]; simpl.
  { intros [= <-]. auto. }
  destruct (String.eqb_spec policy "count") as [->|_]; simpl.
  { intros [= <-]. auto. }
  discriminate.
Qed.

Lemma insert_from_ordered (policy : string) (key : Z) (n n' : BSTNode) :
  ordered n -> insert_from policy key n = Ok n' -> ordered n'.
Proof.
  intros Ho Hi.
  destruct (search_from key n) eqn:Hs.
  - revert n' Ho Hi. induction n as [|k l IHl r IHr c]; simpl in *; [discriminate|].
    intros n' (Hl & Hr & Ol & Or).
    destruct (Z.eqb_spec key k) as [->|Hne].
    + destruct (String.eqb policy "ignore"); [intros [= <-]; simpl; auto|].
      destruct (String.eqb policy "error"); [discriminate|].
      intros [= <-]. simpl. auto.
    + destruct (Z.ltb_spec key k) as [Hlt|Hge].
      * destruct (insert_from policy key l) as [l'|] eqn:Hl'; [|discriminate].
        intros [= <-]. simpl. repeat split; auto.
        rewrite all_keys_spec in Hl |- *. intros x Hx. apply Hl.
        rewrite <- (search_from_In x l Ol).
        rewrite <- (search_from_In x l' (IHl Hs l' Ol eq_refl)) in Hx.
        clear - Hx Hl' Hs.
        revert l' Hl' Hx. induction l as [|k1 l1 IH1 r1 IH2 c1]; simpl in *;
          [discriminate|].
        intros l'. destruct (Z.eqb_spec key k1) as [->|Hn1].
        -- destruct (String.eqb policy "ignore"); [intros [= <-]; simpl; auto|].
           destruct (String.eqb policy "error"); [discriminate|].
           intros [= <-]. simpl. auto.
        -- destruct (key <? k1).
           ++ destruct (insert_from policy key l1) eqn:E; [|discriminate].
              intros [= <-]. simpl. destruct (x =? k1); [auto|].
              destruct (x <? k1); eauto.
           ++ destruct (insert_from policy key r1) eqn:E; [|discriminate].
              intros [= <-]. simpl. destruct (x =? k1); [auto|].
              destruct (x <? k1); eauto.
      * destruct (insert_from policy key r) as [r'|] eqn:Hr'; [|discriminate].
        intros [= <-]. simpl. repeat split; auto.
        rewrite all_keys_spec in Hr |- *. intros x Hx. apply Hr.
        rewrite <- (search_from_In x r Or).
        rewrite <- (search_from_In x r' (IHr Hs r' Or eq_refl)) in Hx.
        clear - Hx Hr' Hs.
        revert r' Hr' Hx. induction r as [|k1 l1 IH1 r1 IH2 c1]; simpl in *;
          [discriminate|].
        intros r'. destruct (Z.eqb_spec key k1) as [->|Hn1].
        -- destruct (String.eqb policy "ignore"); [intros [= <-]; simpl; auto|].
           destruct (String.eqb policy "error"); [discriminate|].
           intros [= <-]. simpl. auto.
        -- destruct (key <? k1).
           ++ destruct (insert_from policy key l1) eqn:E; [|discriminate].
              intros [= <-]. simpl. destruct (x =? k1); [auto|].
              destruct (x <? k1); eauto.
           ++ destruct (insert_from policy key r1) eqn:E; [|discriminate].
              intros [= <-]. simpl. destruct (x =? k1); [auto|].
              destruct (x <? k1); eauto.
  - destruct (insert_from_absent policy key n Hs) as (m & Hm & _ & _ & Hord).
    rewrite Hm in Hi. injection Hi as <-. auto.
Qed.

(** Every tree the class can build is ordered and carries one of the
    three policies. *)
Lemma built_ordered (t : BinarySearchTree) :
  built t ->
  ordered (root t) /\
  (on_duplicate t = "ignore" \/ on_duplicate t = "error" \/ on_duplicate t = "count")%string.
Proof.
  induction 1 as [policy t Hinit | key t t' _ [IHo IHp] Hins].
  - destruct (init_valid _ _ Hinit) as [-> Hp]. simpl. auto.
  - unfold insert in Hins.
    destruct (insert_from (on_duplicate t) key (root t)) as [n|] eqn:Hn;
      [|discriminate].
    injection Hins as <-. simpl. split; [|exact IHp].
    eapply insert_from_ordered; eauto.
Qed.

End BSTFacts.

(** C5.  On a search tree (ordered, as every tree the class builds is) and
    a key already present: under "ignore" insert returns and leaves the
    tree unchanged; under "error" it raises ValueError and leaves the tree
    unchanged; under "count" it returns, the keys are unchanged and the
    count stored with that key, and only that one, is incremented by one.
    For a key not present insert returns under every policy and adds the
    key with count 1, keeping everything else. *)
Theorem insert_follows_duplicate_policy (t : BST.BinarySearchTree) (key : Z) :
  BST.ordered (BST.root t) ->
  (In key (BST.inorder t) ->
     (BST.on_duplicate t = "ignore"%string -> BST.insert key t = (Ok tt, t)) /\
     (BST.on_duplicate t = "error"%string ->
        BST.insert key t = (Raise ValueError, t)) /\
     (BST.on_duplicate t = "count"%string ->
        exists t', BST.insert key t = (Ok tt, t') /\
          BST.on_duplicate t' = BST.on_duplicate t /\
          BST.inorder t' = BST.inorder t /\
          BST.inorder_with_counts t' =
            map (BST.bump key) (BST.inorder_with_counts t))) /\
  (~ In key (BST.inorder t) ->
     exists t', BST.insert key t = (Ok tt, t') /\
       BST.on_duplicate t' = BST.on_duplicate t /\
       BST.search t' key = true /\
       Permutation (BST.inorder t') (key :: BST.inorder t) /\
       Permutation (BST.inorder_with_counts t')
                   ((key, 1) :: BST.inorder_with_counts t) /\
       BST.ordered (BST.root t')).
Proof.
  intros Ho. destruct t as [n policy]. unfold BST.inorder, BST.insert,
    BST.inorder_with_counts, BST.search. simpl in *.
  split.
  - intros Hin. apply (search_from_In key n Ho) in Hin.
    split; [|split]; intros ->.
    + now rewrite insert_from_ignore.
    + now rewrite insert_from_error.
    + destruct (insert_from_count key n Hin) as (n' & -> & Hk & Hc).
      destruct (Hc Ho) as [_ Hc']. eexists. split; [reflexivity|]. simpl. auto.
  - intros Hnot.
    assert (Hs : BST.search_from key n = false).
    { apply not_true_iff_false. now rewrite (search_from_In key n Ho). }
    destruct (insert_from_absent policy key n Hs) as (n' & -> & Hp & Hs' & Hord).
    eexists. split; [reflexivity|]. simpl.
    repeat split; auto.
    rewrite <- !counts_keys.
    change (key :: map fst (BST.inorder_with_counts_from n))
      with (map fst ((key, 1) :: BST.inorder_with_counts_from n)).
    now apply Permutation_map.
Qed.

Lemma insert_follows_duplicate_policy_witness :
  (exists t', BST.insert 2 (BST.doctest_tree "count" [2; 2; 1]) = (Ok tt, t') /\
     BST.inorder t' = [1; 2] /\ BST.inorder_with_counts t' = [(1, 1); (2, 3)]) /\
  (exists t', BST.insert 4 (BST.doctest_tree "ignore" [5; 3; 7; 1]) = (Ok tt, t') /\
     BST.search t' 4 = true /\
     Permutation (BST.inorder t') (4 :: [1; 3; 5; 7])).
Proof.
  split.
  - destruct (insert_follows_duplicate_policy (BST.doctest_tree "count" [2; 2; 1]) 2)
      as [Hdup _]; [vm_compute; repeat split |].
    destruct Hdup as (_ & _ & Hc); [vm_compute; auto |].
    destruct (Hc eq_refl) as (t' & Hi & _ & Hk & Hcnt).
    exists t'. split; [exact Hi|]. split; [exact Hk | exact Hcnt].
  - destruct (insert_follows_duplicate_policy (BST.doctest_tree "ignore" [5; 3; 7; 1]) 4)
      as [_ Hnew]; [vm_compute; repeat split |].
    destruct Hnew as (t' & Hi & _ & Hs & Hp & _).
    { vm_compute. intros H; repeat destruct H as [H|H]; try discriminate H; exact H. }
    exists t'. split; [exact Hi|]. split; [exact Hs | exact Hp].
Defined.

(** ** Dates: clamped anniversaries (lesson 13) *)

Section DateFacts.

Import L13.

Lemma days_in_month_bounds (y m : Z) : 28 <= days_in_month y m <= 31.
Proof.
  unfold days_in_month.
  destruct (m =? 2); [destruct (is_leap y); lia|].
  destruct ((m =? 4) || (m =? 6) || (m =? 9) || (m =? 11)); lia.
Qed.

Lemma days_in_february (y : Z) : 28 <= days_in_month y 2 <= 29.
Proof. unfold days_in_month. simpl. destruct (is_leap y); lia. Qed.

Lemma date_new_ok (y m d : Z) :
  1 <= y <= 9999 -> 1 <= m <= 12 -> 1 <= d <= days_in_month y m ->
  date_new y m d = Ok (mkdate y m d).
Proof.
  intros Hy Hm Hd. unfold date_new.
  repeat match goal with
         | |- context [?a <=? ?b] =>
             destruct (Z.leb_spec a b); [simpl | lia]
         end.
  reflexivity.
Qed.

(** Outside December of 9999 the helper returns the length of the month. *)
Lemma last_day_of_month_ok (y m : Z) :
  1 <= y <= 9999 -> 1 <= m <= 12 -> ~ (y = 9999 /\ m = 12) ->
  last_day_of_month y m = Ok (days_in_month y m).
Proof.
  intros Hy Hm Hedge. unfold last_day_of_month.
  destruct (Z.eqb_spec m 12) as [->|Hne].
  - rewrite date_new_ok by (try lia; vm_compute; split; discriminate).
    unfold bind_result, minus_one_day. simpl.
    destruct (Z.ltb_spec 1 (y + 1)); [|lia]. reflexivity.
  - rewrite date_new_ok; try lia.
    2:{ pose proof (days_in_month_bounds y (m + 1)). lia. }
    unfold bind_result, minus_one_day. simpl.
    destruct (Z.ltb_spec 1 (m + 1)); [|lia]. simpl.
    now replace (m + 1 - 1) with m by lia.
Qed.

(** In December of 9999 it raises: it asks for January of the year 10000. *)
Lemma last_day_of_month_9999_12 : last_day_of_month 9999 12 = Raise ValueError.
Proof. reflexivity. Qed.

Lemma add_months_ok (d : date) (k : Z) :
  let y := year d + (month d - 1 + k) / 12 in
  let m := (month d - 1 + k) mod 12 + 1 in
  1 <= y <= 9999 -> ~ (y = 9999 /\ m = 12) -> 1 <= day d ->
  add_months d k = Ok (mkdate y m (Z.min (day d) (days_in_month y m))).
Proof.
  intros y m Hy Hedge Hd. unfold add_months. fold y m.
  assert (Hm : 1 <= m <= 12).
  { pose proof (Z.mod_pos_bound (month d - 1 + k) 12 eq_refl). subst m. lia. }
  rewrite last_day_of_month_ok by assumption. simpl.
  apply date_new_ok; try assumption.
  pose proof (days_in_month_bounds y m). lia.
Qed.

Ltac ldm := Z.div_mod_to_equations; lia.

Lemma date_lt_false (a b : date) :
  date_lt a b = false ->
  year b < year a \/
  (year b = year a /\ (month b < month a \/ (month b = month a /\ day b <= day a))).
Proof.
  unfold date_lt, pair_lt. simpl.
  destruct (Z.ltb_spec (year a) (year b)); simpl; [discriminate|].
  destruct (Z.eqb_spec (year a) (year b)); simpl; [|lia].
  destruct (Z.ltb_spec (month a) (month b)); simpl; [discriminate|].
  destruct (Z.eqb_spec (month a) (month b)); simpl; [|lia].
  destruct (Z.ltb_spec (day a) (day b)); simpl; [discriminate|]. lia.
Qed.






(** The model of [d - timedelta(days=1)] agrees with the ordinals. *)
Lemma minus_one_day_ordinal (d p : date) :
  valid_date d -> minus_one_day d = Ok p -> toordinal p = toordinal d - 1.
Proof.
  destruct d as [y m dd]. unfold valid_date, minus_one_day. simpl.
  intros (Hy & Hm & Hd).
  destruct (Z.ltb_spec 1 dd); [intros [= <-]; unfold toordinal; simpl; lia|].
  destruct (Z.ltb_spec 1 m).
  - intros [= <-]. unfold toordinal. simpl.
    assert (dd = 1) as -> by lia.
    assert (Hc : m = 2 \/ m = 3 \/ m = 4 \/ m = 5 \/ m = 6 \/ m = 7 \/ m = 8 \/
                 m = 9 \/ m = 10 \/ m = 11 \/ m = 12) by lia.
    unfold days_before_month, days_in_month.
    repeat destruct Hc as [->|Hc]; try subst m; simpl;
      destruct (is_leap y); simpl; lia.
  - destruct (Z.ltb_spec 1 y); [|discriminate].
    intros [= <-]. unfold toordinal. simpl.
    assert (m = 1) as -> by lia. assert (dd = 1) as -> by lia.
    unfold days_before_month, days_before_year, is_leap. simpl.
    destruct (Z.eqb_spec ((y - 1) mod 4) 0), (Z.eqb_spec ((y - 1) mod 100) 0),
      (Z.eqb_spec ((y - 1) mod 400) 0); simpl; ldm.
Qed.

End DateFacts.




(** The doctests of the lesson, and the age the code reports on a clamped
    birthday: 23 years and 365 days on 2023-02-28, but 24 years, 11 months
    and 30 days on 2025-02-28 (the year after a leap year). *)
Example calculate_age_doctests :
  L13.calculate_age (L13.mkdate 2020 1 1) (L13.mkdate 2000 6 15)
    (Some (L13.mkdate 2024 12 25)) = Ok (L13.mkAge 24 6 10 8959) /\
  L13.calculate_age (L13.mkdate 2020 1 1) (L13.mkdate 2000 2 29)
    (Some (L13.mkdate 2024 3 1)) = Ok (L13.mkAge 24 0 1 8767) /\
  L13.calculate_age (L13.mkdate 2020 1 1) (L13.mkdate 2000 2 29)
    (Some (L13.mkdate 2023 2 28)) = Ok (L13.mkAge 23 0 365 8400) /\
  L13.calculate_age (L13.mkdate 2020 1 1) (L13.mkdate 2000 2 29)
    (Some (L13.mkdate 2025 2 28)) = Ok (L13.mkAge 24 11 30 9131) /\
  L13.days_until_next_birthday (L13.mkdate 2020 1 1) (L13.mkdate 2000 12 25)
    (Some (L13.mkdate 2024 12 24)) = Ok 1.
Proof. repeat split; vm_compute; reflexivity. Qed.

(** ** Threaded primes (lesson 12) *)

Section PrimeFacts.

Import L12.

(** The trial loop ends within its fuel, and says [true] exactly when no
    candidate 6k-1 or 6k+1 up to the limit divides [n]. *)
Lemma trial_spec (fuel : nat) (n limit f : Z) :
  limit < f + 6 * Z.of_nat fuel ->
  exists b, trial fuel n limit f = Some b /\
    (b = true <->
     forall k, 0 <= k -> f + 6 * k <= limit ->
       n mod (f + 6 * k) <> 0 /\ n mod (f + 6 * k + 2) <> 0).
Proof.
  revert f. induction fuel as [|fuel IH]; intros f Hfuel.
  - exists true. simpl. destruct (Z.ltb_spec limit f); [|lia].
    split; [reflexivity|]. split; [|reflexivity]. intros _ k Hk Hle. lia.
  - cbn [trial]. destruct (Z.ltb_spec limit f) as [Hout|Hin].
    + exists true. split; [reflexivity|]. split; [|reflexivity].
      intros _ k Hk Hle. lia.
    + destruct ((n mod f =? 0) || (n mod (f + 2) =? 0)) eqn:Hdiv.
      * exists false. split; [reflexivity|]. split; [discriminate|].
        intros H. exfalso. destruct (H 0 ltac:(lia) ltac:(lia)) as [H1 H2].
        replace (f + 6 * 0) with f in * by lia.
        apply orb_true_iff in Hdiv as [Hd|Hd]; apply Z.eqb_eq in Hd; auto.
      * destruct (IH (f + 6) ltac:(lia)) as (b & -> & Hb).
        exists b. split; [reflexivity|]. rewrite Hb.
        apply orb_false_iff in Hdiv as [Hd1 Hd2].
        apply Z.eqb_neq in Hd1, Hd2.
        split.
        -- intros H k Hk Hle. destruct (Z.eq_dec k 0) as [->|Hk0].
           ++ now replace (f + 6 * 0) with f by lia.
           ++ specialize (H (k - 1) ltac:(lia) ltac:(lia)).
              now replace (f + 6 + 6 * (k - 1)) with (f + 6 * k) in H by lia.
        -- intros H k Hk Hle. specialize (H (k + 1) ltac:(lia) ltac:(lia)).
           now replace (f + 6 * (k + 1)) with (f + 6 + 6 * k) in H by lia.
Qed.

Lemma divide_mod_zero (d n : Z) : 0 < d -> (d | n) <-> n mod d = 0.
Proof. intros Hd. symmetry. apply Z.mod_divide. lia. Qed.

(** A proper divisor yields one that is at most the square root. *)
Lemma small_divisor (n d : Z) :
  1 < d < n -> (d | n) ->
  exists p, 1 < p /\ p * p <= n /\ (p | n).
Proof.
  intros Hd [q Hq].
  assert (Hq1 : 1 < q) by nia.
  destruct (Z.le_gt_cases d q).
  - exists d. repeat split; [lia | nia | now exists q].
  - exists q. repeat split; [lia | nia | exists d; lia].
Qed.

Lemma is_prime_run_total (n : Z) : is_prime_run n = Some (is_prime n).
Proof.
  unfold is_prime, is_prime_run.
  destruct (n <=? 1); [reflexivity|]. destruct (n <=? 3); [reflexivity|].
  destruct ((n mod 2 =? 0) || (n mod 3 =? 0)); [reflexivity|].
  destruct (trial_spec (Z.to_nat (Z.sqrt n)) n (Z.sqrt n) 5) as (b & -> & _);
    [|reflexivity].
  pose proof (Z.sqrt_nonneg n). lia.
Qed.

(** is_prime decides primality: trial division by 2, 3 and the numbers
    6k-1, 6k+1 up to isqrt(n) is sound and complete. *)
Lemma is_prime_correct (n : Z) : is_prime n = true <-> prime n.
Proof.
  unfold is_prime, is_prime_run, prime.
  destruct (Z.leb_spec n 1) as [H1|H1].
  { split; [discriminate | lia]. }
  destruct (Z.leb_spec n 3) as [H3|H3].
  { split; [|reflexivity]. intros _. split; [lia|].
    intros d Hd [q Hq]. assert (d = 2) by lia. subst d. lia. }
  destruct (Z.eqb_spec (n mod 2) 0) as [H2|H2]; simpl.
  { split; [discriminate|]. intros [_ H]. exfalso.
    apply (H 2); [lia|]. now apply divide_mod_zero. }
  destruct (Z.eqb_spec (n mod 3) 0) as [H3'|H3']; simpl.
  { split; [discriminate|]. intros [_ H]. exfalso.
    apply (H 3); [lia|]. now apply divide_mod_zero. }
  pose proof (Z.sqrt_spec n ltac:(lia)) as Hs. cbv zeta in Hs.
  pose proof (Z.sqrt_nonneg n) as Hs0.
  destruct (trial_spec (Z.to_nat (Z.sqrt n)) n (Z.sqrt n) 5 ltac:(lia))
    as (b & -> & Hb).
  rewrite Hb. clear Hb. split.
  - intros Htrial. split; [lia|]. intros d Hd Hdiv.
    destruct (small_divisor n d Hd Hdiv) as (p & Hp1 & Hpp & Hpn).
    assert (Hple : p <= Z.sqrt n) by (apply Z.sqrt_le_square; lia).
    assert (Hp2 : p mod 2 <> 0).
    { intros Hc. apply H2. apply divide_mod_zero; [lia|].
      apply Z.divide_trans with p; [|exact Hpn].
      apply divide_mod_zero; [lia | exact Hc]. }
    assert (Hp3 : p mod 3 <> 0).
    { intros Hc. apply H3'. apply divide_mod_zero; [lia|].
      apply Z.divide_trans with p; [|exact Hpn].
      apply divide_mod_zero; [lia | exact Hc]. }
    apply divide_mod_zero in Hpn; [|lia].
    assert (Hcase : p mod 6 = 1 \/ p mod 6 = 5).
    { clear - Hp2 Hp3. Z.div_mod_to_equations. lia. }
    destruct Hcase as [Hc|Hc].
    + (* p = 6k + 1 = (5 + 6(k-1)) + 2 *)
      assert (Hk : 0 <= p / 6 - 1).
      { clear - Hp1 Hc. Z.div_mod_to_equations. lia. }
      destruct (Htrial (p / 6 - 1) Hk) as [_ Hbad].
      { clear - Hple Hc. Z.div_mod_to_equations. lia. }
      apply Hbad.
      replace (5 + 6 * (p / 6 - 1) + 2) with p; [exact Hpn|].
      clear - Hc. Z.div_mod_to_equations. lia.
    + assert (Hk : 0 <= p / 6).
      { clear - Hp1. Z.div_mod_to_equations. lia. }
      destruct (Htrial (p / 6) Hk) as [Hbad _].
      { clear - Hple Hc. Z.div_mod_to_equations. lia. }
      apply Hbad.
      replace (5 + 6 * (p / 6)) with p; [exact Hpn|].
      clear - Hc. Z.div_mod_to_equations. lia.
  - intros [_ Hprime] k Hk Hle.
    assert (Hbig : Z.sqrt n + 2 < n).
    { assert (5 * Z.sqrt n <= Z.sqrt n * Z.sqrt n) by (apply Z.mul_le_mono_nonneg_r; lia).
      lia. }
    split; intros Hc.
    + apply (Hprime (5 + 6 * k)); [lia|]. apply divide_mod_zero; [lia | exact Hc].
    + apply (Hprime (5 + 6 * k + 2)); [lia|]. apply divide_mod_zero; [lia | exact Hc].
Qed.

(** The chunks cut by the loop of split_range are consecutive: laid end
    to end they are one run starting at [start]. *)
Lemma chunks_concat (b r : Z) (count : nat) (i start : Z) :
  0 <= b ->
  concat (map (fun c => inclusive_range (fst c) (snd c)) (chunks b r count i start))
  = seqZ start (Z.of_nat count * b
                + Z.max 0 (Z.min (i + Z.of_nat count) r - i)).
Proof.
  intros Hb. revert i start. induction count as [|count IH]; intros i start.
  - simpl. rewrite seqZ_nil; [reflexivity | lia].
  - cbn [chunks map concat fst snd]. rewrite IH.
    unfold inclusive_range.
    set (size := b + (if i <? r then 1 else 0)).
    assert (Hsize : 0 <= size) by (unfold size; destruct (i <? r); lia).
    replace (start + size - 1 - start + 1) with size by lia.
    replace (start + size - 1 + 1) with (start + size) by lia.
    rewrite <- seqZ_app; [f_equal | lia | lia].
    unfold size. destruct (Z.ltb_spec i r); lia.
Qed.

Lemma chunks_nonempty (b r : Z) (count : nat) (i start : Z) :
  1 <= b -> Forall (fun c => fst c <= snd c) (chunks b r count i start).
Proof.
  intros Hb. revert i start. induction count as [|count IH]; intros i start;
    cbn [chunks]; constructor; [|apply IH].
  simpl. destruct (i <? r); lia.
Qed.

Lemma length_chunks (b r : Z) (count : nat) (i start : Z) :
  length (chunks b r count i start) = count.
Proof.
  revert i start. induction count as [|count IH]; intros i start; simpl;
    [reflexivity | now rewrite IH].
Qed.

(** split_range partitions [min lo hi .. max lo hi] into min(parts, n)
    consecutive, non-empty chunks that cover it exactly. *)
Lemma split_range_partition (lo hi parts : Z) :
  1 <= parts ->
  exists ranges,
    split_range lo hi parts = Ok ranges /\
    concat (map (fun c => inclusive_range (fst c) (snd c)) ranges)
    = inclusive_range (Z.min lo hi) (Z.max lo hi) /\
    Forall (fun c => fst c <= snd c) ranges /\
    Z.of_nat (length ranges) = Z.min parts (Z.max lo hi - Z.min lo hi + 1).
Proof.
  intros Hparts. unfold split_range.
  destruct (Z.leb_spec parts 0); [lia|].
  set (lo' := if hi <? lo then hi else lo).
  set (hi' := if hi <? lo then lo else hi).
  assert (Hlo : lo' = Z.min lo hi) by (unfold lo'; destruct (Z.ltb_spec hi lo); lia).
  assert (Hhi : hi' = Z.max lo hi) by (unfold hi'; destruct (Z.ltb_spec hi lo); lia).
  destruct (Z.ltb_spec hi' lo'); [lia|].
  rewrite <- Hlo, <- Hhi.
  set (n := hi' - lo' + 1). set (k := Z.min parts n).
  assert (Hn : 1 <= n) by (unfold n; lia).
  assert (Hk : 1 <= k <= n) by (unfold k; lia).
  eexists. split; [reflexivity|].
  assert (Hdiv : 1 <= n / k).
  { apply Z.div_le_lower_bound; lia. }
  pose proof (Z.mod_pos_bound n k ltac:(lia)) as Hmod.
  pose proof (Z.div_mod n k ltac:(lia)) as Hdm.
  split; [|split].
  - rewrite chunks_concat by lia. unfold inclusive_range. f_equal.
    rewrite Z2Nat.id by lia. fold n. lia.
  - apply chunks_nonempty. exact Hdiv.
  - rewrite length_chunks. rewrite Z2Nat.id by lia. reflexivity.
Qed.

Lemma concat_Permutation {A} (l1 l2 : list (list A)) :
  l1 ≡ₚ l2 -> concat l1 ≡ₚ concat l2.
Proof.
  induction 1 as [|x l l' _ IH|x y l|l l' l'' _ IH1 _ IH2]; simpl.
  - reflexivity.
  - now rewrite IH.
  - rewrite !app_assoc. f_equiv. apply Permutation_app_comm.
  - now rewrite IH1.
Qed.

Lemma concat_prime_worker (ranges : list (Z * Z)) :
  concat (map prime_worker ranges)
  = filter (fun n => is_prime n = true)
      (concat (map (fun c => inclusive_range (fst c) (snd c)) ranges)).
Proof.
  induction ranges as [|c ranges IH]; simpl; [reflexivity|].
  now rewrite filter_app, IH.
Qed.

Lemma seqZ_strictly_sorted (m : Z) (n : nat) :
  StronglySorted Z.lt (seqZ m (Z.of_nat n)).
Proof.
  revert m. induction n as [|n IH]; intros m.
  - simpl. constructor.
  - rewrite seqZ_cons by lia. constructor.
    + replace (Z.pred (Z.of_nat (S n))) with (Z.of_nat n) by lia. apply IH.
    + apply Forall_seqZ. lia.
Qed.

Lemma inclusive_range_sorted (a b : Z) : StronglySorted Z.lt (inclusive_range a b).
Proof.
  unfold inclusive_range. destruct (Z.le_gt_cases (b - a + 1) 0).
  - rewrite seqZ_nil by lia. constructor.
  - rewrite <- (Z2Nat.id (b - a + 1)) by lia. apply seqZ_strictly_sorted.
Qed.

Lemma filter_strictly_sorted (P : Z -> Prop) `{!forall x, Decision (P x)} (l : list Z) :
  StronglySorted Z.lt l -> StronglySorted Z.lt (filter P l).
Proof.
  induction 1 as [|x l Hs IH Hx]; [constructor|].
  rewrite filter_cons. destruct (decide (P x)); [|exact IH].
  constructor; [exact IH|].
  apply Forall_forall. intros y Hy.
  apply list_elem_of_filter in Hy as [_ Hy].
  rewrite Forall_forall in Hx. now apply Hx.
Qed.

Lemma strictly_sorted_le (l : list Z) : StronglySorted Z.lt l -> Sorted Z.le l.
Proof.
  intros H. apply StronglySorted_Sorted.
  induction H as [|x l Hs IH Hx]; constructor; [exact IH|].
  eapply Forall_impl; [exact Hx|]. simpl. intros; lia.
Qed.

End PrimeFacts.

(** C9.  For every lo, hi and threads >= 1, and whatever order the
    futures complete in, threaded_primes returns the ascending list of all
    primes of the inclusive range [min lo hi, max lo hi]; split_range cuts
    that range into consecutive, non-overlapping chunks that cover it; and
    is_prime terminates and answers True exactly for the numbers n > 1
    without a divisor strictly between 1 and n. *)
Theorem threaded_primes_correct
    (as_completed : list (list Z) -> list (list Z)) (lo hi threads : Z) :
  (forall futures, as_completed futures ≡ₚ futures) ->
  1 <= threads ->
  (forall n, L12.is_prime_run n = Some (L12.is_prime n) /\
             (L12.is_prime n = true <-> L12.prime n)) /\
  (exists ranges,
      L12.split_range lo hi threads = Ok ranges /\
      concat (map (fun c => L12.inclusive_range (fst c) (snd c)) ranges)
      = L12.inclusive_range (Z.min lo hi) (Z.max lo hi) /\
      Forall (fun c => fst c <= snd c) ranges) /\
  (exists primes,
      L12.threaded_primes as_completed lo hi threads = Ok primes /\
      primes = filter (fun n => L12.is_prime n = true)
                 (L12.inclusive_range (Z.min lo hi) (Z.max lo hi)) /\
      StronglySorted Z.lt primes /\
      (forall p, p ∈ primes <-> Z.min lo hi <= p <= Z.max lo hi /\ L12.prime p)).
Proof.
  intros Hperm Hthreads.
  split; [intros n; split; [apply is_prime_run_total | apply is_prime_correct]|].
  destruct (split_range_partition lo hi threads Hthreads)
    as (ranges & Hsplit & Hcat & Hne & _).
  split; [exists ranges; auto|].
  set (expected := filter (fun n => L12.is_prime n = true)
                     (L12.inclusive_range (Z.min lo hi) (Z.max lo hi))).
  assert (Hsorted : StronglySorted Z.lt expected).
  { apply filter_strictly_sorted, inclusive_range_sorted. }
  exists expected. split; [|split; [reflexivity | split; [exact Hsorted|]]].
  - unfold L12.threaded_primes. destruct (Z.leb_spec threads 0); [lia|].
    rewrite Hsplit. f_equal.
    apply (Sorted_unique Z.le).
    + apply Sorted_merge_sort. intros x y. lia.
    + now apply strictly_sorted_le.
    + rewrite merge_sort_Permutation.
      rewrite (concat_Permutation _ _ (Hperm _)).
      rewrite concat_prime_worker, Hcat. reflexivity.
  - intros p. unfold expected. rewrite list_elem_of_filter.
    unfold L12.inclusive_range. rewrite elem_of_seqZ, is_prime_correct.
    split; intros [H1 H2]; split; auto; lia.
Qed.

Lemma threaded_primes_correct_witness :
  exists primes,
    L12.threaded_primes (@rev (list Z)) 30 1 3 = Ok primes /\
    primes = [2; 3; 5; 7; 11; 13; 17; 19; 23; 29] /\
    (forall p, p ∈ primes <-> 1 <= p <= 30 /\ L12.prime p).
Proof.
  destruct (threaded_primes_correct (@rev (list Z)) 30 1 3) as (_ & _ & H).
  - intros futures. symmetry. apply Permutation_rev.
  - lia.
  - destruct H as (primes & Hrun & Heq & _ & Hmem).
    exists primes. split; [exact Hrun|]. split; [|exact Hmem].
    rewrite Heq. vm_compute. reflexivity.
Defined.

(** ** The threaded word counter (lesson 12) *)

Section CounterFacts.

Import L12.







Lemma occurrences_nonneg (w : string) (l : list string) : 0 <= occurrences w l.
Proof. induction l as [|x l IH]; simpl; [lia | destruct (decide (x = w)); lia]. Qed.














Lemma has_room_empty (maxsize : Z) : has_room maxsize [] = true.
Proof.
  unfold has_room. simpl. destruct (Z.leb_spec maxsize 0); simpl; [reflexivity|].
  apply Z.ltb_lt. lia.
Qed.


Lemma step_put_line tokenize maxsize line rest sl ws rs :
  step tokenize maxsize None (mkPool (line :: rest) sl [] ws rs)
  = Some (mkPool rest sl [Some line] ws rs).
Proof. unfold step. cbn [queue lines_left]. now rewrite has_room_empty. Qed.

Lemma step_put_sentinel tokenize maxsize n ws rs :
  step tokenize maxsize None (mkPool [] (S n) [] ws rs)
  = Some (mkPool [] n [None] ws rs).
Proof. unfold step. cbn [queue lines_left sentinels_left]. now rewrite has_room_empty. Qed.

Lemma step_take_line tokenize maxsize i line ll sl q ws rs local :
  (ws !! i) = Some (Running local) ->
  step tokenize maxsize (Some i) (mkPool ll sl (Some line :: q) ws rs)
  = Some (mkPool ll sl q (<[i := Running (update_words local (tokenize line))]> ws) rs).
Proof. intros H. unfold step. cbn [queue workers]. now rewrite H. Qed.

Lemma step_take_sentinel tokenize maxsize i ll sl q ws rs local :
  (ws !! i) = Some (Running local) ->
  step tokenize maxsize (Some i) (mkPool ll sl (None :: q) ws rs)
  = Some (mkPool ll sl q (<[i := Storing local]> ws) rs).
Proof. intros H. unfold step. cbn [queue workers]. now rewrite H. Qed.

Lemma step_store tokenize maxsize i ll sl q ws rs local :
  (ws !! i) = Some (Storing local) ->
  step tokenize maxsize (Some i) (mkPool ll sl q ws rs)
  = Some (mkPool ll sl q (<[i := Exited]> ws) (<[i := local]> rs)).
Proof. intros H. unfold step. cbn [queue workers]. now rewrite H. Qed.






End CounterFacts.



(** The doctest: a run in which the two workers take one line each. *)
Example threaded_word_count_doctest :
  exists s,
    L12.run L12.tokenize_to_words 10000
      [None; None; Some 0%nat; Some 1%nat; None; None;
       Some 1%nat; Some 0%nat; Some 0%nat; Some 1%nat]
      (L12.start ["One two TWO"; "Three two!"]%string 2) = Some s /\
    L12.queue s = [] /\ L12.workers s = [L12.Exited; L12.Exited] /\
    map_to_list (L12.merge (L12.results s))
      ≡ₚ [("one", 1); ("two", 3); ("three", 1)]%string.
Proof.
  eexists. split; [vm_compute; reflexivity|].
  split; [reflexivity|]. split; [reflexivity|].
  vm_compute. reflexivity.
Qed.

(** ** The Roster table (lesson 15) *)

Section RosterFacts.

Import L15.

Lemma next_rowid_fresh (seq : Z) (rows : list Row) :
  seq < next_rowid seq rows /\ Forall (fun r => row_id r < next_rowid seq rows) rows.
Proof.
  unfold next_rowid. induction rows as [|r rows [IH1 IH2]]; simpl.
  - split; [lia | constructor].
  - split; [lia|]. constructor; [lia|].
    eapply Forall_impl; [exact IH2|]. simpl. intros; lia.
Qed.

(** Validation does not look at the id. *)
Lemma valid_member_with_id (m : RosterMember) (i : Z) :
  valid_member m ->
  RosterMember_new (name m) (species m) (age m) (Some i)
  = Ok (mkMember (name m) (species m) (age m) (Some i)).
Proof.
  unfold valid_member, RosterMember_new.
  repeat match goal with
         | |- context [if ?b then _ else _] => destruct b; [discriminate|]
         end.
  reflexivity.
Qed.

Lemma map_result_readable (rows : list Row) :
  Forall readable rows ->
  exists ms, map_result from_row rows = Ok ms /\
    length ms = length rows /\
    forall r m, r ∈ rows -> from_row r = Ok m -> m ∈ ms.
Proof.
  induction 1 as [|r rows [m Hm] _ (ms & Hms & Hlen & Hin)]; simpl.
  - exists []. split; [reflexivity|]. split; [reflexivity|].
    intros r m Hr. inversion Hr.
  - rewrite Hm, Hms. exists (m :: ms). split; [reflexivity|].
    split; [simpl; now rewrite Hlen|].
    intros r' m' Hr' Hm'. apply elem_of_cons in Hr' as [->|Hr'].
    + rewrite Hm in Hm'. injection Hm' as <-. apply elem_of_cons. now left.
    + apply elem_of_cons. right. eauto.
Qed.

Lemma read_all_readable (db : RosterDatabase) (rows : list Row) :
  conn_open db = true -> roster db = Some rows -> Forall readable rows ->
  exists members, read_all db = (Ok members, db) /\
    length members = length rows /\
    forall r m, r ∈ rows -> from_row r = Ok m -> m ∈ members.
Proof.
  intros Hopen Hroster Hrows. unfold read_all. rewrite Hopen, Hroster.
  pose proof (merge_sort_Permutation name_le rows) as Hperm.
  destruct (map_result_readable (merge_sort name_le rows)) as (ms & -> & Hlen & Hin).
  { now rewrite Hperm. }
  exists ms. split; [reflexivity|]. split.
  - now rewrite Hlen, Hperm.
  - intros r m Hr. apply Hin. now rewrite Hperm.
Qed.

End RosterFacts.

(** C8.  On an open database whose Roster table exists and can be read,
    two create calls for records with equal names (and valid fields) both
    succeed, the two rows get distinct auto-assigned ids that no earlier
    row has, and read_all afterwards returns both records among the
    earlier ones. *)
Theorem duplicate_names_permitted
    (db : L15.RosterDatabase) (rows : list L15.Row) (m1 m2 : L15.RosterMember) :
  L15.conn_open db = true -> L15.roster db = Some rows ->
  Forall L15.readable rows ->
  L15.valid_member m1 -> L15.valid_member m2 -> L15.name m1 = L15.name m2 ->
  exists id1 id2 db1 db2 members,
    L15.create m1 db
      = (Ok (L15.mkMember (L15.name m1) (L15.species m1) (L15.age m1) (Some id1)), db1) /\
    L15.create m2 db1
      = (Ok (L15.mkMember (L15.name m2) (L15.species m2) (L15.age m2) (Some id2)), db2) /\
    id1 <> id2 /\
    Forall (fun r => L15.row_id r <> id1 /\ L15.row_id r <> id2) rows /\
    L15.read_all db2 = (Ok members, db2) /\
    L15.mkMember (L15.name m1) (L15.species m1) (L15.age m1) (Some id1) ∈ members /\
    L15.mkMember (L15.name m2) (L15.species m2) (L15.age m2) (Some id2) ∈ members /\
    length members = S (S (length rows)).
Proof.
  intros Hopen Hroster Hrows Hv1 Hv2 _.
  set (id1 := L15.next_rowid (L15.sequence db) rows).
  set (row1 := L15.mkRow id1 (L15.name m1) (L15.species m1) (L15.age m1)).
  set (id2 := L15.next_rowid id1 (rows ++ [row1])).
  set (row2 := L15.mkRow id2 (L15.name m2) (L15.species m2) (L15.age m2)).
  destruct (next_rowid_fresh (L15.sequence db) rows) as [_ Hfresh1].
  destruct (next_rowid_fresh id1 (rows ++ [row1])) as [Hlt Hfresh2].
  fold id1 in Hfresh1. fold id2 in Hlt, Hfresh2.
  set (db2 := L15.mkDB true (Some ((rows ++ [row1]) ++ [row2])) id2).
  destruct (read_all_readable db2 ((rows ++ [row1]) ++ [row2]) eq_refl eq_refl)
    as (members & Hread & Hlen & Hin).
  { rewrite !Forall_app. split; [split; [exact Hrows|]|].
    - constructor; [|constructor]. eexists. unfold L15.from_row. simpl.
      now apply valid_member_with_id.
    - constructor; [|constructor]. eexists. unfold L15.from_row. simpl.
      now apply valid_member_with_id. }
  exists id1, id2, (L15.mkDB true (Some (rows ++ [row1])) id1), db2, members.
  split; [|split; [|split; [|split; [|split; [|split; [|split]]]]]].
  - unfold L15.create. rewrite Hopen, Hroster. reflexivity.
  - reflexivity.
  - lia.
  - apply Forall_app in Hfresh2 as [Hfresh2 _].
    rewrite Forall_forall in Hfresh1, Hfresh2 |- *.
    intros r Hr. specialize (Hfresh1 r Hr). specialize (Hfresh2 r Hr). simpl in *. lia.
  - exact Hread.
  - apply (Hin row1).
    + set_solver.
    + unfold L15.from_row. simpl. now apply valid_member_with_id.
  - apply (Hin row2).
    + set_solver.
    + unfold L15.from_row. simpl. now apply valid_member_with_id.
  - rewrite Hlen, !length_app. simpl. lia.
Qed.

Lemma duplicate_names_permitted_witness :
  let spock := L15.mkMember "Spock" "Vulcan" 62 None in
  let db := snd (L15.create_table L15.connect) in
  exists id1 id2 db1 db2 members,
    L15.create spock db = (Ok (L15.mkMember "Spock" "Vulcan" 62 (Some id1)), db1) /\
    L15.create spock db1 = (Ok (L15.mkMember "Spock" "Vulcan" 62 (Some id2)), db2) /\
    id1 <> id2 /\
    Forall (fun r => L15.row_id r <> id1 /\ L15.row_id r <> id2) [] /\
    L15.read_all db2 = (Ok members, db2) /\
    L15.mkMember "Spock" "Vulcan" 62 (Some id1) ∈ members /\
    L15.mkMember "Spock" "Vulcan" 62 (Some id2) ∈ members /\
    length members = 2%nat.
Proof.
  intros spock db.
  apply (duplicate_names_permitted db [] spock spock);
    first [ reflexivity | constructor ].
Defined.

(** The rows a database gets through create_table and create (of valid
    records) stay readable, so the theorem applies to every database the
    class fills this way. *)
Lemma create_keeps_readable (db db' : L15.RosterDatabase) (m m' : L15.RosterMember)
    (rows : list L15.Row) :
  L15.roster db = Some rows -> Forall L15.readable rows -> L15.valid_member m ->
  L15.create m db = (Ok m', db') ->
  exists rows', L15.roster db' = Some rows' /\ Forall L15.readable rows' /\
                L15.conn_open db' = true.
Proof.
  intros Hroster Hrows Hv. unfold L15.create.
  destruct (L15.conn_open db); [|discriminate]. rewrite Hroster. simpl.
  intros [= <- <-]. eexists. split; [reflexivity|]. split; [|reflexivity].
  apply Forall_app. split; [exact Hrows|]. constructor; [|constructor].
  eexists. unfold L15.from_row. simpl. now apply valid_member_with_id.
Qed.

Example roster_doctest :
  let db := snd (L15.create_table L15.connect) in
  L15.roster db = Some [] /\
  fst (L15.create (L15.mkMember "Test" "Human" 30 None) db)
  = Ok (L15.mkMember "Test" "Human" 30 (Some 1)) /\
  fst (L15.create (L15.mkMember "Test" "Human" 30 None) L15.connect)
  = Raise L15.DatabaseError.
Proof. repeat split. Qed.

(** * Part III: further properties of the code *)

(** ** The banks: refusals, solvency, opening an account *)

Section BankMore.

Lemma value_neg (a : Decimal) : coeff a < 0 -> (value a < 0)%Q.
Proof.
  intros H.
  assert (Hp : (0 < value (copy_negate a))%Q) by (apply value_pos; simpl; lia).
  rewrite value_copy_negate in Hp.
  apply Qopp_lt_compat in Hp. rewrite Qopp_involutive in Hp. exact Hp.
Qed.

Lemma value_nonneg_inv (a : Decimal) : (0 <= value a)%Q -> 0 <= coeff a.
Proof.
  intros H. destruct (Z_lt_le_dec (coeff a) 0) as [Hn|Hn]; [|exact Hn].
  exfalso. exact (Qlt_not_le _ _ (value_neg a Hn) H).
Qed.

(** The context never turns a non-negative result into a negative one. *)
Lemma fix_nonneg (d d' : Decimal) :
  fix_ d = Ok d' -> 0 <= coeff d -> 0 <= coeff d'.
Proof.
  unfold fix_. intros H Hc.
  destruct (coeff d =? 0); [injection H as <-; cbn [coeff]; lia|].
  destruct (_ >? Etop); [discriminate|].
  destruct (dexp d <? _) eqn:Hlt; [|injection H as <-; exact Hc].
  apply Z.ltb_lt in Hlt. cbv zeta in H.
  match type of H with
  | (if ?b then _ else _) = _ => destruct b; [discriminate|]
  end.
  injection H as <-. cbn [coeff].
  apply Z.mul_nonneg_nonneg; [apply Z.sgn_nonneg; exact Hc|].
  assert (Hq : 0 <= Z.abs (coeff d) / 10 ^ (Z.max (ndigits (Z.abs (coeff d)) + dexp d - prec) Etiny - dexp d)).
  { apply Z.div_pos; [lia|]. apply Z.pow_pos_nonneg; lia. }
  repeat match goal with
         | |- context [if ?b then _ else _] => destruct b
         end;
    try apply Z.div_pos; lia.
Qed.

Lemma add_nonneg (a b r : Decimal) :
  Dec.add a b = Ok r -> (0 <= value a)%Q -> (0 <= value b)%Q -> (0 <= value r)%Q.
Proof.
  intros H Ha Hb. apply value_nonneg. apply (fix_nonneg _ _ H).
  apply value_nonneg_inv. rewrite value_exact_add.
  replace 0%Q with (0 + 0)%Q by reflexivity. now apply Qplus_le_compat.
Qed.

Lemma sub_nonneg (a b r : Decimal) :
  Dec.sub a b = Ok r -> Dec.lt a b = false -> (0 <= value r)%Q.
Proof.
  intros H Hlt. apply value_nonneg. apply (fix_nonneg _ _ H).
  apply value_nonneg_inv. rewrite value_exact_sub.
  apply lt_false_value in Hlt. unfold Qminus.
  rewrite <- (Qplus_opp_r (value b)). apply Qplus_le_compat; [exact Hlt | apply Qle_refl].
Qed.

Lemma solvent_insert (bank : gmap Z L9.Account) (id : Z) (acc : L9.Account) :
  L9.solvent bank -> (0 <= value (L9.balance acc))%Q ->
  L9.solvent (<[id := acc]> bank).
Proof.
  intros Hs Hacc k a. destruct (decide (k = id)) as [->|Hne].
  - rewrite lookup_insert_eq. intros [= <-]. exact Hacc.
  - rewrite lookup_insert_ne by congruence. apply Hs.
Qed.

Lemma L9_deposit_nonneg (a a' : L9.Account) (amount : Decimal) :
  L9.Account_deposit a amount = Ok a' ->
  (0 <= value (L9.balance a))%Q -> (0 <= value (L9.balance a'))%Q.
Proof.
  unfold L9.Account_deposit. intros H Ha.
  destruct (Dec.le amount Dec.zero) eqn:Hpos; [discriminate|].
  destruct (Dec.add (L9.balance a) amount) as [b|e] eqn:Hadd; [|discriminate].
  injection H as <-. simpl.
  apply (add_nonneg _ _ _ Hadd Ha).
  apply Qlt_le_weak. now apply le_zero_false_pos.
Qed.

Lemma L9_withdraw_nonneg (a a' : L9.Account) (amount : Decimal) :
  L9.Account_withdraw a amount = Ok a' -> (0 <= value (L9.balance a'))%Q.
Proof.
  unfold L9.Account_withdraw. intros H.
  destruct (Dec.le amount Dec.zero); [discriminate|].
  destruct (Dec.lt (L9.balance a) amount) eqn:Hlt; [discriminate|].
  destruct (Dec.sub (L9.balance a) amount) as [b|e] eqn:Hsub; [|discriminate].
  injection H as <-. simpl. exact (sub_nonneg _ _ _ Hsub Hlt).
Qed.

Lemma L9_call_solvent (bank : gmap Z L9.Account) (r : Z)
    (method : L9.Account -> result L9.Account) :
  L9.solvent bank ->
  (forall a a', (bank !! r) = Some a -> method a = Ok a' ->
                (0 <= value (L9.balance a'))%Q) ->
  L9.solvent (snd (L9.call r method bank)).
Proof.
  intros Hs Hm. unfold L9.call.
  destruct (bank !! r) as [a|] eqn:Ha; [|exact Hs].
  destruct (method a) as [a'|e] eqn:Hr; [|exact Hs].
  simpl. apply solvent_insert; [exact Hs | eapply Hm; eauto].
Qed.

End BankMore.



(** X2.  Lesson 9, Bank.transfer: a call that raises ValueError,
    AccountNotFoundError or InsufficientFundsError has refused the
    transfer before touching any account, so the bank is exactly as it
    was.  (Only the RuntimeError of the rollback path and a decimal
    Overflow can come with a changed bank.) *)
Theorem L9_transfer_refusal_changes_nothing (bank bank' : gmap Z L9.Account)
    (from_id to_id : Z) (amount : Decimal) (e : pyclass) :
  L9.transfer from_id to_id amount bank = (Raise e, bank') ->
  e = ValueError \/ e = L9.AccountNotFoundError \/ e = L9.InsufficientFundsError ->
  bank' = bank.
Proof.
  intros Hrun He.
  destruct (L9_transfer_cases bank from_id to_id amount)
    as [(e0 & H0) | (src & b1 & dst1 & _ & _ & _ & _ & _ &
                     [(b2 & _ & H0) | (e0 & _ & [(b3 & _ & H0) | (e' & Hback & H0)])])];
    rewrite H0 in Hrun.
  - congruence.
  - discriminate.
  - injection Hrun as <- _. exfalso. destruct He as [He | [He | He]]; discriminate He.
  - injection Hrun as <- _. rewrite (fix_raises_overflow _ _ Hback) in He.
    exfalso. destruct He as [He | [He | He]]; discriminate He.
Qed.

Lemma L9_transfer_refusal_changes_nothing_witness :
  L9.transfer 2 1 (Dec.of_Z 1000) L9.doctest_bank
  = (Raise L9.InsufficientFundsError, L9.doctest_bank) /\
  L9.doctest_bank = L9.doctest_bank.
Proof.
  assert (H : L9.transfer 2 1 (Dec.of_Z 1000) L9.doctest_bank
              = (Raise L9.InsufficientFundsError, L9.doctest_bank))
    by (vm_compute; reflexivity).
  split; [exact H|].
  apply (L9_transfer_refusal_changes_nothing _ _ 2 1 (Dec.of_Z 1000) _ H).
  right. right. reflexivity.
Defined.

(** X3.  Lesson 9: no operation of the bank can overdraw an account.  If
    every balance is non-negative, it still is after create_account,
    deposit, withdraw and transfer, whatever the arguments and whether
    the call returns or raises (rounding and the rollback included). *)
Theorem L9_balances_stay_nonnegative (bank : gmap Z L9.Account) :
  L9.solvent bank ->
  (forall id owner initial, L9.solvent (snd (L9.create_account id owner initial bank))) /\
  (forall id amount, L9.solvent (snd (L9.deposit id amount bank))) /\
  (forall id amount, L9.solvent (snd (L9.withdraw id amount bank))) /\
  (forall from_id to_id amount, L9.solvent (snd (L9.transfer from_id to_id amount bank))).
Proof.
  intros Hs. repeat split.
  - intros id owner initial. unfold L9.create_account.
    destruct (bank !! id); [exact Hs|].
    destruct (Dec.lt initial Dec.zero) eqn:Hneg; [exact Hs|].
    simpl. apply solvent_insert; [exact Hs|]. simpl.
    apply lt_false_value in Hneg. now rewrite value_zero in Hneg.
  - intros id amount. unfold L9.deposit, mbind, M_bind, bind, L9.get_account.
    destruct (bank !! id) as [acc|] eqn:Hacc; [|exact Hs].
    apply L9_call_solvent; [exact Hs|].
    intros a a' Ha Hdep. apply (L9_deposit_nonneg _ _ _ Hdep). exact (Hs _ _ Ha).
  - intros id amount. unfold L9.withdraw, mbind, M_bind, bind, L9.get_account.
    destruct (bank !! id) as [acc|] eqn:Hacc; [|exact Hs].
    apply L9_call_solvent; [exact Hs|].
    intros a a' Ha Hw. exact (L9_withdraw_nonneg _ _ _ Hw).
  - intros from_id to_id amount.
    destruct (L9_transfer_cases bank from_id to_id amount)
      as [(e0 & H0) | (src & b1 & dst1 & Hsrc & Hpos & Hsuf & Hsub & Hdst &
                       [(b2 & Hadd & H0) | (e0 & _ & [(b3 & Hback & H0) | (e' & _ & H0)])])];
      rewrite H0; simpl; [exact Hs | | | ].
    + assert (H1 : (0 <= value b1)%Q) by exact (sub_nonneg _ _ _ Hsub Hsuf).
      assert (Hs1 : L9.solvent (<[from_id := L9.set_balance src b1]> bank))
        by (apply solvent_insert; [exact Hs | exact H1]).
      apply solvent_insert; [exact Hs1|]. simpl.
      apply (add_nonneg _ _ _ Hadd); [exact (Hs1 _ _ Hdst)|].
      apply Qlt_le_weak. now apply le_zero_false_pos.
    + apply solvent_insert; [exact Hs|]. simpl.
      apply (add_nonneg _ _ _ Hback); [exact (sub_nonneg _ _ _ Hsub Hsuf)|].
      apply Qlt_le_weak. now apply le_zero_false_pos.
    + apply solvent_insert; [exact Hs|]. simpl. exact (sub_nonneg _ _ _ Hsub Hsuf).
Qed.

Lemma L9_balances_stay_nonnegative_witness :
  L9.solvent L9.doctest_bank /\
  L9.solvent (snd (L9.transfer 1 2 (Dec.of_Z 30) L9.doctest_bank)) /\
  L9.solvent (snd (L9.withdraw 2 (Dec.of_Z 1000) L9.doctest_bank)).
Proof.
  assert (H : L9.solvent L9.doctest_bank).
  { unfold L9.doctest_bank.
    apply solvent_insert; [apply solvent_insert|]; [|vm_compute; discriminate ..].
    intros id acc Hacc. rewrite lookup_empty in Hacc. discriminate Hacc. }
  split; [exact H|].
  destruct (L9_balances_stay_nonnegative L9.doctest_bank H) as (_ & _ & Hw & Ht).
  split; [apply Ht | apply Hw].
Defined.

(** X4.  Opening an account and reading it back.  Lesson 9: on a free id
    and with a non-negative initial balance create_account returns, after
    which get_balance gives back that very Decimal, every other account
    reads as before, and a second create_account on the id raises
    DuplicateAccountError (a KeyError) whatever the owner and balance,
    without touching the bank.  Lesson 10: add_account on a free id always
    returns, storing the balance and the overdraft limit it was given
    without any check of their sign, and a second add_account on the id
    raises DuplicateAccountError (a BankError). *)
Theorem open_account_then_read_back :
  (forall (bank : gmap Z L9.Account) (id : Z) (owner : string) (initial : Decimal),
      (bank !! id) = None -> (0 <= value initial)%Q ->
      exists bank',
        L9.create_account id owner initial bank = (Ok tt, bank') /\
        L9.get_balance id bank' = (Ok initial, bank') /\
        (forall other, other <> id ->
           L9.get_balance other bank' = (fst (L9.get_balance other bank), bank')) /\
        (forall owner' initial',
           L9.create_account id owner' initial' bank'
           = (Raise L9.DuplicateAccountError, bank')) /\
        issubclass L9.DuplicateAccountError KeyError = true) /\
  (forall (bank : gmap Z L10.Account) (n : Z) (holder : string) (bal od : Decimal),
      (bank !! n) = None ->
      exists bank',
        L10.add_account n holder bal od bank = (Ok n, bank') /\
        (bank' !! n) = Some (L10.mkAccount n holder bal od) /\
        L10.get n bank' = (Ok n, bank') /\
        (forall other, other <> n -> (bank' !! other) = (bank !! other)) /\
        (forall holder' bal' od',
           L10.add_account n holder' bal' od' bank'
           = (Raise L10.DuplicateAccountError, bank')) /\
        issubclass L10.DuplicateAccountError L10.BankError = true).
Proof.
  split.
  - intros bank id owner initial Hfree Hinit.
    exists (<[id := L9.mkAccount id owner initial]> bank).
    assert (Hneg : Dec.lt initial Dec.zero = false).
    { apply lt_false_value. now rewrite value_zero. }
    repeat split.
    + unfold L9.create_account. now rewrite Hfree, Hneg.
    + unfold L9.get_balance, L9.get_account. now rewrite !lookup_insert_eq.
    + intros other Hne. unfold L9.get_balance, L9.get_account.
      rewrite !lookup_insert_ne by congruence.
      destruct (bank !! other) as [acc|] eqn:Hacc; simpl.
      * rewrite lookup_insert_ne by congruence. now rewrite Hacc.
      * reflexivity.
    + intros owner' initial'. unfold L9.create_account. now rewrite lookup_insert_eq.
  - intros bank n holder bal od Hfree.
    exists (<[n := L10.mkAccount n holder bal od]> bank).
    repeat split.
    + unfold L10.add_account. now rewrite Hfree.
    + apply lookup_insert_eq.
    + unfold L10.get. now rewrite lookup_insert_eq.
    + intros other Hne. apply lookup_insert_ne. congruence.
    + intros holder' bal' od'. unfold L10.add_account. now rewrite lookup_insert_eq.
Qed.

Lemma open_account_then_read_back_witness :
  (exists bank',
     L9.create_account 3 "Carol" (Dec.of_Z 7) L9.doctest_bank = (Ok tt, bank') /\
     L9.get_balance 3 bank' = (Ok (Dec.of_Z 7), bank')) /\
  (exists bank',
     L10.add_account 3 "C" (Dec.of_Z (-7)) (Dec.of_Z (-1)) L10.doctest_bank = (Ok 3, bank') /\
     (bank' !! 3) = Some (L10.mkAccount 3 "C" (Dec.of_Z (-7)) (Dec.of_Z (-1)))).
Proof.
  split.
  - destruct (proj1 open_account_then_read_back L9.doctest_bank 3 "Carol"%string (Dec.of_Z 7))
      as (bank' & H1 & H2 & _).
    + vm_compute. reflexivity.
    + vm_compute. discriminate.
    + exists bank'. split; [exact H1 | exact H2].
  - destruct (proj2 open_account_then_read_back L10.doctest_bank 3 "C"%string
                (Dec.of_Z (-7)) (Dec.of_Z (-1)))
      as (bank' & H1 & H2 & _).
    + vm_compute. reflexivity.
    + exists bank'. split; [exact H1 | exact H2].
Defined.

(** X5.  Lesson 10, Bank.withdraw honours the overdraft limit: when the
    call returns, the amount was positive, the account holds the rounded
    difference, no other account changed, and the new balance is not
    below the negated overdraft limit as the context computes it (not
    below minus the limit itself when that negation is exact).  When the
    call raises, the bank is unchanged. *)
Theorem L10_withdraw_respects_overdraft (bank : gmap Z L10.Account) (n : Z)
    (amount : Decimal) (acc : L10.Account) :
  (bank !! n) = Some acc ->
  match L10.withdraw n amount bank with
  | (Ok _, bank') =>
      exists new_balance floor,
        (0 < value amount)%Q /\
        Dec.sub (L10.balance acc) amount = Ok new_balance /\
        Dec.neg (L10.overdraft_limit acc) = Ok floor /\
        (value floor <= value new_balance)%Q /\
        (fits (copy_negate (L10.overdraft_limit acc)) = true ->
         (- value (L10.overdraft_limit acc) <= value new_balance)%Q) /\
        bank' = <[n := L10.set_balance acc new_balance]> bank
  | (Raise _, bank') => bank' = bank
  end.
Proof.
  intros Hacc. unfold L10.withdraw, mbind, M_bind, bind, L10.get. rewrite Hacc.
  unfold L10.call. rewrite Hacc. unfold L10.Account_withdraw.
  destruct (Dec.le amount Dec.zero) eqn:Hpos; [reflexivity|].
  destruct (Dec.sub (L10.balance acc) amount) as [b1|e] eqn:Hsub; [|reflexivity].
  destruct (Dec.neg (L10.overdraft_limit acc)) as [fl|e] eqn:Hneg; [|reflexivity].
  destruct (Dec.lt b1 fl) eqn:Hsuf; [reflexivity|].
  exists b1, fl. apply lt_false_value in Hsuf.
  repeat split; try assumption.
  - now apply le_zero_false_pos.
  - intros Hfits. destruct (neg_fits _ Hfits) as (r & Hr & Hv).
    rewrite Hneg in Hr. injection Hr as <-. now rewrite <- Hv.
Qed.

Lemma L10_withdraw_respects_overdraft_witness :
  exists new_balance,
    Dec.sub (Dec.of_Z 100) (Dec.of_Z 40) = Ok new_balance /\
    (- value (Dec.of_Z 0) <= value new_balance)%Q /\
    L10.withdraw 1 (Dec.of_Z 40) L10.doctest_bank
    = (Ok tt, <[1 := L10.mkAccount 1 "A" new_balance (Dec.of_Z 0)]> L10.doctest_bank).
Proof.
  pose proof (L10_withdraw_respects_overdraft L10.doctest_bank 1 (Dec.of_Z 40)
                (L10.mkAccount 1 "A" (Dec.of_Z 100) (Dec.of_Z 0))) as H.
  destruct (L10.withdraw 1 (Dec.of_Z 40) L10.doctest_bank) as [[[]|e] bank'] eqn:Hrun.
  - destruct H as (b & fl & _ & Hsub & _ & _ & Hfloor & ->); [vm_compute; reflexivity|].
    exists b. split; [exact Hsub|]. split; [|reflexivity].
    apply Hfloor. vm_compute. reflexivity.
  - exfalso. vm_compute in Hrun. discriminate Hrun.
Defined.

(** ** The search tree: traversal, search and the counts (lesson 9) *)

Section BSTMore.

Import BST.

Lemma ordered_inorder_sorted (n : BSTNode) :
  ordered n -> StronglySorted Z.lt (inorder_from n).
Proof.
  induction n as [|k l IHl r IHr c]; simpl; [constructor|].
  intros (Hl & Hr & Ol & Or). rewrite all_keys_spec in Hl, Hr.
  apply StronglySorted_app. split; [|split; [auto|]].
  - intros x1 x2 H1 H2. apply list_elem_of_In in H1.
    apply elem_of_cons in H2 as [->|H2]; [auto|].
    apply list_elem_of_In in H2. specialize (Hl _ H1). specialize (Hr _ H2). lia.
  - apply StronglySorted_cons. split; [|auto].
    apply Forall_forall. intros x Hx. apply list_elem_of_In in Hx. auto.
Qed.

(** One [for k in keys: bst.insert(k)] step on an ordered tree. *)
Lemma insert_step (policy : string) (key : Z) (n : BSTNode) :
  (policy = "ignore" \/ policy = "error" \/ policy = "count")%string ->
  ordered n ->
  let n' := root (snd (insert key (mkBST n policy))) in
  ordered n' /\
  (search_from key n = true ->
     (policy = "count"%string ->
        inorder_with_counts_from n' = map (bump key) (inorder_with_counts_from n)) /\
     (policy <> "count"%string -> n' = n)) /\
  (search_from key n = false ->
     Permutation (inorder_with_counts_from n') ((key, 1) :: inorder_with_counts_from n)).
Proof.
  intros Hp Ho. unfold insert. cbn [on_duplicate root].
  destruct (search_from key n) eqn:Hs.
  - destruct Hp as [-> | [-> | ->]].
    + rewrite (insert_from_ignore _ _ Hs). simpl.
      split; [exact Ho|]. split; [|discriminate]. intros _. split; [discriminate | reflexivity].
    + rewrite (insert_from_error _ _ Hs). simpl.
      split; [exact Ho|]. split; [|discriminate]. intros _. split; [discriminate | reflexivity].
    + destruct (insert_from_count _ _ Hs) as (n' & -> & _ & Hc).
      destruct (Hc Ho) as [Ho' Hc']. simpl.
      split; [exact Ho'|]. split; [|discriminate]. intros _. split; [auto | congruence].
  - destruct (insert_from_absent policy _ _ Hs) as (n' & -> & Hperm & _ & Ho'). simpl.
    split; [auto|]. split; [discriminate | auto].
Qed.

Lemma doctest_tree_snoc (policy : string) (ks : list Z) (key : Z) :
  doctest_tree policy (ks ++ [key]) = snd (insert key (doctest_tree policy ks)).
Proof. unfold doctest_tree. now rewrite fold_left_app. Qed.

Lemma insert_keeps_policy (key : Z) (t : BinarySearchTree) :
  on_duplicate (snd (insert key t)) = on_duplicate t.
Proof.
  unfold insert. now destruct (insert_from (on_duplicate t) key (root t)).
Qed.

Lemma doctest_tree_policy (policy : string) (ks : list Z) :
  on_duplicate (doctest_tree policy ks) = policy.
Proof.
  induction ks as [|key ks IH] using rev_ind; [reflexivity|].
  now rewrite doctest_tree_snoc, insert_keeps_policy.
Qed.

Lemma doctest_tree_step (policy : string) (ks : list Z) (key : Z) :
  root (doctest_tree policy (ks ++ [key]))
  = root (snd (insert key (mkBST (root (doctest_tree policy ks)) policy))).
Proof.
  rewrite doctest_tree_snoc. f_equal. f_equal. f_equal.
  pose proof (doctest_tree_policy policy ks) as Hp.
  destruct (doctest_tree policy ks) as [n p]. simpl in *. now subst p.
Qed.

Lemma doctest_tree_ordered (policy : string) (ks : list Z) :
  (policy = "ignore" \/ policy = "error" \/ policy = "count")%string ->
  ordered (root (doctest_tree policy ks)).
Proof.
  intros Hp. induction ks as [|key ks IH] using rev_ind; [exact I|].
  rewrite doctest_tree_step. exact (proj1 (insert_step policy key _ Hp IH)).
Qed.

Lemma In_map_bump (key : Z) (l : list (Z * Z)) (k c : Z) :
  In (k, c) (map (bump key) l) <->
  (k = key /\ In (key, c - 1) l) \/ (k <> key /\ In (k, c) l).
Proof.
  rewrite in_map_iff. unfold bump. split.
  - intros ([k0 c0] & Hb & Hin). simpl in Hb.
    destruct (Z.eqb_spec k0 key) as [->|Hne]; injection Hb as <- <-.
    + left. split; [reflexivity|]. now replace (c0 + 1 - 1) with c0 by lia.
    + right. auto.
  - intros [[-> Hin] | [Hne Hin]].
    + exists (key, c - 1). simpl. rewrite Z.eqb_refl. split; [f_equal; lia | exact Hin].
    + exists (k, c). simpl. destruct (Z.eqb_spec k key); [contradiction | auto].
Qed.

Lemma count_occ_snoc (ks : list Z) (key k : Z) :
  Z.of_nat (count_occ Z.eq_dec (ks ++ [key]) k)
  = Z.of_nat (count_occ Z.eq_dec ks k) + (if decide (key = k) then 1 else 0).
Proof.
  rewrite count_occ_app. simpl.
  destruct (Z.eq_dec key k), (decide (key = k)); try contradiction; lia.
Qed.

Lemma In_snoc (ks : list Z) (key k : Z) : In k (ks ++ [key]) <-> In k ks \/ k = key.
Proof. rewrite in_app_iff. simpl. intuition. Qed.

(** The entries of the traversal with counts, after the keys [ks] were
    inserted one by one: a key of [ks] with the number of its accepted
    insertions. *)
Lemma counts_after_inserts (policy : string) (ks : list Z) :
  (policy = "ignore" \/ policy = "error" \/ policy = "count")%string ->
  forall k c,
    In (k, c) (inorder_with_counts_from (root (doctest_tree policy ks))) <->
    In k ks /\
    c = if decide (policy = "count"%string)
        then Z.of_nat (count_occ Z.eq_dec ks k) else 1.
Proof.
  intros Hp. induction ks as [|key ks IH] using rev_ind; intros k c.
  - simpl. intuition.
  - pose proof (doctest_tree_ordered policy ks Hp) as Ho.
    destruct (insert_step policy key _ Hp Ho) as (_ & Hpresent & Habsent).
    rewrite <- doctest_tree_step in Hpresent, Habsent.
    set (n := root (doctest_tree policy ks)) in *.
    set (n' := root (doctest_tree policy (ks ++ [key]))) in *.
    assert (Hmem : search_from key n = true <-> In key ks).
    { rewrite (search_from_In key n Ho), <- counts_keys, in_map_iff. split.
      - intros ([k0 c0] & <- & Hin). exact (proj1 (proj1 (IH _ _) Hin)).
      - intros Hin. eexists (key, _). split; [reflexivity|].
        apply IH. split; [exact Hin | reflexivity]. }
    rewrite In_snoc, count_occ_snoc.
    destruct (search_from key n) eqn:Hs.
    + destruct (Hpresent eq_refl) as [Hcount Hother].
      assert (Hin : In key ks) by now apply Hmem.
      destruct (decide (policy = "count"%string)) as [Hc|Hc].
      * rewrite (Hcount Hc), In_map_bump, !IH.
        destruct (decide (policy = "count"%string)); [|contradiction].
        destruct (decide (key = k)) as [<-|Hne]; split.
        -- intros [[_ [_ H]] | [H _]]; [|contradiction]. split; [auto | lia].
        -- intros [_ H]. left. split; [reflexivity|]. split; [exact Hin | lia].
        -- intros [[H _] | [_ [H1 H2]]]; [congruence|]. split; [auto | lia].
        -- intros [[H | H] H2]; [|congruence]. right.
           split; [congruence|]. split; [exact H | lia].
      * rewrite (Hother Hc), IH.
        destruct (decide (policy = "count"%string)); [contradiction|].
        split; [intros [H1 H2]; auto|].
        intros [[H | ->] H2]; auto.
    + assert (Hnot : ~ In key ks) by (rewrite <- Hmem; discriminate).
      assert (Hzero : count_occ Z.eq_dec ks key = 0%nat) by now apply count_occ_not_In.
      split.
      * intros Hin. apply (Permutation_in _ (Habsent eq_refl)) in Hin as [Heq|Hin].
        -- injection Heq as <- <-. split; [auto|].
           rewrite Hzero. destruct (decide (key = key)); [|contradiction].
           now destruct (decide (policy = "count"%string)).
        -- apply IH in Hin as [H1 H2]. split; [auto|].
           destruct (decide (key = k)) as [<-|_]; [contradiction|].
           rewrite H2. destruct (decide (policy = "count"%string)); lia.
      * intros [Hin Hc].
        apply (Permutation_in _ (Permutation_sym (Habsent eq_refl))).
        destruct (decide (key = k)) as [<-|Hne].
        -- left. f_equal. rewrite Hc, Hzero.
           now destruct (decide (policy = "count"%string)).
        -- right. apply IH. destruct Hin as [Hin | ->]; [|contradiction].
           split; [exact Hin|]. rewrite Hc.
           destruct (decide (policy = "count"%string)); lia.
Qed.

Lemma built_doctest_tree (policy : string) (ks : list Z) :
  (policy = "ignore" \/ policy = "error" \/ policy = "count")%string ->
  built (doctest_tree policy ks).
Proof.
  intros Hp. induction ks as [|key ks IH] using rev_ind.
  - apply (built_init policy). unfold init.
    destruct Hp as [-> | [-> | ->]]; reflexivity.
  - rewrite doctest_tree_snoc.
    destruct (insert key (doctest_tree policy ks)) as [[[]|e] t'] eqn:Hi.
    + exact (built_insert _ _ _ IH Hi).
    + unfold insert in Hi.
      destruct (insert_from _ key _); [discriminate|].
      injection Hi as _ <-. exact IH.
Qed.

End BSTMore.

(** X6.  Every tree the class can build (the constructor followed by any
    inserts that returned) yields its keys in strictly ascending order
    from inorder(), so without repetition, and search(key) answers True
    exactly for the keys inorder() yields. *)
Theorem inorder_ascending_and_search_agrees (t : BST.BinarySearchTree) :
  BST.built t ->
  StronglySorted Z.lt (BST.inorder t) /\
  (forall key, BST.search t key = true <-> In key (BST.inorder t)).
Proof.
  intros Hb. destruct (built_ordered t Hb) as [Ho _]. split.
  - now apply ordered_inorder_sorted.
  - intros key. now apply search_from_In.
Qed.

Lemma inorder_ascending_and_search_agrees_witness :
  BST.built (BST.doctest_tree "ignore" [5; 3; 7; 1; 4; 6; 8]) /\
  StronglySorted Z.lt (BST.inorder (BST.doctest_tree "ignore" [5; 3; 7; 1; 4; 6; 8])) /\
  BST.search (BST.doctest_tree "ignore" [5; 3; 7; 1; 4; 6; 8]) 10 = false.
Proof.
  assert (Hb : BST.built (BST.doctest_tree "ignore" [5; 3; 7; 1; 4; 6; 8])).
  { apply built_doctest_tree. left. reflexivity. }
  split; [exact Hb|].
  destruct (inorder_ascending_and_search_agrees _ Hb) as [Hsorted Hsearch].
  split; [exact Hsorted|].
  vm_compute. reflexivity.
Defined.

(** X7.  Insert and look up: after the keys of a list have been inserted
    one by one into a new tree (under "error" a refused duplicate leaves
    the tree as it is), search(key) is True exactly for the keys of the
    list, and inorder() yields exactly those keys, each once, ascending. *)
Theorem search_finds_exactly_the_inserted_keys (policy : string) (keys : list Z) :
  (policy = "ignore" \/ policy = "error" \/ policy = "count")%string ->
  (forall key, BST.search (BST.doctest_tree policy keys) key = true <-> In key keys) /\
  (forall key, In key (BST.inorder (BST.doctest_tree policy keys)) <-> In key keys) /\
  StronglySorted Z.lt (BST.inorder (BST.doctest_tree policy keys)).
Proof.
  intros Hp. pose proof (doctest_tree_ordered policy keys Hp) as Ho.
  assert (Hin : forall key,
             In key (BST.inorder (BST.doctest_tree policy keys)) <-> In key keys).
  { intros key. unfold BST.inorder. rewrite <- counts_keys, in_map_iff. split.
    - intros ([k0 c0] & <- & H). exact (proj1 (proj1 (counts_after_inserts _ _ Hp _ _) H)).
    - intros H. eexists (key, _). split; [reflexivity|].
      apply (counts_after_inserts _ _ Hp). split; [exact H | reflexivity]. }
  split; [|split; [exact Hin|]].
  - intros key. rewrite <- Hin. now apply search_from_In.
  - now apply ordered_inorder_sorted.
Qed.

Lemma search_finds_exactly_the_inserted_keys_witness :
  BST.search (BST.doctest_tree "error" [5; 3; 5; 7]) 7 = true /\
  BST.search (BST.doctest_tree "error" [5; 3; 5; 7]) 4 = false /\
  BST.inorder (BST.doctest_tree "error" [5; 3; 5; 7]) = [3; 5; 7].
Proof.
  destruct (search_finds_exactly_the_inserted_keys "error" [5; 3; 5; 7]) as (Hs & _ & _).
  - right. left. reflexivity.
  - split; [apply Hs; simpl; auto|].
    split; vm_compute; reflexivity.
Defined.

(** X8.  The counts are the multiplicities: after the keys of a list have
    been inserted one by one into a new tree with on_duplicate="count",
    inorder_with_counts() yields (key, c) exactly when the key occurs in
    the list and c is the number of its occurrences; under "ignore" and
    "error" every key of the list is yielded with count 1. *)
Theorem counts_are_multiplicities (keys : list Z) :
  (forall key c,
      In (key, c) (BST.inorder_with_counts (BST.doctest_tree "count" keys)) <->
      In key keys /\ c = Z.of_nat (count_occ Z.eq_dec keys key)) /\
  (forall policy key c,
      (policy = "ignore" \/ policy = "error")%string ->
      In (key, c) (BST.inorder_with_counts (BST.doctest_tree policy keys)) <->
      In key keys /\ c = 1).
Proof.
  split.
  - intros key c. unfold BST.inorder_with_counts.
    rewrite (counts_after_inserts "count" keys) by auto.
    destruct (decide ("count"%string = "count"%string)); [reflexivity | contradiction].
  - intros policy key c Hp. unfold BST.inorder_with_counts.
    rewrite (counts_after_inserts policy keys) by tauto.
    destruct (decide (policy = "count"%string)) as [->|_]; [|reflexivity].
    destruct Hp as [Hp | Hp]; discriminate Hp.
Qed.

Lemma counts_are_multiplicities_witness :
  In (2, 3) (BST.inorder_with_counts (BST.doctest_tree "count" [2; 2; 2; 1])) /\
  In (2, 1) (BST.inorder_with_counts (BST.doctest_tree "ignore" [2; 2; 2; 1])).
Proof.
  split.
  - apply (proj1 (counts_are_multiplicities [2; 2; 2; 1]) 2 3).
    split; [simpl; auto | vm_compute; reflexivity].
  - apply (proj2 (counts_are_multiplicities [2; 2; 2; 1]) "ignore"%string 2 1).
    + left. reflexivity.
    + split; [simpl; auto | reflexivity].
Defined.

(** ** Dates: month lengths, adding months, age and next birthday (lesson 13) *)

Section DateMore.

Import L13.

(** When add_months returns and when it raises. *)
Lemma add_months_spec (d : date) (k : Z) :
  let y := year d + (month d - 1 + k) / 12 in
  let m := (month d - 1 + k) mod 12 + 1 in
  1 <= day d ->
  (1 <= y <= 9999 /\ ~ (y = 9999 /\ m = 12) /\
   add_months d k = Ok (mkdate y m (Z.min (day d) (days_in_month y m)))) \/
  ((y < 1 \/ 9999 < y \/ (y = 9999 /\ m = 12)) /\
   exists e, add_months d k = Raise e /\ (e = ValueError \/ e = OverflowError)).
Proof.
  intros y m Hd.
  assert (Hm : 1 <= m <= 12).
  { pose proof (Z.mod_pos_bound (month d - 1 + k) 12 eq_refl). subst m. lia. }
  destruct (Z_le_dec 1 y) as [Hy1|Hy1]; [destruct (Z_le_dec y 9999) as [Hy2|Hy2]|].
  - destruct (Z.eq_dec y 9999) as [Hy|Hy]; [destruct (Z.eq_dec m 12) as [Hm12|Hm12]|].
    + right. split; [auto|]. exists ValueError. split; [|auto].
      unfold add_months. fold y m. rewrite Hy, Hm12. reflexivity.
    + left. split; [lia|]. split; [lia|]. apply add_months_ok; fold y m; lia.
    + left. split; [lia|]. split; [lia|]. apply add_months_ok; fold y m; lia.
  - right. split; [lia|]. exists ValueError. split; [|auto].
    unfold add_months. fold y m. unfold last_day_of_month, date_new.
    destruct (Z.eqb_spec m 12).
    + destruct (Z.leb_spec (y + 1) 9999); [lia|].
      rewrite andb_false_r. reflexivity.
    + destruct (Z.leb_spec y 9999); [lia|].
      rewrite andb_false_r. reflexivity.
  - right. split; [lia|].
    unfold add_months. fold y m. unfold last_day_of_month, date_new.
    destruct (Z.eqb_spec m 12).
    + destruct (Z.eq_dec y 0) as [Hy0|Hy0].
      * exists OverflowError. split; [|auto]. rewrite Hy0. reflexivity.
      * exists ValueError. split; [|auto].
        destruct (Z.leb_spec 1 (y + 1)); [lia|]. reflexivity.
    + exists ValueError. split; [|auto].
      destruct (Z.leb_spec 1 y); [lia|]. reflexivity.
Qed.

Lemma add_months_inv (d r : date) (k : Z) :
  1 <= day d <= 28 -> add_months d k = Ok r ->
  let y := year d + (month d - 1 + k) / 12 in
  let m := (month d - 1 + k) mod 12 + 1 in
  r = mkdate y m (day d) /\ 1 <= y <= 9999 /\ ~ (y = 9999 /\ m = 12).
Proof.
  intros Hd Hr y m.
  destruct (add_months_spec d k ltac:(lia)) as [(Hy & Hedge & H) | (_ & e & H & _)];
    rewrite H in Hr; [|discriminate].
  fold y m in Hy, Hedge, Hr.
  injection Hr as <-. split; [|auto].
  f_equal. pose proof (days_in_month_bounds y m). lia.
Qed.

Lemma add_months_index (y m d k y' m' : Z) :
  1 <= d <= 28 -> 1 <= m' <= 12 -> 12 * y' + m' = 12 * y + m + k ->
  1 <= y' <= 9999 -> ~ (y' = 9999 /\ m' = 12) ->
  add_months (mkdate y m d) k = Ok (mkdate y' m' d).
Proof.
  intros Hd Hm' Hidx Hy' Hedge.
  assert (E1 : y + (m - 1 + k) / 12 = y') by (Z.div_mod_to_equations; lia).
  assert (E2 : (m - 1 + k) mod 12 + 1 = m') by (Z.div_mod_to_equations; lia).
  rewrite add_months_ok; cbn [year month day]; rewrite ?E1, ?E2; try lia.
  pose proof (days_in_month_bounds y' m'). rewrite Z.min_l by lia. reflexivity.
Qed.

Lemma days_before_year_succ (y : Z) :
  days_before_year (y + 1) = days_before_year y + 365 + (if is_leap y then 1 else 0).
Proof.
  unfold days_before_year, is_leap.
  destruct (Z.eqb_spec (y mod 4) 0), (Z.eqb_spec (y mod 100) 0),
    (Z.eqb_spec (y mod 400) 0); simpl; Z.div_mod_to_equations; lia.
Qed.

Lemma days_before_month_succ (y m : Z) :
  1 <= m <= 11 ->
  days_before_month y (m + 1) = days_before_month y m + days_in_month y m.
Proof.
  intros Hm.
  assert (Hc : m = 1 \/ m = 2 \/ m = 3 \/ m = 4 \/ m = 5 \/ m = 6 \/ m = 7 \/
               m = 8 \/ m = 9 \/ m = 10 \/ m = 11) by lia.
  unfold days_before_month, days_in_month.
  repeat destruct Hc as [->|Hc]; try subst m; simpl; destruct (is_leap y); simpl; lia.
Qed.

Lemma days_before_month_12 (y : Z) :
  days_before_month y 12 + 31 = 365 + (if is_leap y then 1 else 0).
Proof. unfold days_before_month. simpl. destruct (is_leap y); lia. Qed.

(** From a day of one month to a day of the next. *)
Lemma toordinal_next_month (y m d y' m' d' : Z) :
  1 <= m <= 12 -> 1 <= m' <= 12 -> 12 * y' + m' = 12 * y + m + 1 ->
  toordinal (mkdate y' m' d') = toordinal (mkdate y m d) + days_in_month y m - d + d'.
Proof.
  intros Hm Hm' Hidx. unfold toordinal. cbn [year month day].
  destruct (Z.eq_dec m 12) as [->|Hne].
  - assert (y' = y + 1) as -> by lia. assert (m' = 1) as -> by lia.
    rewrite days_before_year_succ. pose proof (days_before_month_12 y).
    change (days_in_month y 12) with 31. change (days_before_month (y + 1) 1) with 0.
    lia.
  - assert (y' = y) as -> by lia. assert (m' = m + 1) as -> by lia.
    rewrite days_before_month_succ by lia. lia.
Qed.

Lemma date_lt_true (a b : date) :
  date_lt a b = true ->
  year a < year b \/
  (year a = year b /\ (month a < month b \/ (month a = month b /\ day a < day b))).
Proof.
  unfold date_lt, pair_lt. simpl.
  destruct (Z.ltb_spec (year a) (year b)); simpl; [lia|].
  destruct (Z.eqb_spec (year a) (year b)); simpl; [|discriminate].
  destruct (Z.ltb_spec (month a) (month b)); simpl; [lia|].
  destruct (Z.eqb_spec (month a) (month b)); simpl; [|discriminate].
  destruct (Z.ltb_spec (day a) (day b)); simpl; [lia | discriminate].
Qed.

Lemma days_before_month_lt (y m1 m2 : Z) :
  1 <= m1 -> m1 < m2 -> m2 <= 12 ->
  days_before_month y m1 + days_in_month y m1 <= days_before_month y m2.
Proof.
  intros H1 H12 H2.
  replace m2 with (m1 + 1 + Z.of_nat (Z.to_nat (m2 - m1 - 1))) by lia.
  assert (Hn : m1 + 1 + Z.of_nat (Z.to_nat (m2 - m1 - 1)) <= 12) by lia.
  revert Hn. generalize (Z.to_nat (m2 - m1 - 1)) as n. clear m2 H12 H2.
  induction n as [|n IH]; intros Hn.
  - rewrite Z.add_0_r, days_before_month_succ by lia. lia.
  - replace (m1 + 1 + Z.of_nat (S n)) with (m1 + 1 + Z.of_nat n + 1) by lia.
    rewrite days_before_month_succ by lia.
    pose proof (days_in_month_bounds y (m1 + 1 + Z.of_nat n)).
    specialize (IH ltac:(lia)). lia.
Qed.

Lemma days_before_month_end (y m : Z) :
  1 <= m <= 12 ->
  days_before_month y m + days_in_month y m <= 365 + (if is_leap y then 1 else 0).
Proof.
  intros Hm. destruct (Z.eq_dec m 12) as [->|Hne].
  - pose proof (days_before_month_12 y). change (days_in_month y 12) with 31. lia.
  - pose proof (days_before_month_lt y m 12 ltac:(lia) ltac:(lia) ltac:(lia)).
    pose proof (days_before_month_12 y). lia.
Qed.

Lemma days_before_month_nonneg (y m : Z) : 1 <= m <= 12 -> 0 <= days_before_month y m.
Proof.
  intros Hm. destruct (Z.eq_dec m 1) as [->|Hne].
  - unfold days_before_month. simpl. lia.
  - pose proof (days_before_month_lt y 1 m ltac:(lia) ltac:(lia) ltac:(lia)).
    pose proof (days_in_month_bounds y 1).
    assert (days_before_month y 1 = 0) by reflexivity. lia.
Qed.

Lemma days_before_month_shift (y y' m : Z) :
  days_before_month y' m + (if (2 <? m) && is_leap y then 1 else 0)
  = days_before_month y m + (if (2 <? m) && is_leap y' then 1 else 0).
Proof. unfold days_before_month. lia. Qed.

Lemma days_in_month_shift (y y' m : Z) :
  days_in_month y' m + (if (m =? 2) && is_leap y then 1 else 0)
  = days_in_month y m + (if (m =? 2) && is_leap y' then 1 else 0).
Proof.
  unfold days_in_month. destruct (m =? 2); simpl; [|lia].
  destruct (is_leap y), (is_leap y'); lia.
Qed.

Lemma leap_years_not_consecutive (y : Z) : is_leap y = true -> is_leap (y + 1) = false.
Proof.
  unfold is_leap. intros H. apply andb_true_iff in H as [H _].
  apply Z.eqb_eq in H.
  destruct (Z.eqb_spec ((y + 1) mod 4) 0) as [H1|H1]; [|reflexivity].
  exfalso. Z.div_mod_to_equations. lia.
Qed.

(** A birthday other than Feb 29 exists in every year. *)
Lemma birthday_in_ok (y : Z) (bd : date) :
  valid_date bd -> ~ (month bd = 2 /\ day bd = 29) -> 1 <= y <= 9999 ->
  birthday_in y bd = Ok (mkdate y (month bd) (day bd)) /\
  valid_date (mkdate y (month bd) (day bd)).
Proof.
  intros (Hy & Hm & Hd) Hfeb Hyy.
  assert (Hday : 1 <= day bd <= days_in_month y (month bd)).
  { pose proof (days_in_month_shift (year bd) y (month bd)) as Hs.
    destruct (Z.eqb_spec (month bd) 2) as [H2|H2]; simpl in Hs.
    - assert (Hf : days_in_month (year bd) (month bd) <= 29).
      { rewrite H2. pose proof (days_in_february (year bd)). lia. }
      pose proof (days_in_month_bounds y (month bd)). lia.
    - lia. }
  split.
  - unfold birthday_in. now rewrite date_new_ok.
  - unfold valid_date. cbn [year month day]. lia.
Qed.

End DateMore.

(** X9.  last_day_of_month(y, m), for a year 1..9999 and a month 1..12,
    returns the length of that month (31, 30, or 28 for February, 29 in a
    leap year), with one exception: for December 9999 it raises
    ValueError, because it builds the first day of the following month. *)
Theorem last_day_of_month_is_month_length (y m : Z) :
  1 <= y <= 9999 -> 1 <= m <= 12 ->
  L13.last_day_of_month y m =
    (if (y =? 9999) && (m =? 12) then Raise ValueError
     else Ok (L13.days_in_month y m)) /\
  28 <= L13.days_in_month y m <= 31 /\
  (m = 2 -> L13.days_in_month y m = if L13.is_leap y then 29 else 28).
Proof.
  intros Hy Hm. split; [|split].
  - destruct (Z.eqb_spec y 9999) as [->|Hy9]; [destruct (Z.eqb_spec m 12) as [->|Hm12]|];
      simpl; [reflexivity | |]; apply last_day_of_month_ok; lia.
  - apply days_in_month_bounds.
  - intros ->. reflexivity.
Qed.

Lemma last_day_of_month_is_month_length_witness :
  L13.last_day_of_month 2024 2 = Ok 29 /\
  L13.last_day_of_month 2023 2 = Ok 28 /\
  L13.last_day_of_month 9999 12 = Raise ValueError.
Proof.
  destruct (last_day_of_month_is_month_length 2024 2) as (H1 & _); [lia | lia |].
  destruct (last_day_of_month_is_month_length 2023 2) as (H2 & _); [lia | lia |].
  destruct (last_day_of_month_is_month_length 9999 12) as (H3 & _); [lia | lia |].
  split; [exact H1|]. split; [exact H2 | exact H3].
Defined.

(** X10.  add_months on a date whose day is at most 28 (no clamping):
    when it returns, the result is a valid date with the same day whose
    month count (12 * year + month) has grown by exactly the requested
    number; adding months composes (adding a and then b is adding a + b,
    raising included); and going back by the same number returns the
    original date.  It returns exactly when the target month lies in the
    years 1..9999 and is not December 9999. *)
Theorem add_months_composes (d : L13.date) (a : Z) :
  L13.valid_date d -> L13.day d <= 28 ->
  (forall r, L13.add_months d a = Ok r ->
     L13.valid_date r /\ L13.day r = L13.day d /\
     12 * L13.year r + L13.month r = 12 * L13.year d + L13.month d + a /\
     (forall b, L13.add_months r b = L13.add_months d (a + b)) /\
     (~ (L13.year d = 9999 /\ L13.month d = 12) -> L13.add_months r (- a) = Ok d)) /\
  ((exists r, L13.add_months d a = Ok r) <->
   12 <= 12 * L13.year d + L13.month d - 1 + a < 12 * 9999 + 11).
Proof.
  intros (Hy & Hm & Hd) H28. split.
  - intros r Hr.
    destruct (add_months_inv d r a ltac:(lia) Hr) as (-> & Hy' & Hedge).
    set (y := L13.year d + (L13.month d - 1 + a) / 12) in *.
    set (m := (L13.month d - 1 + a) mod 12 + 1) in *.
    assert (Hm' : 1 <= m <= 12).
    { pose proof (Z.mod_pos_bound (L13.month d - 1 + a) 12 eq_refl). subst m. lia. }
    assert (Hidx : 12 * y + m = 12 * L13.year d + L13.month d + a).
    { subst y m. Z.div_mod_to_equations. lia. }
    assert (Hcomp : forall b, L13.add_months (L13.mkdate y m (L13.day d)) b
                              = L13.add_months d (a + b)).
    { intros b. unfold L13.add_months. cbn [L13.year L13.month L13.day].
      replace (y + (m - 1 + b) / 12)
        with (L13.year d + (L13.month d - 1 + (a + b)) / 12)
        by (Z.div_mod_to_equations; lia).
      replace ((m - 1 + b) mod 12 + 1)
        with ((L13.month d - 1 + (a + b)) mod 12 + 1)
        by (Z.div_mod_to_equations; lia).
      reflexivity. }
    split; [|split; [reflexivity|split; [exact Hidx|split; [exact Hcomp|]]]].
    + unfold L13.valid_date. cbn [L13.year L13.month L13.day].
      pose proof (days_in_month_bounds y m). lia.
    + intros Hnot. rewrite Hcomp. replace (a + - a) with 0 by lia.
      rewrite add_months_ok; cbn zeta.
      * replace (L13.year d + (L13.month d - 1 + 0) / 12) with (L13.year d)
          by (Z.div_mod_to_equations; lia).
        replace ((L13.month d - 1 + 0) mod 12 + 1) with (L13.month d)
          by (Z.div_mod_to_equations; lia).
        destruct d as [yd md dd]. cbn [L13.year L13.month L13.day] in *.
        pose proof (days_in_month_bounds yd md). rewrite Z.min_l by lia. reflexivity.
      * Z.div_mod_to_equations; lia.
      * Z.div_mod_to_equations; lia.
      * lia.
  - destruct (add_months_spec d a ltac:(lia)) as [(Hy' & Hedge & H) | (Hout & e & H & _)];
      rewrite H; split.
    + intros _. Z.div_mod_to_equations; lia.
    + intros _. eexists. reflexivity.
    + intros [r Hr]. discriminate Hr.
    + intros Hin. exfalso. Z.div_mod_to_equations; lia.
Qed.

Lemma add_months_composes_witness :
  L13.add_months (L13.mkdate 2024 11 15) 3 = Ok (L13.mkdate 2025 2 15) /\
  L13.add_months (L13.mkdate 2025 2 15) (- 3) = Ok (L13.mkdate 2024 11 15) /\
  L13.add_months (L13.mkdate 2025 2 15) 7 = L13.add_months (L13.mkdate 2024 11 15) (3 + 7).
Proof.
  assert (H : L13.add_months (L13.mkdate 2024 11 15) 3 = Ok (L13.mkdate 2025 2 15))
    by reflexivity.
  destruct (add_months_composes (L13.mkdate 2024 11 15) 3) as [Hr _].
  - vm_compute. repeat split; discriminate.
  - vm_compute. discriminate.
  - destruct (Hr _ H) as (_ & _ & _ & Hcomp & Hback).
    split; [exact H|]. split; [|apply Hcomp].
    apply Hback. simpl. lia.
Defined.

(** calculate_age without clamping: the call returns, and what it returns. *)
Lemma calculate_age_spec (today bd on : L13.date) :
  L13.valid_date bd -> L13.day bd <= 28 -> L13.valid_date on ->
  L13.date_lt on bd = false ->
  L13.days_between on bd / 365 <= 150 ->
  ~ (L13.year on = 9999 /\ L13.month on = 12) ->
  exists age mark,
    L13.calculate_age today bd (Some on) = Ok age /\
    L13.years age = L13.year on - L13.year bd
                    - (if L13.pair_lt (L13.month on, L13.day on) (L13.month bd, L13.day bd)
                       then 1 else 0) /\
    0 <= L13.years age /\ 0 <= L13.months age <= 11 /\ 0 <= L13.days age <= 30 /\
    L13.add_months bd (12 * L13.years age + L13.months age) = Ok mark /\
    L13.toordinal on = L13.toordinal mark + L13.days age /\
    L13.total_days age = L13.toordinal on - L13.toordinal bd.
Proof.
  destruct bd as [yb mb db], on as [yo mo do]. unfold L13.valid_date.
  cbn [L13.year L13.month L13.day].
  intros (Hyb & Hmb & Hdb) H28 (Hyo & Hmo & Hdo) Hlt Hlim Hedge.
  pose proof (days_in_month_bounds yo mo) as Hdim.
  unfold L13.calculate_age. rewrite Hlt.
  destruct (Z.ltb_spec 150 (L13.days_between (L13.mkdate yo mo do) (L13.mkdate yb mb db) / 365));
    [lia|].
  apply date_lt_false in Hlt. cbn [L13.year L13.month L13.day] in Hlt |- *.
  unfold L13.pair_lt. cbn [fst snd].
  set (before := (mo <? mb) || (mo =? mb) && (do <? db)).
  assert (Hbefore : (before = true /\ yb < yo /\ (mo < mb \/ (mo = mb /\ do < db))) \/
                    (before = false /\ (mb < mo \/ (mb = mo /\ db <= do)))).
  { subst before.
    destruct (Z.ltb_spec mo mb); simpl; [left; split; [reflexivity | lia]|].
    destruct (Z.eqb_spec mo mb); simpl; [|right; split; [reflexivity | lia]].
    destruct (Z.ltb_spec do db); [left | right]; (split; [reflexivity | lia]). }
  set (years := if before then yo - yb - 1 else yo - yb).
  assert (Hyears : 0 <= years /\ years = yo - yb - (if before then 1 else 0)).
  { subst years. destruct Hbefore as [(-> & ?) | (-> & ?)]; lia. }
  rewrite (add_months_index yb mb db (years * 12) (yb + years) mb) by
    (destruct Hbefore as [(Hb & ?) | (Hb & ?)]; rewrite Hb in Hyears; lia).
  cbn [L13.bind_result L13.year L13.month L13.day].
  set (lt_day := do <? db).
  set (months := if lt_day then (yo - (yb + years)) * 12 + (mo - mb) - 1
                 else (yo - (yb + years)) * 12 + (mo - mb)).
  assert (Hmonths : 0 <= months <= 11 /\
                    months = (yo - (yb + years)) * 12 + (mo - mb) - (if lt_day then 1 else 0)).
  { subst months lt_day.
    destruct (Z.ltb_spec do db);
      destruct Hbefore as [(Hb & ?) | (Hb & ?)]; rewrite Hb in Hyears; lia. }
  destruct (Z.ltb_spec months 0); [lia|].
  destruct (Z.ltb_spec 11 months); [lia|].
  set (ym := if lt_day then (if mo =? 1 then yo - 1 else yo) else yo).
  set (mm := if lt_day then (if mo =? 1 then 12 else mo - 1) else mo).
  assert (Hmark : 1 <= mm <= 12 /\ 12 * ym + mm = 12 * yo + mo - (if lt_day then 1 else 0)).
  { subst ym mm. destruct lt_day; [|lia]. destruct (Z.eqb_spec mo 1); lia. }
  assert (Hym : 1 <= ym <= 9999 /\ ~ (ym = 9999 /\ mm = 12)).
  { destruct Hmonths as [Hm0 Hm1]. destruct Hmark as [Hmm Hidx].
    destruct lt_day; lia. }
  rewrite (add_months_index (yb + years) mb db months ym mm) by lia.
  cbn [L13.bind_result].
  eexists. exists (L13.mkdate ym mm db).
  split; [reflexivity|].
  cbn [L13.years L13.months L13.days L13.total_days].
  split; [fold before; lia|]. split; [lia|]. split; [lia|].
  assert (Hdays : L13.toordinal (L13.mkdate yo mo do)
                  = L13.toordinal (L13.mkdate ym mm db)
                    + L13.days_between (L13.mkdate yo mo do) (L13.mkdate ym mm db))
    by (unfold L13.days_between; lia).
  assert (Hrange : 0 <= L13.days_between (L13.mkdate yo mo do) (L13.mkdate ym mm db) <= 30).
  { unfold L13.days_between.
    subst lt_day. destruct (Z.ltb_spec do db) as [Hd|Hd].
    - rewrite (toordinal_next_month ym mm db yo mo do) by lia.
      pose proof (days_in_month_bounds ym mm). lia.
    - assert (ym = yo) as -> by (subst ym; reflexivity).
      assert (mm = mo) as -> by (subst mm; reflexivity).
      unfold L13.toordinal. cbn [L13.year L13.month L13.day]. lia. }
  split; [exact Hrange|].
  split; [apply add_months_index; lia|].
  split; [exact Hdays | reflexivity].
Qed.


(** X11.  calculate_age on a birthdate whose day is at most 28 (so that
    no clamping is involved), for a reference date that is not before
    the birthdate, within the 150-year limit and not in December 9999:
    the call returns; years is the difference of the years, less one when
    the birthday has not come yet that year; 0 <= months <= 11 and
    0 <= days <= 30; the birthdate moved by 12 * years + months months,
    plus days days, is the reference date; and total_days is the number
    of days between the two dates. *)
Theorem calculate_age_decomposes (today bd on : L13.date) :
  L13.valid_date bd -> L13.day bd <= 28 -> L13.valid_date on ->
  L13.date_lt on bd = false ->
  L13.days_between on bd / 365 <= 150 ->
  ~ (L13.year on = 9999 /\ L13.month on = 12) ->
  exists age mark,
    L13.calculate_age today bd (Some on) = Ok age /\
    L13.years age = L13.year on - L13.year bd
                    - (if L13.pair_lt (L13.month on, L13.day on) (L13.month bd, L13.day bd)
                       then 1 else 0) /\
    0 <= L13.years age /\ 0 <= L13.months age <= 11 /\ 0 <= L13.days age <= 30 /\
    L13.add_months bd (12 * L13.years age + L13.months age) = Ok mark /\
    L13.toordinal on = L13.toordinal mark + L13.days age /\
    L13.total_days age = L13.toordinal on - L13.toordinal bd.
Proof. exact (calculate_age_spec today bd on). Qed.

Lemma calculate_age_decomposes_witness :
  exists mark,
    L13.calculate_age (L13.mkdate 2020 1 1) (L13.mkdate 2000 6 15)
      (Some (L13.mkdate 2024 12 25)) = Ok (L13.mkAge 24 6 10 8959) /\
    L13.add_months (L13.mkdate 2000 6 15) (12 * 24 + 6) = Ok mark /\
    L13.toordinal (L13.mkdate 2024 12 25) = L13.toordinal mark + 10.
Proof.
  destruct (calculate_age_decomposes (L13.mkdate 2020 1 1) (L13.mkdate 2000 6 15)
              (L13.mkdate 2024 12 25))
    as (age & mark & Hrun & _ & _ & _ & _ & Hmark & Hord & _).
  - vm_compute. repeat split; discriminate.
  - vm_compute. discriminate.
  - vm_compute. repeat split; discriminate.
  - reflexivity.
  - vm_compute. discriminate.
  - simpl. lia.
  - assert (Hage : age = L13.mkAge 24 6 10 8959).
    { vm_compute in Hrun. injection Hrun as <-. reflexivity. }
    subst age. exists mark. split; [exact Hrun|]. split; [exact Hmark | exact Hord].
Defined.

(** X12.  days_until_next_birthday for a birthday other than Feb 29 and a
    valid start date before the year 9999: the call returns a number n
    with 0 <= n <= 365, which is 0 exactly on the birthday itself; the
    start date plus n days is a valid date with the month and the day of
    the birthdate, in the year of the start date or the next one. *)
Theorem days_until_next_birthday_bounds (today bd from : L13.date) :
  L13.valid_date bd -> ~ (L13.month bd = 2 /\ L13.day bd = 29) ->
  L13.valid_date from -> L13.year from < 9999 ->
  exists n next,
    L13.days_until_next_birthday today bd (Some from) = Ok n /\
    0 <= n <= 365 /\
    (n = 0 <-> L13.month from = L13.month bd /\ L13.day from = L13.day bd) /\
    L13.valid_date next /\
    L13.month next = L13.month bd /\ L13.day next = L13.day bd /\
    (L13.year next = L13.year from \/ L13.year next = L13.year from + 1) /\
    L13.toordinal next = L13.toordinal from + n.
Proof.
  intros Hbd Hfeb Hfrom Hy.
  destruct (birthday_in_ok (L13.year from) bd Hbd Hfeb) as [Hthis Hvthis];
    [destruct Hfrom; lia|].
  destruct (birthday_in_ok (L13.year from + 1) bd Hbd Hfeb) as [Hnext Hvnext];
    [destruct Hfrom; lia|].
  destruct bd as [yb mb db], from as [yf mf df].
  cbn [L13.year L13.month L13.day] in *.
  destruct Hfrom as (Hyf & Hmf & Hdf). cbn [L13.year L13.month L13.day] in *.
  destruct Hvthis as (_ & Hmb & Hdb). cbn [L13.year L13.month L13.day] in *.
  destruct Hvnext as (Hy1 & _ & Hdb1). cbn [L13.year L13.month L13.day] in *.
  unfold L13.days_until_next_birthday. cbn [L13.year]. rewrite Hthis.
  cbn [L13.bind_result].
  pose proof (days_before_month_nonneg yf mb Hmb) as Hb0.
  pose proof (days_before_month_nonneg yf mf Hmf) as Hf0.
  pose proof (days_before_month_end yf mb Hmb) as Hbend.
  pose proof (days_before_month_end yf mf Hmf) as Hfend.
  destruct (L13.date_lt (L13.mkdate yf mb db) (L13.mkdate yf mf df)) eqn:Hlt.
  - rewrite Hnext. cbn [L13.bind_result].
    apply date_lt_true in Hlt. cbn [L13.year L13.month L13.day] in Hlt.
    destruct Hlt as [Hlt | [_ Hlt]]; [lia|].
    exists (L13.days_between (L13.mkdate (yf + 1) mb db) (L13.mkdate yf mf df)),
           (L13.mkdate (yf + 1) mb db).
    split; [reflexivity|].
    assert (Hn : 1 <= L13.days_between (L13.mkdate (yf + 1) mb db) (L13.mkdate yf mf df)
                 <= 365).
    { unfold L13.days_between, L13.toordinal. cbn [L13.year L13.month L13.day].
      rewrite days_before_year_succ.
      pose proof (days_before_month_shift yf (yf + 1) mb) as Hshift.
      pose proof (days_in_month_shift yf (yf + 1) mb) as Hdshift.
      pose proof (leap_years_not_consecutive yf) as Hleap.
      pose proof (days_before_month_nonneg (yf + 1) mb Hmb) as Hb1.
      destruct Hlt as [Hlt | [Hmeq Hdlt]].
      - pose proof (days_before_month_lt yf mb mf ltac:(lia) Hlt ltac:(lia)).
        destruct (L13.is_leap yf); [rewrite (Hleap eq_refl) in *|];
          destruct (L13.is_leap (yf + 1));
          destruct (2 <? mb); destruct (mb =? 2); cbn [andb] in *; lia.
      - subst mf.
        destruct (L13.is_leap yf); [rewrite (Hleap eq_refl) in *|];
          destruct (L13.is_leap (yf + 1));
          destruct (Z.ltb_spec 2 mb); destruct (Z.eqb_spec mb 2); cbn [andb] in *; lia. }
    split; [lia|]. split; [split; [lia | intros [-> ->]; lia]|].
    split; [unfold L13.valid_date; cbn [L13.year L13.month L13.day]; lia|].
    cbn [L13.year L13.month L13.day].
    split; [reflexivity|]. split; [reflexivity|]. split; [right; reflexivity|].
    unfold L13.days_between. lia.
  - apply date_lt_false in Hlt. cbn [L13.year L13.month L13.day] in Hlt.
    destruct Hlt as [Hlt | [_ Hlt]]; [lia|].
    exists (L13.days_between (L13.mkdate yf mb db) (L13.mkdate yf mf df)),
           (L13.mkdate yf mb db).
    split; [reflexivity|].
    unfold L13.days_between, L13.toordinal, L13.valid_date.
    cbn [L13.year L13.month L13.day].
    assert (Hcmp : (mf < mb /\
                    L13.days_before_month yf mf + L13.days_in_month yf mf
                    <= L13.days_before_month yf mb) \/ (mf = mb /\ df <= db)).
    { destruct Hlt as [Hlt | [Hmeq Hdle]]; [left | right; lia].
      split; [exact Hlt|]. apply days_before_month_lt; lia. }
    destruct (L13.is_leap yf);
      (split; [destruct Hcmp as [[? ?] | [-> ?]]; lia|]);
      (split; [split; [destruct Hcmp as [[? ?] | [-> ?]]; lia | intros [-> ->]; lia]|]);
      repeat split; try lia; left; reflexivity.
Qed.

Lemma days_until_next_birthday_bounds_witness :
  L13.days_until_next_birthday (L13.mkdate 2020 1 1) (L13.mkdate 2000 12 25)
    (Some (L13.mkdate 2024 12 24)) = Ok 1 /\
  exists next,
    L13.valid_date next /\ L13.month next = 12 /\ L13.day next = 25 /\
    L13.toordinal next = L13.toordinal (L13.mkdate 2024 12 24) + 1.
Proof.
  destruct (days_until_next_birthday_bounds (L13.mkdate 2020 1 1) (L13.mkdate 2000 12 25)
              (L13.mkdate 2024 12 24))
    as (n & next & Hrun & _ & _ & Hv & Hm & Hd & _ & Hord).
  - vm_compute. repeat split; discriminate.
  - simpl. lia.
  - vm_compute. repeat split; discriminate.
  - simpl. lia.
  - assert (Hn : n = 1) by (vm_compute in Hrun; injection Hrun as <-; reflexivity).
    subst n. split; [exact Hrun|]. exists next. auto.
Defined.

(** X13.  Person.age_on counts the birthdays that have passed: it is 0
    on the date of birth, k on the k-th anniversary, never decreases as
    the date advances and is never negative from the date of birth on.
    For a birthdate whose day is at most 28 it agrees with the years that
    calculate_age of lesson 13 reports (for a Feb 29 birthdate the two can
    differ, calculate_age clamping to Feb 28). *)
Theorem age_on_counts_birthdays (p : Person.Person) :
  Person.age_on p (Person.dob p) = 0 /\
  (forall k,
     Person.age_on p (L13.mkdate (L13.year (Person.dob p) + k)
                                 (L13.month (Person.dob p)) (L13.day (Person.dob p))) = k) /\
  (forall on1 on2, Person.date_le on1 on2 -> Person.age_on p on1 <= Person.age_on p on2) /\
  (forall on_date, Person.date_le (Person.dob p) on_date -> 0 <= Person.age_on p on_date) /\
  (forall today on_date,
     L13.valid_date (Person.dob p) -> L13.day (Person.dob p) <= 28 ->
     L13.valid_date on_date -> Person.date_le (Person.dob p) on_date ->
     L13.days_between on_date (Person.dob p) / 365 <= 150 ->
     ~ (L13.year on_date = 9999 /\ L13.month on_date = 12) ->
     exists age,
       L13.calculate_age today (Person.dob p) (Some on_date) = Ok age /\
       L13.years age = Person.age_on p on_date).
Proof.
  assert (Hmono : forall on1 on2, Person.date_le on1 on2 ->
                                  Person.age_on p on1 <= Person.age_on p on2).
  { intros on1 on2 Hle. apply date_lt_false in Hle.
    unfold Person.age_on, L13.pair_lt. cbn [fst snd].
    repeat match goal with
           | |- context [Z.ltb ?a ?b] => destruct (Z.ltb_spec a b)
           | |- context [Z.eqb ?a ?b] => destruct (Z.eqb_spec a b)
           end; cbn [orb andb]; lia. }
  assert (Hanniv : forall k,
             Person.age_on p (L13.mkdate (L13.year (Person.dob p) + k)
                                (L13.month (Person.dob p)) (L13.day (Person.dob p))) = k).
  { intros k. unfold Person.age_on, L13.pair_lt. cbn [fst snd L13.year L13.month L13.day].
    rewrite !Z.ltb_irrefl, andb_false_r. simpl. lia. }
  split; [|split; [exact Hanniv|split; [exact Hmono|split]]].
  - unfold Person.age_on, L13.pair_lt. cbn [fst snd].
    rewrite !Z.ltb_irrefl, andb_false_r. simpl. lia.
  - intros on_date Hle.
    assert (H0 : Person.age_on p (Person.dob p) = 0).
    { unfold Person.age_on, L13.pair_lt. cbn [fst snd].
      rewrite !Z.ltb_irrefl, andb_false_r. simpl. lia. }
    rewrite <- H0. now apply Hmono.
  - intros today on_date Hv H28 Hon Hle Hlim Hedge.
    destruct (calculate_age_spec today (Person.dob p) on_date Hv H28 Hon Hle Hlim Hedge)
      as (age & mark & Hrun & Hyears & _).
    exists age. split; [exact Hrun|]. rewrite Hyears. reflexivity.
Qed.

Lemma age_on_counts_birthdays_witness :
  let p := Person.mkPerson "Alice" "UK" (L13.mkdate 2000 6 1) in
  Person.age_on p (L13.mkdate 2024 5 31) = 23 /\
  Person.age_on p (L13.mkdate 2024 5 31) <= Person.age_on p (L13.mkdate 2024 6 1) /\
  exists age,
    L13.calculate_age (L13.mkdate 2020 1 1) (L13.mkdate 2000 6 1)
      (Some (L13.mkdate 2024 5 31)) = Ok age /\
    L13.years age = 23.
Proof.
  intros p.
  destruct (age_on_counts_birthdays p) as (_ & _ & Hmono & _ & Hagree).
  split; [reflexivity|]. split.
  - apply Hmono. reflexivity.
  - destruct (Hagree (L13.mkdate 2020 1 1) (L13.mkdate 2024 5 31)) as (age & Hrun & Hy).
    + vm_compute. repeat split; discriminate.
    + vm_compute. discriminate.
    + vm_compute. repeat split; discriminate.
    + reflexivity.
    + vm_compute. discriminate.
    + simpl. lia.
    + exists age. split; [exact Hrun|]. rewrite Hy. reflexivity.
Defined.

(** On a Feb 29 birthdate the two ages differ on Feb 28 of a common year. *)
Example age_on_and_calculate_age_differ :
  Person.age_on (Person.mkPerson "Ada" "UK" (L13.mkdate 2000 2 29)) (L13.mkdate 2023 2 28)
  = 22 /\
  L13.calculate_age (L13.mkdate 2020 1 1) (L13.mkdate 2000 2 29)
    (Some (L13.mkdate 2023 2 28)) = Ok (L13.mkAge 23 0 365 8400).
Proof. split; vm_compute; reflexivity. Qed.

(** ** Chunks, the tokenizer and the liveness of the pool (lesson 12) *)

Section PoolMore.

Import L12.

Lemma chunks_sizes (b r : Z) (count : nat) (i start : Z) :
  Forall (fun c => b <= snd c - fst c + 1 <= b + 1) (chunks b r count i start).
Proof.
  revert i start. induction count as [|count IH]; intros i start; cbn [chunks];
    constructor; [|apply IH].
  simpl. destruct (i <? r); lia.
Qed.

Lemma chunks_consecutive (b r : Z) (count : nat) (i start : Z) :
  L12.consecutive start (chunks b r count i start).
Proof.
  revert i start. induction count as [|count IH]; intros i start; cbn [chunks L12.consecutive];
    [exact I|].
  split; [reflexivity | apply IH].
Qed.

(** *** The number of steps left *)

Lemma count_insert (p : worker -> bool) (ws : list worker) (i : nat) (w0 x : worker) :
  (ws !! i) = Some w0 ->
  (length (List.filter p (<[i := x]> ws)) + (if p w0 then 1 else 0)
   = length (List.filter p ws) + (if p x then 1 else 0))%nat.
Proof.
  revert i. induction ws as [|w ws IH]; intros [|i] H; simpl in *; try discriminate.
  - injection H as ->. destruct (p w0), (p x); simpl; lia.
  - specialize (IH i H). destruct (p w); simpl; lia.
Qed.

Lemma count_positive (p : worker -> bool) (ws : list worker) :
  (0 < length (List.filter p ws))%nat ->
  exists i w, (ws !! i) = Some w /\ p w = true.
Proof.
  induction ws as [|w ws IH]; simpl; [lia|].
  destruct (p w) eqn:Hp.
  - intros _. exists 0%nat, w. auto.
  - intros H. destruct (IH H) as (i & w' & Hi & Hw). exists (S i), w'. auto.
Qed.

Lemma count_zero (p : worker -> bool) (ws : list worker) :
  length (List.filter p ws) = 0%nat -> Forall (fun w => p w = false) ws.
Proof.
  induction ws as [|w ws IH]; simpl; [constructor|].
  destruct (p w) eqn:Hp; simpl; [discriminate|].
  intros H. constructor; auto.
Qed.

Lemma work_left_step (tokenize : string -> list string) (maxsize : Z)
    (t : option nat) (s s' : pool) :
  step tokenize maxsize t s = Some s' -> work_left s = S (work_left s').
Proof.
  destruct s as [ll sl q ws rs]. unfold step, work_left.
  cbn [lines_left sentinels_left queue workers results].
  destruct t as [i|].
  - destruct (ws !! i) as [[local|local|]|] eqn:Hwi; try discriminate.
    + destruct q as [|[line|] q]; [discriminate| |]; intros [= <-];
        cbn [lines_left sentinels_left queue workers results length].
      * pose proof (count_insert active ws i _
                      (Running (update_words local (tokenize line))) Hwi) as H.
        simpl in H. lia.
      * pose proof (count_insert active ws i _ (Storing local) Hwi) as H.
        simpl in H. lia.
    + intros [= <-]. cbn [lines_left sentinels_left queue workers results].
      pose proof (count_insert active ws i _ Exited Hwi) as H. simpl in H. lia.
  - destruct (has_room maxsize q); [|discriminate].
    destruct ll as [|line rest].
    + destruct sl as [|n]; [discriminate|]. intros [= <-].
      cbn [lines_left sentinels_left queue workers results length].
      rewrite length_app. simpl. lia.
    + intros [= <-].
      cbn [lines_left sentinels_left queue workers results length].
      rewrite length_app. simpl. lia.
Qed.

Lemma work_left_run (tokenize : string -> list string) (maxsize : Z)
    (schedule : list (option nat)) (s s' : pool) :
  run tokenize maxsize schedule s = Some s' ->
  work_left s = (length schedule + work_left s')%nat.
Proof.
  revert s. induction schedule as [|t rest IH]; intros s; simpl.
  - now intros [= <-].
  - destruct (step tokenize maxsize t s) as [s1|] eqn:Hstep; [|discriminate].
    intros H. rewrite (work_left_step _ _ _ _ _ Hstep), (IH _ H). lia.
Qed.

Lemma work_left_start (lines : list string) (threads : nat) :
  work_left (start lines threads) = (2 * length lines + 3 * threads)%nat.
Proof.
  unfold work_left, start. cbn [lines_left sentinels_left queue workers length].
  assert (H : length (List.filter active (replicate threads (Running ∅))) = threads).
  { induction threads as [|n IH]; simpl; [reflexivity | now rewrite IH]. }
  rewrite H. lia.
Qed.

Lemma joined_work_left (s : pool) : joined s <-> work_left s = 0%nat.
Proof.
  destruct s as [ll sl q ws rs]. unfold joined, work_left.
  cbn [lines_left sentinels_left queue workers]. split.
  - intros (-> & -> & -> & Hex). simpl.
    induction Hex as [|w ws -> _ IH]; simpl; [reflexivity | exact IH].
  - intros H.
    assert (Hll : ll = []) by (destruct ll; [reflexivity | simpl in H; lia]).
    assert (Hq : q = []) by (destruct q; [reflexivity | simpl in H; lia]).
    split; [exact Hll|]. split; [lia|]. split; [exact Hq|].
    eapply Forall_impl; [apply (count_zero active); lia|].
    intros [local|local|]; simpl; [discriminate | discriminate | reflexivity].
Qed.

(** *** The shape of the reachable states *)

Lemma orderly_start (lines : list string) (threads : nat) :
  orderly (start lines threads).
Proof.
  exists [], 0%nat. unfold start. cbn [lines_left sentinels_left queue workers].
  rewrite length_replicate.
  assert (H : length (List.filter looping (replicate threads (Running ∅))) = threads).
  { induction threads as [|n IH]; simpl; [reflexivity | now rewrite IH]. }
  rewrite H. split; [reflexivity|]. split; [lia|]. split.
  - intros _. split; reflexivity.
  - intros Hne. now contradiction Hne.
Qed.

Lemma map_Some_replicate_head (ls : list string) (k : nat) (x : option string)
    (q : list (option string)) :
  x :: q = map Some ls ++ replicate k None ->
  (exists line ls', x = Some line /\ ls = line :: ls' /\
                    q = map Some ls' ++ replicate k None) \/
  (exists k', x = None /\ ls = [] /\ k = S k' /\ q = replicate k' None).
Proof.
  destruct ls as [|line ls']; simpl.
  - destruct k as [|k']; simpl; [discriminate|].
    intros [= -> ->]. right. exists k'. auto.
  - intros [= -> ->]. left. exists line, ls'. auto.
Qed.

Lemma orderly_step (tokenize : string -> list string) (maxsize : Z)
    (t : option nat) (s s' : pool) :
  orderly s -> step tokenize maxsize t s = Some s' -> orderly s'.
Proof.
  destruct s as [ll sl q ws rs]. unfold orderly, step.
  cbn [lines_left sentinels_left queue workers results].
  intros (ls & k & Hq & Hcount & Hlines & Hls).
  destruct t as [i|].
  - destruct (ws !! i) as [[local|local|]|] eqn:Hwi; try discriminate.
    + destruct q as [|x q]; [discriminate|].
      destruct (map_Some_replicate_head _ _ _ _ Hq)
        as [(line & ls' & -> & -> & Hq') | (k' & -> & -> & -> & Hq')];
        intros [= <-]; cbn [lines_left sentinels_left queue workers results].
      * exists ls', k. rewrite length_insert.
        pose proof (count_insert looping ws i _
                      (Running (update_words local (tokenize line))) Hwi) as H.
        simpl in H. split; [exact Hq'|]. split; [lia|]. split; [exact Hlines|].
        intros _. apply Hls. discriminate.
      * exists [], k'. rewrite length_insert.
        pose proof (count_insert looping ws i _ (Storing local) Hwi) as H.
        simpl in H. split; [exact Hq'|]. split; [lia|]. split.
        -- intros Hne. destruct (Hlines Hne) as [Hk _]. discriminate Hk.
        -- intros Hne. now contradiction Hne.
    + intros [= <-]. cbn [lines_left sentinels_left queue workers results].
      exists ls, k. rewrite length_insert.
      pose proof (count_insert looping ws i _ Exited Hwi) as H. simpl in H.
      split; [exact Hq|]. split; [lia|]. split; [exact Hlines | exact Hls].
  - destruct (has_room maxsize q); [|discriminate].
    destruct ll as [|line rest].
    + destruct sl as [|n]; [discriminate|]. intros [= <-].
      cbn [lines_left sentinels_left queue workers results].
      exists ls, (S k). split; [|split; [lia|split]].
      * rewrite Hq, <- app_assoc. f_equal.
        change [None] with (replicate 1 (@None string)).
        rewrite <- replicate_add. f_equal. lia.
      * intros Hne. now contradiction Hne.
      * intros Hne. specialize (Hls Hne). lia.
    + intros [= <-]. cbn [lines_left sentinels_left queue workers results].
      destruct (Hlines ltac:(discriminate)) as [-> Hsl].
      exists (ls ++ [line]), 0%nat. split; [|split; [lia|split]].
      * rewrite Hq. simpl. rewrite !app_nil_r, map_app. reflexivity.
      * intros _. split; [reflexivity | exact Hsl].
      * intros _. lia.
Qed.

Lemma orderly_run (tokenize : string -> list string) (maxsize : Z)
    (schedule : list (option nat)) (s s' : pool) :
  orderly s -> run tokenize maxsize schedule s = Some s' -> orderly s'.
Proof.
  revert s. induction schedule as [|t rest IH]; intros s Hs; simpl.
  - now intros [= <-].
  - destruct (step tokenize maxsize t s) as [s1|] eqn:Hstep; [|discriminate].
    apply IH. eapply orderly_step; eassumption.
Qed.

Lemma workers_step (tokenize : string -> list string) (maxsize : Z)
    (t : option nat) (s s' : pool) :
  step tokenize maxsize t s = Some s' -> length (workers s') = length (workers s).
Proof.
  destruct s as [ll sl q ws rs]. unfold step.
  cbn [lines_left sentinels_left queue workers results].
  destruct t as [i|].
  - destruct (ws !! i) as [[local|local|]|]; try discriminate.
    + destruct q as [|[line|] q]; [discriminate| |]; intros [= <-]; simpl;
        now rewrite length_insert.
    + intros [= <-]. simpl. now rewrite length_insert.
  - destruct (has_room maxsize q); [|discriminate].
    destruct ll as [|line rest]; [destruct sl as [|n]; [discriminate|]|];
      intros [= <-]; reflexivity.
Qed.

Lemma workers_run (tokenize : string -> list string) (maxsize : Z)
    (schedule : list (option nat)) (s s' : pool) :
  run tokenize maxsize schedule s = Some s' -> length (workers s') = length (workers s).
Proof.
  revert s. induction schedule as [|t rest IH]; intros s; simpl.
  - now intros [= <-].
  - destruct (step tokenize maxsize t s) as [s1|] eqn:Hstep; [|discriminate].
    intros H. rewrite (IH _ H). eapply workers_step; eassumption.
Qed.

(** In an orderly state with at least one worker some thread can move,
    unless the pool is joined. *)
Lemma orderly_progress (tokenize : string -> list string) (maxsize : Z) (s : pool) :
  orderly s -> (0 < length (workers s))%nat ->
  joined s \/ exists t s', step tokenize maxsize t s = Some s'.
Proof.
  destruct s as [ll sl q ws rs]. unfold orderly, joined.
  cbn [lines_left sentinels_left queue workers results].
  intros (ls & k & Hq & Hcount & Hlines & Hls) Hws.
  destruct q as [|x q].
  - (* the queue is empty: the producer moves if it has anything to put *)
    destruct ll as [|line rest].
    2:{ right. exists None. eexists. apply step_put_line. }
    destruct sl as [|n].
    2:{ right. exists None. eexists. apply step_put_sentinel. }
    assert (Hk : k = 0%nat).
    { destruct ls; [|discriminate]. destruct k; [reflexivity | discriminate]. }
    subst k.
    destruct (Nat.eq_dec (length (List.filter active ws)) 0%nat) as [Hz|Hnz].
    + left. repeat split; try reflexivity.
      eapply Forall_impl; [apply (count_zero active); exact Hz|].
      intros [local|local|]; simpl; [discriminate | discriminate | reflexivity].
    + right. destruct (count_positive active ws ltac:(lia)) as (i & w & Hi & Hw).
      destruct w as [local|local|];
        [|exists (Some i); eexists; exact (step_store _ _ _ _ _ _ _ _ local Hi)
         |discriminate].
      exfalso.
      pose proof (count_zero looping ws ltac:(lia)) as Hnone.
      rewrite Forall_forall in Hnone.
      specialize (Hnone (Running local) (list_elem_of_lookup_2 _ _ _ Hi)).
      discriminate Hnone.
  - (* the queue is not empty: a worker in its loop takes the head *)
    right.
    assert (Hloop : (0 < length (List.filter looping ws))%nat).
    { destruct (map_Some_replicate_head _ _ _ _ Hq)
        as [(line & ls' & -> & -> & _) | (k' & -> & -> & -> & _)].
      - specialize (Hls ltac:(discriminate)). lia.
      - lia. }
    destruct (count_positive looping ws Hloop) as (i & w & Hi & Hw).
    destruct w as [local|local|]; try discriminate.
    exists (Some i). destruct x as [line|]; eexists.
    + exact (step_take_line _ _ _ _ _ _ _ _ _ local Hi).
    + exact (step_take_sentinel _ _ _ _ _ _ _ _ local Hi).
Qed.

(** *** The tokenizer *)

Lemma casefold_char_folded (a : ascii) :
  is_word_char a = true -> folded_word_char (casefold_char a) = true.
Proof.
  destruct a as [[] [] [] [] [] [] [] []]; vm_compute; congruence.
Qed.

Lemma append_cons (a : ascii) (s1 s2 : string) :
  String a s1 +:+ s2 = String a (s1 +:+ s2).
Proof. reflexivity. Qed.

Lemma append_nil (s2 : string) : EmptyString +:+ s2 = s2.
Proof. reflexivity. Qed.

Lemma casefold_app (s1 s2 : string) :
  casefold (s1 +:+ s2) = casefold s1 +:+ casefold s2.
Proof.
  induction s1 as [|a s1 IH]; [reflexivity|].
  rewrite append_cons. simpl. now rewrite append_cons, IH.
Qed.

Lemma casefold_chars (w : string) (a : ascii) :
  In a (list_ascii_of_string (casefold w)) ->
  exists a0, In a0 (list_ascii_of_string w) /\ a = casefold_char a0.
Proof.
  induction w as [|b w IH]; simpl; [intros []|].
  intros [<- | H]; [exists b; auto|].
  destruct (IH H) as (a0 & H0 & ->). exists a0. auto.
Qed.

Lemma chars_snoc (cur : string) (a b : ascii) :
  In b (list_ascii_of_string (cur +:+ String a EmptyString)) ->
  In b (list_ascii_of_string cur) \/ b = a.
Proof.
  induction cur as [|c cur IH].
  - rewrite append_nil. simpl. intros [<- | []]. now right.
  - rewrite append_cons. simpl. intros [<- | H]; [left; now left|].
    destruct (IH H) as [H1 | ->]; [left; now right | now right].
Qed.

Lemma append_snoc (cur rest : string) (a : ascii) :
  (cur +:+ String a EmptyString) +:+ rest = cur +:+ String a rest.
Proof.
  induction cur as [|c cur IH]; [reflexivity|].
  now rewrite !append_cons, IH.
Qed.

Lemma append_empty (s1 : string) : s1 +:+ EmptyString = s1.
Proof.
  induction s1 as [|c s1 IH]; [reflexivity|]. now rewrite append_cons, IH.
Qed.

(** The runs that findall reads: none is empty, all are made of word
    characters, and together they are the word characters of the text. *)
Lemma findall_words_spec (text : string) :
  forall cur : string,
    (forall a, In a (list_ascii_of_string cur) -> is_word_char a = true) ->
    Forall (fun w => w <> EmptyString /\
                     forall a, In a (list_ascii_of_string w) -> is_word_char a = true)
           (findall_words text cur) /\
    String.concat EmptyString (findall_words text cur) = cur +:+ word_chars text.
Proof.
  induction text as [|a text IH]; intros cur Hcur; simpl.
  - destruct (decide (cur = EmptyString)) as [->|Hne].
    + split; [constructor | reflexivity].
    + split; [constructor; [auto | constructor]|].
      simpl. now rewrite append_empty.
  - destruct (is_word_char a) eqn:Ha.
    + destruct (IH (cur +:+ String a EmptyString)) as [H1 H2].
      { intros b Hb. destruct (chars_snoc _ _ _ Hb) as [H | ->]; auto. }
      split; [exact H1|]. rewrite H2. apply append_snoc.
    + destruct (IH EmptyString) as [H1 H2]; [intros b []|].
      destruct (decide (cur = EmptyString)) as [->|Hne].
      * split; [exact H1 | exact H2].
      * split; [constructor; auto|].
        rewrite append_nil in H2.
        destruct (findall_words text EmptyString) as [|w ws] eqn:Hf.
        -- simpl in H2. cbn [String.concat]. rewrite <- H2. now rewrite append_empty.
        -- change (String.concat EmptyString (cur :: w :: ws))
             with (cur +:+ EmptyString +:+ String.concat EmptyString (w :: ws)).
           now rewrite H2, append_nil.
Qed.

Lemma concat_map_casefold (ws : list string) :
  String.concat EmptyString (map casefold ws) = casefold (String.concat EmptyString ws).
Proof.
  induction ws as [|w ws IH]; [reflexivity|].
  destruct ws as [|w' ws]; [reflexivity|].
  change (String.concat EmptyString (map casefold (w :: w' :: ws)))
    with (casefold w +:+ (EmptyString +:+ String.concat EmptyString (map casefold (w' :: ws)))).
  change (String.concat EmptyString (w :: w' :: ws))
    with (w +:+ (EmptyString +:+ String.concat EmptyString (w' :: ws))).
  rewrite IH. simpl. now rewrite casefold_app.
Qed.

End PoolMore.

(** X14.  split_range cuts "nearly equal" chunks: for parts >= 1 it
    returns min(parts, n) chunks, n being the size of the range, so never
    an empty list; the chunks follow one another from the smaller bound
    on; every chunk holds n // k or n // k + 1 integers, k being the
    number of chunks; the bounds may be given in either order; and
    parts <= 0 raises ValueError. *)
Theorem split_range_chunks_are_balanced (lo hi parts : Z) :
  (parts <= 0 -> L12.split_range lo hi parts = Raise ValueError) /\
  (1 <= parts ->
   exists ranges,
     L12.split_range lo hi parts = Ok ranges /\
     L12.split_range hi lo parts = Ok ranges /\
     ranges <> [] /\
     Z.of_nat (length ranges) = Z.min parts (Z.abs (hi - lo) + 1) /\
     L12.consecutive (Z.min lo hi) ranges /\
     Forall (fun c =>
               (Z.abs (hi - lo) + 1) / Z.of_nat (length ranges)
               <= snd c - fst c + 1
               <= (Z.abs (hi - lo) + 1) / Z.of_nat (length ranges) + 1) ranges).
Proof.
  split.
  - intros Hp. unfold L12.split_range. destruct (Z.leb_spec parts 0); [reflexivity | lia].
  - intros Hp.
    assert (Hsym : L12.split_range hi lo parts = L12.split_range lo hi parts).
    { unfold L12.split_range. destruct (parts <=? 0); [reflexivity|].
      destruct (Z.eq_dec lo hi) as [->|Hne]; [reflexivity|].
      destruct (Z.ltb_spec hi lo) as [H1|H1], (Z.ltb_spec lo hi) as [H2|H2];
        try lia; cbv zeta;
        repeat match goal with
               | |- context [Z.ltb ?a ?b] => destruct (Z.ltb_spec a b)
               end; try lia; reflexivity. }
    rewrite Hsym. unfold L12.split_range.
    destruct (Z.leb_spec parts 0); [lia|].
    set (lo' := if hi <? lo then hi else lo).
    set (hi' := if hi <? lo then lo else hi).
    assert (Hlo : lo' = Z.min lo hi) by (unfold lo'; destruct (Z.ltb_spec hi lo); lia).
    assert (Hhi : hi' = Z.max lo hi) by (unfold hi'; destruct (Z.ltb_spec hi lo); lia).
    destruct (Z.ltb_spec hi' lo'); [lia|].
    assert (Hn : hi' - lo' + 1 = Z.abs (hi - lo) + 1) by lia.
    rewrite Hn. set (n := Z.abs (hi - lo) + 1). set (k := Z.min parts n).
    assert (Hk : 1 <= k <= n) by (unfold k, n; lia).
    eexists. split; [reflexivity|]. split; [reflexivity|].
    assert (Hlen : Z.of_nat (length (L12.chunks (n / k) (n mod k) (Z.to_nat k) 0 lo')) = k).
    { rewrite length_chunks. lia. }
    split; [|split; [exact Hlen|split]].
    + intros Hnil. rewrite Hnil in Hlen. simpl in Hlen. lia.
    + rewrite <- Hlo. apply chunks_consecutive.
    + rewrite Hlen. apply chunks_sizes.
Qed.

Lemma split_range_chunks_are_balanced_witness :
  L12.split_range 1 10 3 = Ok [(1, 4); (5, 7); (8, 10)] /\
  L12.split_range 10 1 3 = Ok [(1, 4); (5, 7); (8, 10)] /\
  L12.split_range 5 5 4 = Ok [(5, 5)] /\
  L12.split_range 1 10 0 = Raise ValueError.
Proof.
  destruct (split_range_chunks_are_balanced 1 10 3) as [_ H3].
  destruct (H3 ltac:(lia)) as (ranges & H1 & H2 & _).
  assert (Hr : ranges = [(1, 4); (5, 7); (8, 10)]).
  { vm_compute in H1. injection H1 as <-. reflexivity. }
  subst ranges.
  destruct (split_range_chunks_are_balanced 1 10 0) as [H0 _].
  split; [exact H1|]. split; [exact H2|]. split; [reflexivity|].
  apply H0. lia.
Defined.

(** X15.  threaded_word_count cannot deadlock: with at least one worker,
    in every state that the producer and the workers can reach, under any
    schedule, any tokenizer and any queue capacity, either everything is
    done (all lines and sentinels were put and taken, every worker has
    stored its Counter and exited, so that q.join() and the t.join()
    calls return) or some thread can make its next step. *)
Theorem word_count_pool_never_deadlocks (tokenize : string -> list string)
    (maxsize : Z) (threads : nat) (lines : list string)
    (schedule : list (option nat)) (s : L12.pool) :
  (0 < threads)%nat ->
  L12.run tokenize maxsize schedule (L12.start lines threads) = Some s ->
  L12.joined s \/ exists thread s', L12.step tokenize maxsize thread s = Some s'.
Proof.
  intros Hthreads Hrun. apply orderly_progress.
  - eapply orderly_run; [apply orderly_start | exact Hrun].
  - rewrite (workers_run _ _ _ _ _ Hrun). unfold L12.start. simpl.
    now rewrite length_replicate.
Qed.

Lemma word_count_pool_never_deadlocks_witness :
  exists s,
    L12.run L12.tokenize_to_words 1 [None; Some 1%nat; None]
      (L12.start ["One two TWO"; "Three two!"]%string 2) = Some s /\
    (L12.joined s \/
     exists thread s', L12.step L12.tokenize_to_words 1 thread s = Some s').
Proof.
  eexists. split; [vm_compute; reflexivity|].
  apply (word_count_pool_never_deadlocks L12.tokenize_to_words 1 2
           ["One two TWO"; "Three two!"]%string [None; Some 1%nat; None]).
  - lia.
  - vm_compute. reflexivity.
Defined.

(** X16.  threaded_word_count terminates under every schedule: each
    atomic step of the producer or of a worker uses up exactly one of the
    2 * lines + 3 * threads steps there are to make (a put and a take per
    line and per sentinel, a store per worker), so no run is longer than
    that, and a run has reached the joined state exactly when it has made
    that many steps. *)
Theorem word_count_pool_terminates (tokenize : string -> list string)
    (maxsize : Z) (threads : nat) (lines : list string)
    (schedule : list (option nat)) (s : L12.pool) :
  L12.run tokenize maxsize schedule (L12.start lines threads) = Some s ->
  (length schedule + L12.work_left s = 2 * length lines + 3 * threads)%nat /\
  (L12.joined s <-> length schedule = (2 * length lines + 3 * threads)%nat).
Proof.
  intros Hrun.
  pose proof (work_left_run _ _ _ _ _ Hrun) as H.
  rewrite work_left_start in H.
  split; [lia|]. rewrite joined_work_left. lia.
Qed.

Lemma word_count_pool_terminates_witness :
  exists s,
    L12.run L12.tokenize_to_words 10000
      [None; None; Some 0%nat; Some 1%nat; None; None;
       Some 1%nat; Some 0%nat; Some 0%nat; Some 1%nat]
      (L12.start ["One two TWO"; "Three two!"]%string 2) = Some s /\
    L12.joined s.
Proof.
  eexists. split; [vm_compute; reflexivity|].
  apply (word_count_pool_terminates L12.tokenize_to_words 10000 2
           ["One two TWO"; "Three two!"]%string
           [None; None; Some 0%nat; Some 1%nat; None; None;
            Some 1%nat; Some 0%nat; Some 0%nat; Some 1%nat]).
  - vm_compute. reflexivity.
  - reflexivity.
Defined.

(** X17.  tokenize_to_words on ASCII text: no token is empty; every
    character of a token is a letter a-z, a digit or the underscore (no
    upper-case letter survives the folding); and the tokens, put together,
    are the text without its non-word characters, folded to lower case,
    so no word character is lost or invented. *)
Theorem tokens_are_folded_words (text : string) :
  L12.ascii_text text ->
  Forall (fun w => w <> EmptyString /\
                   forall a, In a (list_ascii_of_string w) ->
                             L12.folded_word_char a = true)
         (L12.tokenize_to_words text) /\
  String.concat EmptyString (L12.tokenize_to_words text)
  = L12.casefold (L12.word_chars text).
Proof.
  intros _. unfold L12.tokenize_to_words.
  destruct (findall_words_spec text EmptyString) as [Hall Hcat]; [intros a []|].
  split.
  - apply Forall_forall. intros w Hw.
    apply list_elem_of_fmap in Hw as (w0 & -> & Hw0).
    rewrite Forall_forall in Hall. destruct (Hall w0 Hw0) as [Hne Hchars].
    split.
    + destruct w0; [contradiction | discriminate].
    + intros a Ha. destruct (casefold_chars _ _ Ha) as (a0 & Ha0 & ->).
      apply casefold_char_folded. auto.
  - rewrite concat_map_casefold, Hcat. reflexivity.
Qed.

Lemma tokens_are_folded_words_witness :
  L12.tokenize_to_words "Hello, world! 1+1=2" = ["hello"; "world"; "1"; "1"; "2"]%string /\
  String.concat EmptyString (L12.tokenize_to_words "Hello, world! 1+1=2")
  = L12.casefold (L12.word_chars "Hello, world! 1+1=2").
Proof.
  split; [vm_compute; reflexivity|].
  apply (tokens_are_folded_words "Hello, world! 1+1=2").
  intros a Ha. simpl in Ha.
  repeat (destruct Ha as [<- | Ha]; [vm_compute; lia|]).
  destruct Ha.
Defined.

(** ** The Roster table: reading back, updating, deleting (lesson 15) *)

Section RosterMore.

Import L15.




Lemma find_map {A} (f : A -> bool) (h : A -> A) (l : list A) :
  (forall x, f (h x) = f x) ->
  List.find f (map h l) = option_map h (List.find f l).
Proof.
  intros Hh. induction l as [|x l IH]; simpl; [reflexivity|].
  rewrite Hh. destruct (f x); [reflexivity | exact IH].
Qed.

Lemma find_some_In {A} (f : A -> bool) (l : list A) (x : A) :
  List.find f l = Some x -> In x l /\ f x = true.
Proof. apply List.find_some. Qed.

Lemma fetch_one_found (matching : Row -> bool) (db : RosterDatabase)
    (rows : list Row) (r : Row) :
  conn_open db = true -> roster db = Some rows -> List.find matching rows = Some r ->
  fetch_one matching db
  = (match from_row r with Ok m => Ok (Some m) | Raise e => Raise e end, db).
Proof.
  intros Hopen Hroster Hfind. unfold fetch_one. rewrite Hopen, Hroster, Hfind.
  now destruct (from_row r).
Qed.


(** The only exception of the validation is ValueError, and a row that is
    read back has the fields of the row. *)
Lemma from_row_inv (r : Row) :
  from_row r = Ok (mkMember (row_name r) (row_species r) (row_age r) (Some (row_id r))) \/
  from_row r = Raise ValueError.
Proof.
  unfold from_row, RosterMember_new.
  repeat match goal with
         | |- context [if ?b then _ else _] => destruct b; [now right|]
         end.
  now left.
Qed.

Lemma map_result_raise (rows : list Row) (r : Row) :
  In r rows -> from_row r = Raise ValueError ->
  map_result from_row rows = Raise ValueError.
Proof.
  induction rows as [|x rows IH]; simpl; [intros []|].
  intros [-> | Hin] Hr.
  - now rewrite Hr.
  - destruct (from_row_inv x) as [-> | ->]; [|reflexivity].
    now rewrite (IH Hin Hr).
Qed.

Lemma fetch_one_snd (matching : Row -> bool) (db : RosterDatabase) :
  snd (fetch_one matching db) = db.
Proof.
  unfold fetch_one. destruct (conn_open db); [|reflexivity].
  destruct (roster db) as [rows|]; [|reflexivity].
  destruct (List.find matching rows) as [r|]; [destruct (from_row r)|]; reflexivity.
Qed.

(** What a call leaves behind: the database as it was, or the table with
    rows changed or removed, the sequence untouched. *)
Lemma update_state (member_id : Z) (u : Updates) (db : RosterDatabase) :
  snd (update member_id u db) = db \/
  snd (update member_id u db)
  = mkDB (conn_open db)
         (option_map (map (fun r => if row_id r =? member_id
                                    then apply_updates u r else r)) (roster db))
         (sequence db).
Proof.
  unfold update, mbind, M_bind, bind, throw, ret, read_by_id.
  pose proof (fetch_one_snd (fun r => row_id r =? member_id) db) as Hs.
  destruct (fetch_one (fun r => row_id r =? member_id) db) as [[[m|]|e] db1];
    simpl in Hs; subst db1; [|now left|now left].
  destruct (negb (bool_decide (other_fields u = []))); [now left|].
  destruct (no_updates u); [now left|].
  destruct (negb (fits_int64 (default 0 (new_age u)))); [now left|].
  right. cbv beta iota.
  match goal with
  | |- context [fetch_one ?f ?d] =>
      pose proof (fetch_one_snd f d) as Hs';
      destruct (fetch_one f d) as [[[m'|]|e'] db2]
  end; simpl in Hs'; subst db2; reflexivity.
Qed.

Lemma delete_state (member_id : Z) (db : RosterDatabase) :
  snd (delete member_id db) = db \/
  snd (delete member_id db)
  = mkDB (conn_open db)
         (option_map (List.filter (fun r => negb (row_id r =? member_id))) (roster db))
         (sequence db).
Proof.
  unfold delete, mbind, M_bind, bind, throw, ret.
  pose proof (fetch_one_snd (fun r => row_id r =? member_id) db) as Hs.
  unfold read_by_id.
  destruct (fetch_one (fun r => row_id r =? member_id) db) as [[[m|]|e] db1];
    simpl in Hs; subst db1; [now right | now left | now left].
Qed.

Lemma sequence_after (c : call) (db : RosterDatabase) :
  sequence db <= sequence (db_after c db).
Proof.
  destruct c as [member | member_id u | member_id]; simpl.
  - unfold create. destruct (conn_open db); [|simpl; lia].
    destruct (roster db) as [rows|]; [|simpl; lia]. simpl.
    pose proof (next_rowid_fresh (sequence db) rows) as [H _]. lia.
  - destruct (update_state member_id u db) as [-> | ->]; simpl; lia.
  - destruct (delete_state member_id db) as [-> | ->]; simpl; lia.
Qed.

Lemma recorded_after (c : call) (db : RosterDatabase) :
  (forall rows, roster db = Some rows -> Forall (fun r => row_id r <= sequence db) rows) ->
  forall rows, roster (db_after c db) = Some rows ->
               Forall (fun r => row_id r <= sequence (db_after c db)) rows.
Proof.
  intros Hdb.
  destruct c as [member | member_id u | member_id]; simpl.
  - unfold create. destruct (conn_open db); [|exact Hdb].
    destruct (roster db) as [rows|] eqn:Hroster;
      [|simpl; intros rows'; rewrite Hroster; discriminate].
    simpl. intros rows' [= <-].
    pose proof (next_rowid_fresh (sequence db) rows) as [_ H].
    apply Forall_app. split.
    + eapply Forall_impl; [exact H|]. simpl. intros; lia.
    + constructor; [simpl; lia | constructor].
  - destruct (update_state member_id u db) as [-> | ->]; [exact Hdb|]. simpl.
    destruct (roster db) as [rows|] eqn:Hroster; [|discriminate].
    simpl. intros rows' [= <-]. specialize (Hdb rows eq_refl).
    rewrite Forall_map. eapply Forall_impl; [exact Hdb|].
    intros r Hr. simpl. destruct (row_id r =? member_id); simpl; exact Hr.
  - destruct (delete_state member_id db) as [-> | ->]; [exact Hdb|]. simpl.
    destruct (roster db) as [rows|] eqn:Hroster; [|discriminate].
    simpl. intros rows' [= <-]. specialize (Hdb rows eq_refl).
    rewrite Forall_forall in Hdb |- *. intros r Hr.
    apply list_elem_of_In, filter_In in Hr as [Hr _].
    apply Hdb. now apply list_elem_of_In.
Qed.

End RosterMore.





(** X20.  Ids are never given twice: in any session of create, update
    and delete calls on a database whose AUTOINCREMENT sequence has
    recorded every rowid of the table, the ids that the create calls
    return are strictly increasing and larger than every id recorded
    before the session, so the id of a deleted member is not reused. *)
Theorem created_ids_never_repeat (session : list L15.call) (db : L15.RosterDatabase) :
  (forall rows, L15.roster db = Some rows ->
                Forall (fun r => L15.row_id r <= L15.sequence db) rows) ->
  StronglySorted Z.lt (L15.created_ids session db) /\
  Forall (fun i => L15.sequence db < i) (L15.created_ids session db).
Proof.
  revert db. induction session as [|c session IH]; intros db Hdb; simpl.
  - split; constructor.
  - destruct (IH (L15.db_after c db) (recorded_after c db Hdb)) as [IHs IHf].
    pose proof (sequence_after c db) as Hseq.
    assert (Hrest : Forall (fun i => L15.sequence db < i)
                           (L15.created_ids session (L15.db_after c db))).
    { eapply Forall_impl; [exact IHf|]. simpl. intros; lia. }
    destruct c as [member | member_id u | member_id]; simpl in *; try (split; assumption).
    unfold L15.create in *.
    destruct (L15.conn_open db); [|simpl; split; assumption].
    destruct (L15.roster db) as [rows|]; [|simpl; split; assumption].
    simpl in *.
    pose proof (next_rowid_fresh (L15.sequence db) rows) as [Hnew _].
    split.
    + constructor; [exact IHs | exact IHf].
    + constructor; [exact Hnew | exact Hrest].
Qed.

Lemma created_ids_never_repeat_witness :
  let db := snd (L15.create_table L15.connect) in
  let worf := L15.mkMember "Worf" "Klingon" 40 None in
  L15.created_ids [L15.Create worf; L15.Create worf; L15.Delete 2; L15.Create worf] db
  = [1; 2; 3] /\
  StronglySorted Z.lt
    (L15.created_ids [L15.Create worf; L15.Create worf; L15.Delete 2; L15.Create worf] db).
Proof.
  intros db worf. split; [reflexivity|].
  apply (created_ids_never_repeat _ db).
  intros rows [= <-]. constructor.
Defined.

(** X21.  update commits before it validates: on an open database, for
    the id of a stored member, known field names, at least one field and
    an age that SQLite can hold, the UPDATE is executed and committed
    first and the row is validated only when it is read back.  If the
    new row passes the validation, update returns the updated member,
    which read_by_id then returns too.  If it does not (a blank name, an
    age outside 0..1000, ...), update raises ValueError but the invalid
    row has been stored: read_by_id on the id and read_all raise
    ValueError from then on. *)
Theorem update_commits_before_validating
    (db : L15.RosterDatabase) (rows : list L15.Row) (member_id : Z)
    (u : L15.Updates) (r : L15.Row) :
  L15.conn_open db = true -> L15.roster db = Some rows ->
  List.find (fun r => L15.row_id r =? member_id) rows = Some r ->
  L15.readable r ->
  L15.other_fields u = [] -> L15.no_updates u = false ->
  L15.fits_int64 (default 0 (L15.new_age u)) = true ->
  let db' := L15.mkDB true
               (Some (map (fun r => if L15.row_id r =? member_id
                                    then L15.apply_updates u r else r) rows))
               (L15.sequence db) in
  (forall m, L15.from_row (L15.apply_updates u r) = Ok m ->
     L15.update member_id u db = (Ok m, db') /\
     L15.read_by_id member_id db' = (Ok (Some m), db')) /\
  (forall e, L15.from_row (L15.apply_updates u r) = Raise e ->
     L15.update member_id u db = (Raise ValueError, db') /\
     L15.read_by_id member_id db' = (Raise ValueError, db') /\
     L15.read_all db' = (Raise ValueError, db')).
Proof.
  intros Hopen Hroster Hfind [m0 Hm0] Hfields Hsome Hage db'.
  set (upd := fun r => if L15.row_id r =? member_id then L15.apply_updates u r else r).
  assert (Hfind' : List.find (fun r => L15.row_id r =? member_id) (map upd rows)
                   = Some (L15.apply_updates u r)).
  { rewrite find_map.
    - rewrite Hfind. simpl. unfold upd.
      apply find_some_In in Hfind as [_ Hid]. now rewrite Hid.
    - intros x. unfold upd. destruct (L15.row_id x =? member_id) eqn:Hx; [|exact Hx].
      simpl. exact Hx. }
  assert (Hread : L15.read_by_id member_id db'
                  = (match L15.from_row (L15.apply_updates u r) with
                     | Ok m => Ok (Some m)
                     | Raise e => Raise e
                     end, db')).
  { unfold L15.read_by_id. now apply (fetch_one_found _ db' (map upd rows)). }
  assert (Hupdate : L15.update member_id u db
                    = (match L15.from_row (L15.apply_updates u r) with
                       | Ok m => Ok m
                       | Raise e => Raise e
                       end, db')).
  { assert (Hread0 : L15.read_by_id member_id db = (Ok (Some m0), db)).
    { unfold L15.read_by_id.
      now rewrite (fetch_one_found _ db rows r Hopen Hroster Hfind), Hm0. }
    unfold L15.update, mbind, M_bind, bind, throw, ret.
    rewrite Hread0. cbv beta iota.
    rewrite Hfields, Hsome, Hage.
    rewrite bool_decide_eq_true_2 by reflexivity.
    cbn [negb]. cbv beta iota. rewrite Hopen, Hroster. cbn [option_map].
    fold db'. rewrite Hread.
    now destruct (L15.from_row (L15.apply_updates u r)). }
  split.
  - intros m Hm. rewrite Hupdate, Hread, Hm. auto.
  - intros e He.
    destruct (from_row_inv (L15.apply_updates u r)) as [H | H];
      [rewrite H in He; discriminate|].
    rewrite Hupdate, Hread, H. split; [reflexivity|]. split; [reflexivity|].
    unfold L15.read_all. simpl. f_equal.
    apply (map_result_raise _ (L15.apply_updates u r)); [|exact H].
    apply find_some_In in Hfind' as [Hin _].
    apply list_elem_of_In. rewrite merge_sort_Permutation. now apply list_elem_of_In.
Qed.

Lemma update_commits_before_validating_witness :
  let db := snd (L15.create (L15.mkMember "Old Name" "Human" 30 None)
                   (snd (L15.create_table L15.connect))) in
  (exists db',
     L15.update 1 (L15.mkUpdates (Some "New Name"%string) None (Some 31) []) db
     = (Ok (L15.mkMember "New Name" "Human" 31 (Some 1)), db')) /\
  (exists db',
     L15.update 1 (L15.mkUpdates (Some " "%string) None None []) db
     = (Raise ValueError, db') /\
     L15.roster db' = Some [L15.mkRow 1 " " "Human" 30] /\
     L15.read_all db' = (Raise ValueError, db')).
Proof.
  intros db. split.
  - destruct (update_commits_before_validating db [L15.mkRow 1 "Old Name" "Human" 30] 1
                (L15.mkUpdates (Some "New Name"%string) None (Some 31) [])
                (L15.mkRow 1 "Old Name" "Human" 30)) as [Hok _];
      try reflexivity.
    + eexists. reflexivity.
    + destruct (Hok (L15.mkMember "New Name" "Human" 31 (Some 1))) as [H _];
        [reflexivity|].
      eexists. exact H.
  - destruct (update_commits_before_validating db [L15.mkRow 1 "Old Name" "Human" 30] 1
                (L15.mkUpdates (Some " "%string) None None [])
                (L15.mkRow 1 "Old Name" "Human" 30)) as [_ Hbad];
      try reflexivity.
    + eexists. reflexivity.
    + destruct (Hbad ValueError) as (H1 & _ & H3); [reflexivity|].
      eexists. split; [exact H1|]. split; [reflexivity | exact H3].
Defined.

(** ** The linked list, the stack and the queue (lesson 9) *)

Section LinkedListFacts.

Import LinkedList.

Lemma segment_app (h : list LLNode) (c1 c2 : list (nat * Z)) (cur stop : option nat) :
  segment h cur (c1 ++ c2) stop <->
  exists mid, segment h cur c1 mid /\ segment h mid c2 stop.
Proof.
  revert cur. induction c1 as [|[a v] c1 IH]; intros cur; simpl.
  - split; [intros H; exists cur; auto | intros (mid & -> & H); exact H].
  - split.
    + intros (-> & nx & Ha & H). apply IH in H as (mid & H1 & H2).
      exists mid. split; [|exact H2]. split; [reflexivity|]. exists nx. auto.
    + intros (mid & (-> & nx & Ha & H1) & H2). split; [reflexivity|].
      exists nx. split; [exact Ha|]. apply IH. exists mid. auto.
Qed.

(** A segment only depends on the nodes it goes through. *)
Lemma segment_ext (h h' : list LLNode) (cells : list (nat * Z)) (cur stop : option nat) :
  (forall a, In a (map fst cells) -> (h' !! a) = (h !! a)) ->
  segment h cur cells stop -> segment h' cur cells stop.
Proof.
  revert cur. induction cells as [|[a v] cells IH]; intros cur Hsame; simpl; [auto|].
  intros (-> & nx & Ha & H). split; [reflexivity|]. exists nx. split.
  - rewrite Hsame; [exact Ha | now left].
  - apply IH; [|exact H]. intros b Hb. apply Hsame. now right.
Qed.

Lemma segment_bound (h : list LLNode) (cells : list (nat * Z)) (cur stop : option nat) :
  segment h cur cells stop -> forall a, In a (map fst cells) -> (a < length h)%nat.
Proof.
  revert cur. induction cells as [|[a v] cells IH]; intros cur; simpl; [intros _ b []|].
  intros (-> & nx & Ha & H) b [<- | Hb].
  - now apply lookup_lt_Some in Ha.
  - eapply IH; eassumption.
Qed.

Lemma segment_grow (h : list LLNode) (n : LLNode) (cells : list (nat * Z))
    (cur stop : option nat) :
  segment h cur cells stop -> segment (h ++ [n]) cur cells stop.
Proof.
  intros H. apply (segment_ext h); [|exact H].
  intros a Ha. apply lookup_app_l. eapply segment_bound; eassumption.
Qed.

Lemma segment_set_next (h : list LLNode) (p : nat) (t : option nat)
    (cells : list (nat * Z)) (cur stop : option nat) :
  ~ In p (map fst cells) ->
  segment h cur cells stop -> segment (set_next p t h) cur cells stop.
Proof.
  intros Hp H. apply (segment_ext h); [|exact H].
  intros a Ha. unfold set_next. apply list_lookup_alter_ne. congruence.
Qed.

Lemma lookup_set_next (h : list LLNode) (p : nat) (t : option nat) (v : Z)
    (nx : option nat) :
  (h !! p) = Some (mkNode v nx) -> (set_next p t h !! p) = Some (mkNode v t).
Proof.
  intros H. unfold set_next. rewrite list_lookup_alter_eq, H. reflexivity.
Qed.

Lemma iter_from_segment (h : list LLNode) (cells : list (nat * Z)) :
  forall (fuel : nat) (cur : option nat),
    segment h cur cells None -> (length cells < fuel)%nat ->
    iter_from fuel h cur = Some (map snd cells).
Proof.
  induction cells as [|[a v] cells IH]; intros fuel cur; simpl.
  - intros -> _. now destruct fuel.
  - intros (-> & nx & Ha & H) Hfuel. destruct fuel as [|fuel]; [lia|].
    simpl. rewrite Ha. simpl. rewrite (IH fuel nx H) by lia. reflexivity.
Qed.

Lemma NoDup_bounded_length (l : list nat) (n : nat) :
  NoDup l -> (forall a, In a l -> (a < n)%nat) -> (length l <= n)%nat.
Proof.
  intros Hnd Hb.
  assert (H : (length l <= length (seq 0 n))%nat).
  { apply NoDup_incl_length; [now apply NoDup_ListNoDup|].
    intros a Ha. apply in_seq. specialize (Hb a Ha). lia. }
  now rewrite length_seq in H.
Qed.

Lemma holds_length (l : LinkedList) (cells : list (nat * Z)) :
  holds l cells -> (length cells <= length (heap l))%nat.
Proof.
  intros (Hseg & Hnd & _). rewrite <- (length_map fst cells).
  apply NoDup_bounded_length; [exact Hnd|]. eapply segment_bound; eassumption.
Qed.

Lemma to_list_holds (l : LinkedList) (cells : list (nat * Z)) :
  holds l cells -> to_list l = Some (map snd cells).
Proof.
  intros H. unfold to_list. apply iter_from_segment; [apply H|].
  pose proof (holds_length l cells H). lia.
Qed.

Lemma holds_init : holds init [].
Proof. split; [reflexivity|]. split; [constructor | reflexivity]. Qed.

Lemma last_None_nil {A} (l : list A) : last l = None -> l = [].
Proof.
  destruct l as [|x l] using rev_ind; [reflexivity|].
  rewrite last_snoc. discriminate.
Qed.

Lemma last_Some_snoc {A} (l : list A) (x : A) :
  last l = Some x -> exists l0, l = l0 ++ [x].
Proof.
  destruct l as [|y l _] using rev_ind; [discriminate|].
  rewrite last_snoc. intros [= ->]. eauto.
Qed.

Lemma map_fst_snoc_inv (cells : list (nat * Z)) (l0 : list nat) (t : nat) :
  map fst cells = l0 ++ [t] ->
  exists cells0 tv, cells = cells0 ++ [(t, tv)] /\ map fst cells0 = l0.
Proof.
  destruct cells as [|[a v] cells _] using rev_ind.
  - destruct l0; discriminate.
  - rewrite map_app. simpl. intros H. apply app_inj_tail in H as [H ->].
    exists cells, v. auto.
Qed.

Lemma fresh_address (l : LinkedList) (cells : list (nat * Z)) :
  holds l cells -> ~ In (length (heap l)) (map fst cells).
Proof.
  intros (Hseg & _) Hin. pose proof (segment_bound _ _ _ _ Hseg _ Hin). lia.
Qed.

Lemma holds_insert_head (v : Z) (l : LinkedList) (cells : list (nat * Z)) :
  holds l cells -> holds (insert_head v l) ((length (heap l), v) :: cells).
Proof.
  intros H. pose proof (fresh_address l cells H) as Hfresh.
  destruct H as (Hseg & Hnd & Htail).
  assert (Hgoal : forall t', t' = last (length (heap l) :: map fst cells) ->
            holds (mkList (heap l ++ [mkNode v (head l)]) (Some (length (heap l))) t')
                  ((length (heap l), v) :: cells)).
  { intros t' ->. split; [|split; [|reflexivity]].
    - simpl. split; [reflexivity|]. exists (head l). split.
      + now rewrite lookup_app_r, Nat.sub_diag by lia.
      + now apply segment_grow.
    - simpl. apply NoDup_cons. split; [|exact Hnd].
      rewrite list_elem_of_In. exact Hfresh. }
  unfold insert_head. destruct (tail l) as [t|] eqn:Ht; apply Hgoal.
  - symmetry in Htail. destruct (last_Some_snoc _ _ Htail) as [l0 Hl0].
    rewrite Hl0. rewrite app_comm_cons, last_snoc. reflexivity.
  - symmetry in Htail. apply last_None_nil in Htail. rewrite Htail. reflexivity.
Qed.

Lemma holds_insert_tail (v : Z) (l : LinkedList) (cells : list (nat * Z)) :
  holds l cells -> holds (insert_tail v l) (cells ++ [(length (heap l), v)]).
Proof.
  intros H. pose proof (fresh_address l cells H) as Hfresh.
  destruct H as (Hseg & Hnd & Htail).
  set (n := length (heap l)) in *.
  assert (Hnd' : NoDup (map fst (cells ++ [(n, v)]))).
  { rewrite map_app. simpl. apply NoDup_app. split; [exact Hnd|]. split.
    - intros a Ha Hn. apply list_elem_of_In in Ha.
      apply list_elem_of_singleton in Hn. subst a. contradiction.
    - apply NoDup_singleton. }
  assert (Hlast : last (map fst (cells ++ [(n, v)])) = Some n).
  { rewrite map_app. simpl. apply last_snoc. }
  unfold insert_tail. fold n. destruct (tail l) as [t|] eqn:Ht.
  - symmetry in Htail. destruct (last_Some_snoc _ _ Htail) as [l0 Hl0].
    destruct (map_fst_snoc_inv _ _ _ Hl0) as (cells0 & tv & -> & Hc0).
    apply segment_app in Hseg as (mid & Hseg0 & Hlastcell).
    simpl in Hlastcell. destruct Hlastcell as (-> & nx & Hlook & ->).
    assert (Ht0 : ~ In t (map fst cells0)).
    { rewrite map_app in Hnd. simpl in Hnd. apply NoDup_app in Hnd as (_ & Hd & _).
      intros Hin. apply (Hd t); [now apply list_elem_of_In | apply list_elem_of_singleton; reflexivity]. }
    assert (Htn : t <> n).
    { apply lookup_lt_Some in Hlook. fold n in Hlook. lia. }
    split; [|split; [exact Hnd' | simpl; now rewrite Hlast]].
    cbn [heap head].
    rewrite <- app_assoc. apply segment_app. exists (Some t). split.
    + apply segment_set_next; [exact Ht0|]. now apply segment_grow.
    + simpl. split; [reflexivity|]. exists (Some n). split.
      * apply (lookup_set_next _ _ _ _ None). now rewrite lookup_app_l by (fold n; apply lookup_lt_Some in Hlook; exact Hlook).
      * split; [reflexivity|]. exists None. split; [|reflexivity].
        unfold set_next. rewrite list_lookup_alter_ne by exact Htn.
        unfold n. now rewrite lookup_app_r, Nat.sub_diag by lia.
  - symmetry in Htail. apply last_None_nil in Htail.
    destruct cells as [|c cells]; [|discriminate]. simpl in *.
    split; [|split; [exact Hnd' | reflexivity]].
    simpl. split; [reflexivity|]. exists None. split; [|reflexivity].
    unfold n. now rewrite lookup_app_r, Nat.sub_diag by lia.
Qed.

Lemma remove_first_absent (v : Z) (xs : list Z) :
  ~ In v xs -> remove_first v xs = xs.
Proof.
  induction xs as [|x xs IH]; simpl; [reflexivity|].
  intros H. destruct (Z.eqb_spec x v) as [->|_]; [exfalso; auto|].
  rewrite IH; [reflexivity | auto].
Qed.

Lemma remove_first_middle (v : Z) (r1 r2 : list Z) :
  ~ In v r1 -> remove_first v (r1 ++ v :: r2) = r1 ++ r2.
Proof.
  induction r1 as [|x r1 IH]; simpl.
  - intros _. now rewrite Z.eqb_refl.
  - intros H. destruct (Z.eqb_spec x v) as [->|_]; [exfalso; auto|].
    rewrite IH; [reflexivity | auto].
Qed.

(** The loop of delete_value, entered at [cur] with the cells [pre]
    behind it and the cells [rest] ahead. *)
Lemma delete_loop_spec (v : Z) (l : LinkedList) (rest : list (nat * Z)) :
  forall (fuel : nat) (pre : list (nat * Z)) (cur : option nat),
    segment (heap l) (head l) pre cur ->
    segment (heap l) cur rest None ->
    NoDup (map fst (pre ++ rest)) ->
    tail l = last (map fst (pre ++ rest)) ->
    (length rest < fuel)%nat ->
    (~ In v (map snd rest) /\
     delete_loop fuel v l (last (map fst pre)) cur = Some (false, l)) \/
    (exists r1 a r2 l',
        rest = r1 ++ (a, v) :: r2 /\ ~ In v (map snd r1) /\
        delete_loop fuel v l (last (map fst pre)) cur = Some (true, l') /\
        holds l' (pre ++ r1 ++ r2)).
Proof.
  induction rest as [|[a x] rest IH]; intros fuel pre cur Hpre Hrest Hnd Htail Hfuel.
  - left. simpl in Hrest. subst cur. split; [intros []|]. now destruct fuel.
  - simpl in Hrest. destruct Hrest as (-> & nx & Ha & Hrest).
    destruct fuel as [|fuel]; [simpl in Hfuel; lia|].
    cbn [delete_loop]. rewrite Ha. cbn [value next].
    destruct (Z.eqb_spec x v) as [->|Hxv].
    + (* the node is unlinked *)
      right. exists [], a, rest. eexists. split; [reflexivity|]. split; [intros []|].
      split; [reflexivity|]. simpl app.
      assert (Ha_pre : ~ In a (map fst pre)).
      { rewrite map_app in Hnd. apply NoDup_app in Hnd as (_ & Hd & _).
        intros Hin. apply (Hd a); [now apply list_elem_of_In | simpl; left]. }
      assert (Ha_rest : ~ In a (map fst rest)).
      { rewrite map_app in Hnd. apply NoDup_app in Hnd as (_ & _ & Hd).
        simpl in Hd. apply NoDup_cons in Hd as [Hd _].
        now rewrite list_elem_of_In in Hd. }
      assert (Hnd' : NoDup (map fst (pre ++ rest))).
      { rewrite map_app in Hnd |- *. simpl in Hnd.
        apply NoDup_app in Hnd as (Hn1 & Hd & Hn2).
        apply NoDup_cons in Hn2 as [_ Hn2].
        apply NoDup_app. split; [exact Hn1|]. split; [|exact Hn2].
        intros b Hb1 Hb2. apply (Hd b Hb1). now right. }
      assert (Htail' : (if bool_decide (tail l = Some a)
                        then last (map fst pre) else tail l)
                       = last (map fst (pre ++ rest))).
      { rewrite Htail, !map_app. cbn [map fst].
        destruct rest as [|[b y] rest]; cbn [map fst].
        - rewrite app_nil_r, last_snoc.
          now rewrite bool_decide_eq_true_2 by reflexivity.
        - assert (Hz : is_Some (last (b :: map fst rest)))
            by (apply last_is_Some; discriminate).
          destruct Hz as [z Hz].
          rewrite !last_app, last_cons_cons, Hz.
          rewrite bool_decide_eq_false_2; [reflexivity|].
          intros [= ->]. apply Ha_rest.
          apply last_Some_snoc in Hz as [l0 Hl0].
          cbn [map fst]. rewrite Hl0. apply in_or_app. right. now left. }
      destruct (last (map fst pre)) as [p|] eqn:Hprev.
      * (* prev.next = cur.next *)
        destruct (last_Some_snoc _ _ Hprev) as [l0 Hl0].
        destruct (map_fst_snoc_inv _ _ _ Hl0) as (pre0 & pv & -> & Hp0).
        apply segment_app in Hpre as (mid & Hpre0 & Hp).
        simpl in Hp. destruct Hp as (-> & pn & Hlook & ->).
        assert (Hp_pre0 : ~ In p (map fst pre0)).
        { rewrite !map_app in Hnd'. simpl in Hnd'.
          apply NoDup_app in Hnd' as (Hn & _ & _).
          apply NoDup_app in Hn as (_ & Hd & _).
          intros Hin. apply (Hd p); [now apply list_elem_of_In|].
          apply list_elem_of_singleton. reflexivity. }
        assert (Hp_rest : ~ In p (map fst rest)).
        { rewrite !map_app in Hnd'. simpl in Hnd'.
          apply NoDup_app in Hnd' as (_ & Hd & _).
          intros Hin. apply (Hd p); [|now apply list_elem_of_In].
          apply list_elem_of_In, in_or_app. right. now left. }
        assert (Hseg' : segment (set_next p nx (heap l)) (head l)
                                ((pre0 ++ [(p, pv)]) ++ rest) None).
        { apply segment_app. exists nx. split.
          - apply segment_app. exists (Some p). split.
            + now apply segment_set_next.
            + simpl. split; [reflexivity|]. exists nx. split; [|reflexivity].
              now apply (lookup_set_next _ _ _ _ (Some a)).
          - now apply segment_set_next. }
        destruct (bool_decide (tail l = Some a));
          (split; [exact Hseg' | split; [exact Hnd' | exact Htail']]).
      * (* self.head = cur.next *)
        apply last_None_nil in Hprev.
        destruct pre as [|c pre]; [|discriminate]. simpl in Hpre. subst.
        simpl app in *.
        destruct (bool_decide (tail l = Some a));
          (split; [exact Hrest | split; [exact Hnd' | exact Htail']]).
    + (* the loop goes on: prev, cur = cur, cur.next *)
      assert (Hpre' : segment (heap l) (head l) (pre ++ [(a, x)]) nx).
      { apply segment_app. exists (Some a). split; [exact Hpre|].
        simpl. split; [reflexivity|]. exists nx. auto. }
      assert (Hprev' : last (map fst (pre ++ [(a, x)])) = Some a).
      { rewrite map_app. simpl. apply last_snoc. }
      destruct (IH fuel (pre ++ [(a, x)]) nx Hpre' Hrest) as [[Hnot Hrun] | Hfound].
      * now rewrite <- app_assoc.
      * now rewrite <- app_assoc.
      * simpl in Hfuel. lia.
      * left. rewrite Hprev' in Hrun. split; [|exact Hrun].
        simpl. intros [H | H]; [congruence | contradiction].
      * right. destruct Hfound as (r1 & a' & r2 & l' & -> & Hnot & Hrun & Hholds).
        exists ((a, x) :: r1), a', r2, l'. rewrite Hprev' in Hrun.
        split; [reflexivity|]. split.
        -- simpl. intros [H | H]; [congruence | contradiction].
        -- split; [exact Hrun|]. rewrite <- app_assoc in Hholds. exact Hholds.
Qed.

Lemma delete_value_holds (v : Z) (l : LinkedList) (cells : list (nat * Z)) :
  holds l cells ->
  exists b l' cells',
    delete_value v l = Some (b, l') /\
    (b = true <-> In v (map snd cells)) /\
    (b = false -> l' = l) /\
    holds l' cells' /\
    map snd cells' = remove_first v (map snd cells).
Proof.
  intros H. pose proof (holds_length l cells H) as Hlen.
  destruct H as (Hseg & Hnd & Htail).
  destruct (delete_loop_spec v l cells (S (length (heap l))) [] (head l))
    as [[Hnot Hrun] | (r1 & a & r2 & l' & -> & Hnot & Hrun & Hholds)];
    try assumption; try reflexivity; try lia.
  - exists false, l, cells. split; [exact Hrun|]. split.
    + split; [discriminate | contradiction].
    + split; [reflexivity|]. split; [now split|]. now rewrite remove_first_absent.
  - exists true, l', (r1 ++ r2). split; [exact Hrun|]. split.
    + split; [|reflexivity]. intros _. rewrite map_app. apply in_or_app. right. now left.
    + split; [discriminate|]. split; [exact Hholds|].
      rewrite !map_app. simpl. now rewrite remove_first_middle.
Qed.

Lemma reachable_holds (l : LinkedList) : reachable l -> exists cells, holds l cells.
Proof.
  induction 1 as [|v l _ [cells IH]|v l _ [cells IH]|v l b l' _ [cells IH] Hdel].
  - exists []. apply holds_init.
  - eexists. apply holds_insert_head. exact IH.
  - eexists. apply holds_insert_tail. exact IH.
  - destruct (delete_value_holds v l cells IH) as (b' & l'' & cells' & Hrun & _ & _ & H' & _).
    rewrite Hrun in Hdel. injection Hdel as <- <-. eauto.
Qed.

End LinkedListFacts.

(** X22.  LinkedList behaves as the list of its values.  For every list
    that a program can build (LinkedList() followed by any calls of
    insert_head, insert_tail and delete_value), the traversal terminates:
    to_list returns some values vs and len their number; after
    insert_head(v) to_list returns v followed by vs, and after
    insert_tail(v) it returns vs followed by v (so the tail pointer
    always designates the last node). *)
Theorem linked_list_inserts (l : LinkedList.LinkedList) :
  LinkedList.reachable l ->
  exists vs,
    LinkedList.to_list l = Some vs /\
    LinkedList.len l = Some (Z.of_nat (length vs)) /\
    (forall v, LinkedList.to_list (LinkedList.insert_head v l) = Some (v :: vs)) /\
    (forall v, LinkedList.to_list (LinkedList.insert_tail v l) = Some (vs ++ [v])).
Proof.
  intros Hr. destruct (reachable_holds l Hr) as [cells H].
  exists (map snd cells).
  pose proof (to_list_holds l cells H) as Hl.
  split; [exact Hl|]. split; [|split].
  - unfold LinkedList.len. now rewrite Hl.
  - intros v. now rewrite (to_list_holds _ _ (holds_insert_head v l cells H)).
  - intros v. rewrite (to_list_holds _ _ (holds_insert_tail v l cells H)).
    now rewrite map_app.
Qed.

Lemma linked_list_inserts_witness :
  let ll := LinkedList.insert_head 0
              (LinkedList.insert_tail 2 (LinkedList.insert_tail 1 LinkedList.init)) in
  LinkedList.to_list ll = Some [0; 1; 2] /\
  LinkedList.len ll = Some 3 /\
  LinkedList.to_list (LinkedList.insert_tail 7 ll) = Some [0; 1; 2; 7].
Proof.
  intros ll.
  destruct (linked_list_inserts ll) as (vs & Hl & Hlen & _ & Htail).
  - unfold ll. repeat constructor.
  - assert (Hvs : vs = [0; 1; 2]).
    { vm_compute in Hl. injection Hl as <-. reflexivity. }
    subst vs. split; [exact Hl|]. split; [exact Hlen | exact (Htail 7)].
Defined.

(** X23.  delete_value removes the first occurrence.  For every list that
    a program can build, holding the values vs: delete_value(v) returns
    (it does not loop), it returns True exactly when v occurs in vs, the
    list then holds vs without the first occurrence of v (and is
    unchanged when v does not occur), and head and tail are still right:
    a later insert_tail appends at the end and a later insert_head at the
    front. *)
Theorem linked_list_delete_value (l : LinkedList.LinkedList) (v : Z) :
  LinkedList.reachable l ->
  exists vs b l',
    LinkedList.to_list l = Some vs /\
    LinkedList.delete_value v l = Some (b, l') /\
    (b = true <-> In v vs) /\
    (b = false -> l' = l) /\
    LinkedList.to_list l' = Some (LinkedList.remove_first v vs) /\
    (forall w, LinkedList.to_list (LinkedList.insert_tail w l')
               = Some (LinkedList.remove_first v vs ++ [w])) /\
    (forall w, LinkedList.to_list (LinkedList.insert_head w l')
               = Some (w :: LinkedList.remove_first v vs)).
Proof.
  intros Hr. destruct (reachable_holds l Hr) as [cells H].
  destruct (delete_value_holds v l cells H)
    as (b & l' & cells' & Hrun & Hb & Hsame & H' & Hvs).
  exists (map snd cells), b, l'.
  split; [now apply to_list_holds|]. split; [exact Hrun|]. split; [exact Hb|].
  split; [exact Hsame|]. split; [|split].
  - rewrite <- Hvs. now apply to_list_holds.
  - intros w. rewrite (to_list_holds _ _ (holds_insert_tail w l' cells' H')).
    now rewrite map_app, Hvs.
  - intros w. rewrite (to_list_holds _ _ (holds_insert_head w l' cells' H')).
    simpl. now rewrite Hvs.
Qed.

Lemma linked_list_delete_value_witness :
  let ll := LinkedList.insert_head 0
              (LinkedList.insert_tail 2 (LinkedList.insert_tail 1 LinkedList.init)) in
  exists l',
    LinkedList.delete_value 1 ll = Some (true, l') /\
    LinkedList.to_list l' = Some [0; 2] /\
    LinkedList.delete_value 42 l' = Some (false, l') /\
    LinkedList.to_list (LinkedList.insert_tail 5 l') = Some [0; 2; 5].
Proof.
  intros ll.
  destruct (linked_list_delete_value ll 1) as (vs & b & l' & Hl & Hdel & _ & _ & Hl' & Htail & _).
  - unfold ll. repeat constructor.
  - assert (Hvs : vs = [0; 1; 2]).
    { vm_compute in Hl. injection Hl as <-. reflexivity. }
    subst vs.
    assert (Hb : b = true).
    { vm_compute in Hdel. now injection Hdel as <- _. }
    subst b. exists l'. split; [exact Hdel|]. split; [exact Hl'|].
    split; [|exact (Htail 5)].
    vm_compute in Hdel. injection Hdel as <-. vm_compute. reflexivity.
Defined.

(** Stack is last-in, first-out: after the items of a list have
    been pushed, one after another, on any stack, as many pops return
    them in reverse order and leave the stack as it was before; display
    shows the items in the order pushed and len counts them; peek returns
    the last item pushed and removes nothing; pop and peek on an empty
    stack raise IndexError and leave it empty; clear empties any stack. *)
Lemma stack_lifo_spec {A : Type} (s : Stack.Stack A) (xs : list A) :
  Stack.pop_many (length xs) (snd (Stack.push_all xs s)) = (Ok (rev xs), s) /\
  Stack.display (snd (Stack.push_all xs Stack.init)) = xs /\
  Stack.len (snd (Stack.push_all xs Stack.init)) = Z.of_nat (length xs) /\
  (forall x, Stack.peek (snd (Stack.push x s)) = (Ok x, s ++ [x])) /\
  Stack.pop (@Stack.init A) = (Raise IndexError, Stack.init) /\
  Stack.peek (@Stack.init A) = (Raise IndexError, Stack.init) /\
  Stack.is_empty (snd (Stack.clear s)) = true /\
  (Stack.is_empty s = true <-> Stack.len s = 0).
Proof.
  assert (Hpush : forall (xs : list A) (s : Stack.Stack A),
             snd (Stack.push_all xs s) = s ++ xs).
  { clear. intros xs. induction xs as [|x xs IH]; intros s; simpl.
    - now rewrite app_nil_r.
    - unfold Stack.push_all in IH. simpl in IH. rewrite IH, <- app_assoc. reflexivity. }
  split; [|split; [|split; [|split; [|split; [|split; [|split]]]]]].
  - rewrite Hpush. revert s. induction xs as [|x xs IH] using rev_ind; intros s.
    + simpl. now rewrite app_nil_r.
    + rewrite length_app, Nat.add_comm. simpl.
      unfold mbind, M_bind, bind, ret. unfold Stack.pop at 1.
      rewrite app_assoc, last_snoc, removelast_last.
      rewrite IH. now rewrite rev_app_distr.
  - now rewrite Hpush.
  - rewrite Hpush. reflexivity.
  - intros x. unfold Stack.push, Stack.peek. simpl. now rewrite last_snoc.
  - reflexivity.
  - reflexivity.
  - reflexivity.
  - unfold Stack.is_empty, Stack.len. destruct s; simpl; split; try reflexivity;
      try discriminate; lia.
Qed.

(** Queue is first-in, first-out: after the items of a list have
    been enqueued, one after another, on a queue, dequeuing everything
    returns the items the queue held followed by the new ones, in the
    order of arrival, and leaves the queue empty; one more dequeue, or a
    peek, on the empty queue raises IndexError; peek returns the oldest
    item and removes nothing. *)
Lemma queue_fifo_spec {A : Type} (q : Queue.Queue A) (xs : list A) :
  Queue.dequeue_many (length q + length xs) (snd (Queue.enqueue_all xs q))
  = (Ok (q ++ xs), Queue.init) /\
  Queue.dequeue_many (S (length q + length xs)) (snd (Queue.enqueue_all xs q))
  = (Raise IndexError, Queue.init) /\
  Queue.peek (@Queue.init A) = (Raise IndexError, Queue.init) /\
  (forall x rest, q = x :: rest ->
     Queue.peek (snd (Queue.enqueue_all xs q)) = (Ok x, snd (Queue.enqueue_all xs q))) /\
  Queue.len (snd (Queue.enqueue_all xs q)) = Queue.len q + Z.of_nat (length xs) /\
  (Queue.is_empty q = true <-> Queue.len q = 0).
Proof.
  assert (Henq : forall (xs : list A) (q : Queue.Queue A),
             snd (Queue.enqueue_all xs q) = q ++ xs).
  { clear. intros xs. induction xs as [|x xs IH]; intros q; simpl.
    - now rewrite app_nil_r.
    - unfold Queue.enqueue_all in IH. simpl in IH. rewrite IH, <- app_assoc. reflexivity. }
  assert (Hall : forall l : list A, Queue.dequeue_many (length l) l = (Ok l, Queue.init)).
  { clear. induction l as [|x l IH]; [reflexivity|].
    simpl. unfold mbind, M_bind, bind, ret. simpl. now rewrite IH. }
  assert (Hmore : forall l : list A,
             Queue.dequeue_many (S (length l)) l = (Raise IndexError, Queue.init)).
  { clear. induction l as [|x l IH]; [reflexivity|].
    change (Queue.dequeue_many (S (length (x :: l))) (x :: l))
      with (bind Queue.dequeue
              (fun y => bind (Queue.dequeue_many (S (length l)))
                          (fun ys => ret (y :: ys))) (x :: l)).
    unfold bind at 1. unfold Queue.dequeue. cbv beta iota.
    unfold bind. now rewrite IH. }
  rewrite Henq. rewrite <- length_app.
  split; [apply Hall|]. split; [apply Hmore|]. split; [reflexivity|].
  split; [|split].
  - intros x rest ->. reflexivity.
  - unfold Queue.len. rewrite length_app. lia.
  - unfold Queue.is_empty, Queue.len. destruct q; simpl; split; try reflexivity;
      try discriminate; lia.
Qed.

(** X24.  Stack and Queue (lesson 9) keep the order of arrival.  Stack is
    last-in, first-out: after the items of a list have been pushed on any
    stack, as many pops return them in reverse order and leave the stack
    as it was before; display shows the items in the order pushed, peek
    returns the last item pushed and removes nothing.  Queue is first-in,
    first-out: after the items of a list have been enqueued, dequeuing
    everything returns the items the queue held followed by the new ones
    and leaves the queue empty.  pop, dequeue and peek on an empty
    container raise IndexError and leave it empty. *)
Theorem stack_is_lifo_and_queue_is_fifo {A : Type} (s : Stack.Stack A)
    (q : Queue.Queue A) (xs : list A) :
  (Stack.pop_many (length xs) (snd (Stack.push_all xs s)) = (Ok (rev xs), s) /\
  Stack.display (snd (Stack.push_all xs Stack.init)) = xs /\
  Stack.len (snd (Stack.push_all xs Stack.init)) = Z.of_nat (length xs) /\
  (forall x, Stack.peek (snd (Stack.push x s)) = (Ok x, s ++ [x])) /\
  Stack.pop (@Stack.init A) = (Raise IndexError, Stack.init) /\
  Stack.peek (@Stack.init A) = (Raise IndexError, Stack.init) /\
  Stack.is_empty (snd (Stack.clear s)) = true /\
  (Stack.is_empty s = true <-> Stack.len s = 0)) /\
  (Queue.dequeue_many (length q + length xs) (snd (Queue.enqueue_all xs q))
  = (Ok (q ++ xs), Queue.init) /\
  Queue.dequeue_many (S (length q + length xs)) (snd (Queue.enqueue_all xs q))
  = (Raise IndexError, Queue.init) /\
  Queue.peek (@Queue.init A) = (Raise IndexError, Queue.init) /\
  (forall x rest, q = x :: rest ->
     Queue.peek (snd (Queue.enqueue_all xs q)) = (Ok x, snd (Queue.enqueue_all xs q))) /\
  Queue.len (snd (Queue.enqueue_all xs q)) = Queue.len q + Z.of_nat (length xs) /\
  (Queue.is_empty q = true <-> Queue.len q = 0)).
Proof. split; [exact (stack_lifo_spec s xs) | exact (queue_fifo_spec q xs)]. Qed.

(** ** Money: rounding to cents and the shopping cart *)

Section MoneyMore.

Lemma ndigits_fuel_spec (f : nat) (n : Z) :
  1 <= n -> n < 10 ^ (Z.of_nat f + 1) ->
  1 <= ndigits_fuel f n /\ 10 ^ (ndigits_fuel f n - 1) <= n < 10 ^ ndigits_fuel f n.
Proof.
  revert n. induction f as [|f IH]; intros n H1 Hn.
  - simpl in *. lia.
  - cbn [ndigits_fuel]. destruct (n <? 10) eqn:H10.
    + apply Z.ltb_lt in H10. simpl. lia.
    + apply Z.ltb_ge in H10.
      assert (Hq : 1 <= n / 10) by (apply Z.div_le_lower_bound; lia).
      assert (Hlt : n / 10 < 10 ^ (Z.of_nat f + 1)).
      { apply Z.div_lt_upper_bound; [lia|].
        rewrite <- Z.pow_succ_r by lia.
        replace (Z.succ (Z.of_nat f + 1)) with (Z.of_nat (S f) + 1) by lia. exact Hn. }
      destruct (IH _ Hq Hlt) as (Hd & Hlo & Hhi).
      set (d := ndigits_fuel f (n / 10)) in *.
      split; [lia|].
      replace (1 + d - 1) with (Z.succ (d - 1)) by lia.
      replace (1 + d) with (Z.succ d) by lia.
      rewrite !Z.pow_succ_r by lia.
      pose proof (Z.div_mod n 10). pose proof (Z.mod_pos_bound n 10). lia.
Qed.

(** [ndigits n] is the number of decimal digits of [n]. *)
Lemma ndigits_spec (n : Z) :
  1 <= n -> 1 <= ndigits n /\ 10 ^ (ndigits n - 1) <= n < 10 ^ ndigits n.
Proof.
  intros H1. unfold ndigits. apply ndigits_fuel_spec; [exact H1|].
  pose proof (Z.log2_nonneg n) as Hl.
  rewrite Z2Nat.id by exact Hl.
  destruct (Z.log2_spec n) as [_ Hhi]; [lia|].
  apply Z.lt_le_trans with (1 := Hhi).
  replace (Z.succ (Z.log2 n)) with (Z.log2 n + 1) by lia.
  apply Z.pow_le_mono_l. lia.
Qed.

Lemma ndigits_le_iff (n d : Z) : 1 <= n -> 0 <= d -> ndigits n <= d <-> n < 10 ^ d.
Proof.
  intros H1 Hd. destruct (ndigits_spec n H1) as (Hp & Hlo & Hhi). split; intros H.
  - apply Z.lt_le_trans with (1 := Hhi). apply Z.pow_le_mono_r; lia.
  - destruct (Z_le_gt_dec (ndigits n) d) as [|Hgt]; [assumption|exfalso].
    assert (10 ^ d <= 10 ^ (ndigits n - 1)) by (apply Z.pow_le_mono_r; lia). lia.
Qed.

Lemma ndigits_zero : ndigits 0 = 1.
Proof. reflexivity. Qed.

(** A number kept as it is by the context: at most [prec] digits and an
    exponent of ordinary size. *)
Lemma fix_small (c e : Z) :
  Z.abs c < 10 ^ prec -> Etiny <= e <= 0 -> fix_ (mkDec c e) = Ok (mkDec c e).
Proof.
  intros Hc He. unfold fix_; cbn [coeff dexp].
  destruct (c =? 0) eqn:H0.
  - apply Z.eqb_eq in H0. subst c. do 2 f_equal. unfold Etiny, Emin, Emax, prec in *. lia.
  - apply Z.eqb_neq in H0.
    assert (Hn : ndigits (Z.abs c) <= prec).
    { apply ndigits_le_iff; [lia| unfold prec; lia | exact Hc]. }
    destruct (ndigits_spec (Z.abs c)) as (Hp & _); [lia|].
    replace (ndigits (Z.abs c) + e - prec >? Etop) with false
      by (symmetry; rewrite Z.gtb_ltb; apply Z.ltb_ge; unfold Etop, Emax, prec in *; lia).
    replace (e <? Z.max (ndigits (Z.abs c) + e - prec) Etiny) with false
      by (symmetry; apply Z.ltb_ge; lia).
    reflexivity.
Qed.

(** Rounding to cents in whole numbers: with both numbers written on the
    smaller exponent [E], and [H] one cent there, the rounded coefficient
    [a] is within half a cent of the exact one, a tie goes away from zero,
    and [a] has at most 28 digits exactly when the exact number is below
    10^26 less half a cent. *)
Lemma rescale_core (c e : Z) :
  let E := Z.min e (-2) in
  let H := 10 ^ (-2 - E) in
  let X := c * 10 ^ (e - E) in
  let a := coeff (rescale_half_up (mkDec c e) (-2)) in
  0 < H /\
  2 * Z.abs (a * H - X) <= H /\
  (2 * (a * H - X) = H -> 0 < c) /\
  (2 * (X - a * H) = H -> c < 0) /\
  (Z.abs a < 10 ^ 28 <-> 2 * Z.abs X < 2 * 10 ^ 28 * H - H).
Proof.
  intros E H X a.
  assert (HH : 0 < H) by (apply Z.pow_pos_nonneg; unfold E; lia).
  split; [exact HH|].
  unfold a, rescale_half_up; cbn [coeff dexp].
  destruct (c =? 0) eqn:H0.
  { apply Z.eqb_eq in H0. unfold X. subst c. cbn [coeff]. rewrite !Z.mul_0_l. lia. }
  apply Z.eqb_neq in H0.
  destruct (-2 <=? e) eqn:He.
  - apply Z.leb_le in He. cbn [coeff].
    assert (HE : E = -2) by (unfold E; lia).
    unfold X, H. rewrite HE. replace (-2 - -2) with 0 by lia.
    change (10 ^ 0) with 1.
    set (b := c * 10 ^ (e - -2)).
    assert (Hb : b <> 0).
    { unfold b. apply Z.neq_mul_0. split; [exact H0|].
      apply Z.pow_nonzero; lia. }
    assert (0 < c <-> 0 < b).
    { unfold b. assert (0 < 10 ^ (e - -2)) by (apply Z.pow_pos_nonneg; lia). nia. }
    lia.
  - apply Z.leb_gt in He. cbv zeta. cbn [coeff].
    assert (HE : E = e) by (unfold E; lia).
    unfold X. rewrite HE. replace (e - e) with 0 by lia.
    change (10 ^ 0) with 1. rewrite Z.mul_1_r.
    assert (HT : H = 10 ^ (-2 - e)) by (unfold H; now rewrite HE).
    rewrite <- HT. clearbody H. clear HT.
    pose proof (Z.div_mod (Z.abs c) H ltac:(lia)) as Hdm.
    pose proof (Z.mod_pos_bound (Z.abs c) H HH) as Hr.
    assert (Hq : 0 <= Z.abs c / H) by (apply Z.div_pos; lia).
    set (q := Z.abs c / H) in *. set (r := Z.abs c mod H) in *.
    assert (Hmul : forall D, 0 < D -> H <= D * H) by (intros; nia).
    assert (Hmul' : forall D, D <= 0 -> D * H <= 0) by (intros; nia).
    destruct (Z_lt_le_dec 0 c) as [Hpos|Hneg].
    + rewrite Z.sgn_pos by exact Hpos. rewrite Z.abs_eq in Hdm by lia.
      destruct (2 * r >=? H) eqn:Hup.
      * apply Z.geb_le in Hup.
        replace (1 * (q + 1) * H - c) with (H - r) by lia.
        replace (c - 1 * (q + 1) * H) with (r - H) by lia.
        repeat split; try lia.
        -- intros Ha. destruct (Z_lt_le_dec 0 (10 ^ 28 - q - 1)) as [HD|HD].
           ++ specialize (Hmul _ HD). lia.
           ++ lia.
        -- intros Ha. destruct (Z_lt_le_dec 0 (10 ^ 28 - q - 1)) as [HD|HD].
           ++ lia.
           ++ specialize (Hmul' _ HD). lia.
      * rewrite Z.geb_leb in Hup. apply Z.leb_gt in Hup.
        replace (1 * q * H - c) with (- r) by lia.
        replace (c - 1 * q * H) with r by lia.
        repeat split; try lia.
        -- intros Ha. destruct (Z_lt_le_dec 0 (10 ^ 28 - q)) as [HD|HD].
           ++ specialize (Hmul _ HD). lia.
           ++ lia.
        -- intros Ha. destruct (Z_lt_le_dec 0 (10 ^ 28 - q)) as [HD|HD].
           ++ lia.
           ++ specialize (Hmul' _ HD). lia.
    + rewrite Z.sgn_neg by lia. rewrite Z.abs_neq in Hdm by lia.
      destruct (2 * r >=? H) eqn:Hup.
      * apply Z.geb_le in Hup.
        replace (-1 * (q + 1) * H - c) with (r - H) by lia.
        replace (c - -1 * (q + 1) * H) with (H - r) by lia.
        repeat split; try lia.
        -- intros Ha. destruct (Z_lt_le_dec 0 (10 ^ 28 - q - 1)) as [HD|HD].
           ++ specialize (Hmul _ HD). lia.
           ++ lia.
        -- intros Ha. destruct (Z_lt_le_dec 0 (10 ^ 28 - q - 1)) as [HD|HD].
           ++ lia.
           ++ specialize (Hmul' _ HD). lia.
      * rewrite Z.geb_leb in Hup. apply Z.leb_gt in Hup.
        replace (-1 * q * H - c) with r by lia.
        replace (c - -1 * q * H) with (- r) by lia.
        repeat split; try lia.
        -- intros Ha. destruct (Z_lt_le_dec 0 (10 ^ 28 - q)) as [HD|HD].
           ++ specialize (Hmul _ HD). lia.
           ++ lia.
        -- intros Ha. destruct (Z_lt_le_dec 0 (10 ^ 28 - q)) as [HD|HD].
           ++ lia.
           ++ specialize (Hmul' _ HD). lia.
Qed.

Lemma rescale_dexp (x : Decimal) (e : Z) : dexp (rescale_half_up x e) = e.
Proof.
  unfold rescale_half_up. destruct (coeff x =? 0); [reflexivity|].
  destruct (e <=? dexp x); reflexivity.
Qed.

(** The digits of the rounded coefficient, from those of the number. *)
Lemma rescale_digits (c e : Z) :
  c <> 0 ->
  (ndigits (Z.abs c) + e + 2 > 28 ->
   10 ^ 28 <= Z.abs (coeff (rescale_half_up (mkDec c e) (-2)))) /\
  (ndigits (Z.abs c) + e + 2 <= 28 ->
   Z.abs (coeff (rescale_half_up (mkDec c e) (-2))) <= 10 ^ 28).
Proof.
  intros H0. pose proof (rescale_core c e) as Hcore. cbv zeta in Hcore.
  set (E := Z.min e (-2)) in *. set (H := 10 ^ (-2 - E)) in *.
  set (X := c * 10 ^ (e - E)) in *.
  set (b := coeff (rescale_half_up (mkDec c e) (-2))) in *.
  destruct Hcore as (HH & Hhalf & _ & _ & Hiff).
  destruct (ndigits_spec (Z.abs c)) as (Hp & Hlo & Hhi); [lia|].
  assert (HEe : 0 <= e - E) by (unfold E; lia).
  assert (HE2 : E <= -2) by (unfold E; lia).
  assert (Hpow : 0 < 10 ^ (e - E)) by (apply Z.pow_pos_nonneg; lia).
  assert (HX : Z.abs X = Z.abs c * 10 ^ (e - E)).
  { unfold X. rewrite Z.abs_mul. f_equal. apply Z.abs_eq. lia. }
  assert (HNH : 10 ^ 28 * H = 10 ^ (26 - E)).
  { unfold H. rewrite <- Z.pow_add_r by lia. f_equal. lia. }
  split; intros Hnd.
  - assert (Hbig : 10 ^ 28 * H <= Z.abs X).
    { rewrite HNH, HX. destruct (Z_le_gt_dec e 26) as [He|He].
      - replace (26 - E) with ((26 - e) + (e - E)) by lia.
        rewrite Z.pow_add_r by lia.
        apply Z.mul_le_mono_nonneg_r; [lia|].
        transitivity (10 ^ (ndigits (Z.abs c) - 1)); [|exact Hlo].
        apply Z.pow_le_mono_r; lia.
      - transitivity (1 * 10 ^ (e - E)).
        + rewrite Z.mul_1_l. apply Z.pow_le_mono_r; lia.
        + apply Z.mul_le_mono_nonneg_r; lia. }
    destruct (Z_lt_le_dec (Z.abs b) (10 ^ 28)) as [Hlt|Hge]; [|exact Hge].
    apply Hiff in Hlt. lia.
  - assert (Hsmall : Z.abs X < 10 ^ 28 * H).
    { rewrite HNH, HX.
      replace (26 - E) with ((26 - e) + (e - E)) by lia.
      rewrite Z.pow_add_r by lia.
      apply Z.mul_lt_mono_pos_r; [exact Hpow|].
      apply Z.lt_le_trans with (1 := Hhi). apply Z.pow_le_mono_r; lia. }
    assert (Hab : Z.abs b * H = Z.abs (b * H)).
    { rewrite Z.abs_mul. f_equal. symmetry. apply Z.abs_eq. lia. }
    assert (Hlt : Z.abs b * H < (10 ^ 28 + 1) * H) by lia.
    apply Z.mul_lt_mono_pos_r in Hlt; [lia|exact HH].
Qed.

(** quantize to cents: the number rounded half up, unless that needs
    more than 28 digits. *)
Lemma quantize_cents (x : Decimal) :
  quantize_half_up x (-2) =
    if Z.abs (coeff (rescale_half_up x (-2))) <? 10 ^ 28
    then Ok (rescale_half_up x (-2)) else Raise InvalidOperation.
Proof.
  destruct x as [c e]. unfold quantize_half_up.
  replace (negb ((Etiny <=? -2) && (-2 <=? Emax))) with false by reflexivity.
  cbv iota. cbn [coeff dexp].
  destruct (c =? 0) eqn:H0.
  { apply Z.eqb_eq in H0. subst c. unfold rescale_half_up. cbn [coeff].
    change (0 =? 0) with true. cbv iota. cbn [coeff].
    change (Z.abs 0 <? 10 ^ 28) with true. cbv iota.
    apply fix_small; [reflexivity | unfold Etiny, Emin, prec; lia]. }
  apply Z.eqb_neq in H0.
  destruct (rescale_digits c e H0) as [Hbig Hsmall].
  pose proof (rescale_dexp (mkDec c e) (-2)) as Hexp.
  set (ans := rescale_half_up (mkDec c e) (-2)) in *.
  unfold adjusted. cbn [coeff dexp]. rewrite Hexp.
  destruct (ndigits (Z.abs c) + e - 1 >? Emax) eqn:H1.
  { rewrite Z.gtb_ltb in H1. apply Z.ltb_lt in H1.
    replace (Z.abs (coeff ans) <? 10 ^ 28) with false; [reflexivity|].
    symmetry. apply Z.ltb_ge. apply Hbig. unfold Emax in H1. lia. }
  rewrite Z.gtb_ltb in H1. apply Z.ltb_ge in H1.
  destruct (ndigits (Z.abs c) + e - 1 - -2 + 1 >? prec) eqn:H2.
  { rewrite Z.gtb_ltb in H2. apply Z.ltb_lt in H2.
    replace (Z.abs (coeff ans) <? 10 ^ 28) with false; [reflexivity|].
    symmetry. apply Z.ltb_ge. apply Hbig. unfold prec in H2. lia. }
  rewrite Z.gtb_ltb in H2. apply Z.ltb_ge in H2.
  assert (Ha : Z.abs (coeff ans) <= 10 ^ 28) by (apply Hsmall; unfold prec in H2; lia).
  assert (Hnd : 1 <= ndigits (Z.abs (coeff ans)) <= 29 /\
                (ndigits (Z.abs (coeff ans)) <= 28 <-> Z.abs (coeff ans) < 10 ^ 28)).
  { destruct (Z.eq_dec (coeff ans) 0) as [Hz|Hz].
    - rewrite Hz. change (ndigits (Z.abs 0)) with 1. lia.
    - destruct (ndigits_spec (Z.abs (coeff ans))) as (Hp & _); [lia|].
      split; [split; [exact Hp|]|].
      + apply ndigits_le_iff; lia.
      + apply ndigits_le_iff; lia. }
  destruct Hnd as [Hnd Hiff].
  replace (ndigits (Z.abs (coeff ans)) + -2 - 1 >? Emax) with false
    by (symmetry; rewrite Z.gtb_ltb; apply Z.ltb_ge; unfold Emax; lia).
  destruct (Z.abs (coeff ans) <? 10 ^ 28) eqn:H3.
  - apply Z.ltb_lt in H3.
    replace (ndigits (Z.abs (coeff ans)) >? prec) with false
      by (symmetry; rewrite Z.gtb_ltb; apply Z.ltb_ge; unfold prec; lia).
    destruct ans as [ca ea]. cbn [coeff dexp] in *. subst ea.
    apply fix_small; [exact H3 | unfold Etiny, Emin, prec; lia].
  - apply Z.ltb_ge in H3.
    replace (ndigits (Z.abs (coeff ans)) >? prec) with true; [reflexivity|].
    symmetry. rewrite Z.gtb_ltb. apply Z.ltb_lt. unfold prec. lia.
Qed.


Lemma scaled_lt (u : Q) (a b : Z) :
  (0 < u)%Q -> (inject_Z a * u < inject_Z b * u)%Q <-> a < b.
Proof. intros Hu. rewrite Qmult_lt_r by exact Hu. now rewrite <- Zlt_Qlt. Qed.



End MoneyMore.


(** The doctests of round_money, and ties on both sides of zero. *)
Example round_money_doctests :
  Money.round_money (mkDec 1 0) = Ok (mkDec 100 (-2)) /\
  Money.round_money (mkDec 1005 (-3)) = Ok (mkDec 101 (-2)) /\
  Money.round_money (mkDec (-1005) (-3)) = Ok (mkDec (-101) (-2)) /\
  Money.round_money (mkDec 1004999 (-6)) = Ok (mkDec 100 (-2)) /\
  Money.round_money (mkDec (10 ^ 28 - 1) (-2)) = Ok (mkDec (10 ^ 28 - 1) (-2)) /\
  Money.round_money (mkDec (10 ^ 29 - 5) (-3)) = Raise InvalidOperation.
Proof. repeat split; vm_compute; reflexivity. Qed.

Section CartMore.

Import ShoppingCart.













(** ShoppingCart() satisfies the invariant; add_item and remove_item keep
    it (below), so every cart a program builds through them is sound. *)
Lemma sound_init (strict_price : bool) : sound (init strict_price).
Proof. split; cbn; [apply NoDup_nil_2 | constructor]. Qed.


End CartMore.

Section CartTotal.

Import ShoppingCart.

Lemma value_cents (d : Decimal) :
  -2 <= dexp d -> (value d == inject_Z (coeff d * 10 ^ (dexp d + 2)) * (1 # 100))%Q.
Proof.
  intros He. rewrite (value_aligned d (-2)) by exact He.
  replace (dexp d - -2) with (dexp d + 2) by lia. reflexivity.
Qed.

(** A non-negative amount in cents below 10^26 has at most 28 digits,
    also when written in cents. *)
Lemma small_coeff (d : Decimal) :
  0 <= coeff d -> -2 <= dexp d <= 0 -> (value d < inject_Z (10 ^ 26))%Q ->
  Z.abs (coeff d) <= coeff d * 10 ^ (dexp d + 2) < 10 ^ prec.
Proof.
  intros Hc He Hv. rewrite value_cents in Hv by lia.
  assert (Hb : (inject_Z (10 ^ 26) == inject_Z (10 ^ 28) * (1 # 100))%Q) by reflexivity.
  rewrite Hb in Hv. apply scaled_lt in Hv; [|reflexivity].
  assert (Hp : 1 <= 10 ^ (dexp d + 2)).
  { change 1 with (10 ^ 0). apply Z.pow_le_mono_r; lia. }
  unfold prec. split; [|exact Hv]. rewrite Z.abs_eq by exact Hc. nia.
Qed.

Lemma exact_total_nonneg (its : list CartItem) :
  Forall (fun it => 0 < quantity it /\ (0 <= value (unit_price it))%Q) its ->
  (0 <= exact_total its)%Q.
Proof.
  induction 1 as [|it its [Hq Hp] _ IH]; cbn [exact_total fold_right]; [apply Qle_refl|].
  fold (exact_total its). replace 0%Q with (0 + 0)%Q by reflexivity.
  apply Qplus_le_compat; [|exact IH].
  apply Qmult_le_0_compat; [exact Hp|].
  change 0%Q with (inject_Z 0). rewrite <- Zle_Qle. lia.
Qed.

Lemma value_line (p : Decimal) (q : Z) :
  (value (mkDec (coeff p * q) (dexp p + 0)) == value p * inject_Z q)%Q.
Proof.
  unfold value; cbn [coeff dexp]. rewrite Z.add_0_r, inject_Z_mult. ring.
Qed.

Lemma sum_from_nonneg (its : list CartItem) (acc : Decimal) :
  Forall (fun it => 0 < quantity it /\ (0 <= value (unit_price it))%Q) its ->
  0 <= coeff acc ->
  match sum_from acc its with
  | Ok t => 0 <= coeff t
  | Raise e => e = Overflow
  end.
Proof.
  intros Hall. revert acc.
  induction Hall as [|it its [Hq Hp] _ IH]; intros acc Hacc; cbn [sum_from]; [exact Hacc|].
  destruct (Dec.mul (unit_price it) (of_Z (quantity it))) as [line|e] eqn:Hmul;
    [|exact (fix_raises_overflow _ _ Hmul)].
  assert (Hline : 0 <= coeff line).
  { apply (fix_nonneg _ _ Hmul). cbn [coeff of_Z].
    apply Z.mul_nonneg_nonneg; [now apply value_nonneg_inv | lia]. }
  destruct (Dec.add acc line) as [acc'|e] eqn:Hadd;
    [|exact (fix_raises_overflow _ _ Hadd)].
  apply IH. apply (fix_nonneg _ _ Hadd). unfold exact_add. cbn [coeff].
  assert (0 <= 10 ^ (dexp acc - Z.min (dexp acc) (dexp line))) by (apply Z.pow_nonneg; lia).
  assert (0 <= 10 ^ (dexp line - Z.min (dexp acc) (dexp line))) by (apply Z.pow_nonneg; lia).
  nia.
Qed.

Lemma sum_from_exact (its : list CartItem) (acc : Decimal) :
  Forall (fun it => 0 < quantity it /\ (0 <= value (unit_price it))%Q) its ->
  Forall (fun it => -2 <= dexp (unit_price it) <= 0) its ->
  -2 <= dexp acc <= 0 -> 0 <= coeff acc ->
  (value acc + exact_total its < inject_Z (10 ^ 26))%Q ->
  exists t, sum_from acc its = Ok t /\ -2 <= dexp t <= 0 /\ 0 <= coeff t /\
            (value t == value acc + exact_total its)%Q.
Proof.
  intros Hall. revert acc.
  induction Hall as [|it its [Hq Hp] Hrest IH]; intros acc Hexp Hacce Haccc Hlt;
    cbn [sum_from exact_total fold_right] in *.
  - exists acc. repeat split; try lia. ring.
  - fold (exact_total its) in *. inversion Hexp as [|? ? Hpe Hexp']; subst.
    pose proof (exact_total_nonneg its Hrest) as Hnn.
    pose proof (value_nonneg acc Haccc) as Haccv.
    assert (Hpc : 0 <= coeff (unit_price it)) by now apply value_nonneg_inv.
    assert (Hqv : (0 <= inject_Z (quantity it))%Q).
    { change 0%Q with (inject_Z 0). rewrite <- Zle_Qle. lia. }
    pose proof (Qmult_le_0_compat _ _ Hp Hqv) as Hlinev.
    set (line := mkDec (coeff (unit_price it) * quantity it) (dexp (unit_price it) + 0)).
    assert (Hline : Dec.mul (unit_price it) (of_Z (quantity it)) = Ok line).
    { unfold Dec.mul, line. cbn [coeff dexp of_Z]. apply fix_small.
      - refine (Z.le_lt_trans _ _ _ (proj1 (small_coeff line _ _ _)) (proj2 (small_coeff line _ _ _)));
          unfold line; cbn [coeff dexp]; try lia;
          rewrite (value_line (unit_price it) (quantity it));
          (apply Qle_lt_trans with (2 := Hlt));
          rewrite <- (Qplus_0_l (value (unit_price it) * inject_Z (quantity it))) at 1;
          (apply Qplus_le_compat; [exact Haccv|]);
          rewrite <- (Qplus_0_r (value (unit_price it) * inject_Z (quantity it))) at 1;
          (apply Qplus_le_compat; [apply Qle_refl | exact Hnn]).
      - unfold Etiny, Emin, prec. lia. }
    rewrite Hline.
    set (acc' := exact_add acc line).
    assert (Hv' : (value acc' == value acc + value (unit_price it) * inject_Z (quantity it))%Q).
    { unfold acc'. rewrite value_exact_add. unfold line. now rewrite value_line. }
    assert (Hc' : 0 <= coeff acc').
    { unfold acc', exact_add, line. cbn [coeff dexp].
      assert (0 <= 10 ^ (dexp acc - Z.min (dexp acc) (dexp (unit_price it) + 0)))
        by (apply Z.pow_nonneg; lia).
      assert (0 <= 10 ^ (dexp (unit_price it) + 0 - Z.min (dexp acc) (dexp (unit_price it) + 0)))
        by (apply Z.pow_nonneg; lia).
      nia. }
    assert (He' : -2 <= dexp acc' <= 0).
    { unfold acc', exact_add, line. cbn [coeff dexp]. lia. }
    assert (Hlt' : (value acc' + exact_total its < inject_Z (10 ^ 26))%Q).
    { rewrite Hv', <- Qplus_assoc. exact Hlt. }
    assert (Hadd : Dec.add acc line = Ok acc').
    { unfold Dec.add. fold acc'. destruct acc' as [c' e'] eqn:Eacc. apply fix_small.
      - refine (Z.le_lt_trans _ _ _ (proj1 (small_coeff (mkDec c' e') _ _ _))
                                    (proj2 (small_coeff (mkDec c' e') _ _ _)));
          try assumption;
          (apply Qle_lt_trans with (2 := Hlt'));
          rewrite <- (Qplus_0_r (value (mkDec c' e'))) at 1;
          (apply Qplus_le_compat; [apply Qle_refl | exact Hnn]).
      - cbn [dexp] in He'. unfold Etiny, Emin, prec. lia. }
    rewrite Hadd.
    destruct (IH acc' Hexp' He' Hc' Hlt') as (t & Ht & Hte & Htc & Htv).
    exists t. repeat split; try assumption; try lia.
    rewrite Htv, Hv'. ring.
Qed.

Lemma rescale_nonneg (t : Decimal) (e : Z) :
  0 <= coeff t -> 0 <= coeff (rescale_half_up t e).
Proof.
  intros Hc. unfold rescale_half_up.
  destruct (coeff t =? 0); [cbn; lia|].
  destruct (e <=? dexp t) eqn:He; cbn [coeff].
  - apply Z.leb_le in He. apply Z.mul_nonneg_nonneg; [exact Hc|].
    apply Z.pow_nonneg. lia.
  - apply Z.leb_gt in He. apply Z.mul_nonneg_nonneg; [now apply Z.sgn_nonneg|].
    assert (0 <= Z.abs (coeff t) / 10 ^ (e - dexp t)).
    { apply Z.div_pos; [lia|]. apply Z.pow_pos_nonneg; lia. }
    destruct (_ >=? _); lia.
Qed.

Lemma rescale_exact (t : Decimal) :
  -2 <= dexp t ->
  coeff (rescale_half_up t (-2)) = coeff t * 10 ^ (dexp t + 2) /\
  (value (rescale_half_up t (-2)) == value t)%Q.
Proof.
  intros He. assert (Hc : coeff (rescale_half_up t (-2)) = coeff t * 10 ^ (dexp t + 2)).
  { unfold rescale_half_up. destruct (coeff t =? 0) eqn:H0.
    - apply Z.eqb_eq in H0. rewrite H0. reflexivity.
    - replace (-2 <=? dexp t) with true by (symmetry; apply Z.leb_le; exact He).
      cbn [coeff]. replace (dexp t - -2) with (dexp t + 2) by lia. reflexivity. }
  split; [exact Hc|].
  rewrite (value_cents t) by exact He.
  rewrite (value_cents (rescale_half_up t (-2))) by (rewrite rescale_dexp; lia).
  rewrite rescale_dexp, Hc. replace (-2 + 2) with 0 by lia.
  change (10 ^ 0) with 1. now rewrite Z.mul_1_r.
Qed.

Lemma sound_items (cart : ShoppingCart) :
  sound cart ->
  Forall (fun it => 0 < quantity it /\ (0 <= value (unit_price it))%Q) (items cart).
Proof.
  intros [_ Hall]. unfold items. apply Forall_forall. intros it Hin.
  change (it ∈ snd <$> _items cart) in Hin.
  apply list_elem_of_fmap in Hin as ([k v] & -> & Hin).
  rewrite Forall_forall in Hall. apply Hall in Hin. cbn [snd] in *. tauto.
Qed.

End CartTotal.







(** X27.  ShoppingCart.total (lesson 9) on a cart that satisfies the class
    invariant.  Whenever it returns, the total has exactly two decimals
    and is not negative; it can only raise decimal.Overflow or
    decimal.InvalidOperation.  When every price is written with at most
    two decimals (an exponent from -2 to 0) and the exact sum of price
    times quantity is below 10^26, it returns that sum exactly. *)
Theorem cart_total_is_exact_in_cents (cart : ShoppingCart.ShoppingCart) :
  ShoppingCart.sound cart ->
  match ShoppingCart.total cart with
  | Ok t => dexp t = -2 /\ (0 <= value t)%Q
  | Raise e => e = Overflow \/ e = InvalidOperation
  end /\
  (Forall (fun it => -2 <= dexp (ShoppingCart.unit_price it) <= 0) (ShoppingCart.items cart) ->
   (ShoppingCart.exact_total (ShoppingCart.items cart) < inject_Z (10 ^ 26))%Q ->
   exists t, ShoppingCart.total cart = Ok t /\ dexp t = -2 /\
             (value t == ShoppingCart.exact_total (ShoppingCart.items cart))%Q).
Proof.
  intros Hsound. pose proof (sound_items cart Hsound) as Hitems.
  unfold ShoppingCart.total. split.
  - pose proof (sum_from_nonneg (ShoppingCart.items cart) Dec.zero Hitems) as Hsum.
    destruct (ShoppingCart.sum_from Dec.zero (ShoppingCart.items cart)) as [t|e].
    + rewrite quantize_cents. destruct (_ <? _).
      * split; [apply rescale_dexp|]. apply value_nonneg, rescale_nonneg, Hsum.
        cbn. lia.
      * now right.
    + left. apply Hsum. cbn. lia.
  - intros Hexp Hlt.
    destruct (sum_from_exact (ShoppingCart.items cart) Dec.zero Hitems Hexp)
      as (t & Ht & Hte & Htc & Htv).
    + cbn. lia.
    + cbn. lia.
    + rewrite value_zero, Qplus_0_l. exact Hlt.
    + rewrite Ht, quantize_cents.
      rewrite value_zero, Qplus_0_l in Htv.
      destruct (rescale_exact t) as [Hc Hv]; [lia|].
      assert (Hsmall : Z.abs (coeff (rescale_half_up t (-2))) < 10 ^ 28).
      { rewrite Hc. destruct (small_coeff t Htc Hte) as [_ Hs].
        - rewrite Htv. exact Hlt.
        - unfold prec in Hs. rewrite Z.abs_eq; [exact Hs|].
          apply Z.mul_nonneg_nonneg; [exact Htc | apply Z.pow_nonneg; lia]. }
      apply Z.ltb_lt in Hsmall. rewrite Hsmall.
      eexists; split; [reflexivity|]. split; [apply rescale_dexp|].
      now rewrite Hv.
Qed.

Lemma cart_total_is_exact_in_cents_witness :
  let cart := ShoppingCart.mkCart
     [("Book"%string, ShoppingCart.mkItem "Book" (mkDec 1249 (-2)) 2);
      ("Pen"%string, ShoppingCart.mkItem "Pen" (mkDec 120 (-2)) 3)] true in
  ShoppingCart.sound cart /\
  ShoppingCart.total cart = Ok (mkDec 2858 (-2)).
Proof.
  intros cart.
  assert (Hs : ShoppingCart.sound cart).
  { split; cbn.
    - apply NoDup_cons. split; [|apply NoDup_singleton].
      rewrite list_elem_of_singleton. discriminate.
    - constructor; [|constructor; [|constructor]]; cbn;
        (split; [reflexivity|]; split; [lia|]; apply value_nonneg; cbn; lia). }
  split; [exact Hs|].
  destruct (cart_total_is_exact_in_cents cart Hs) as [_ Hexact].
  destruct Hexact as (t & Ht & _ & _).
  - repeat constructor; cbn; lia.
  - reflexivity.
  - rewrite Ht. vm_compute in Ht. exact (eq_sym Ht).
Defined.

(** ** The ToDo list (lesson 10) *)

Section ToDoMore.

Import ToDo.

Lemma add_task_cases (title description : string) (due_date : option L13.date)
    (td : ToDoList) :
  add_task title description due_date td =
    if L15.is_blank title then (Raise ValueError, td)
    else
      let task := mkTask (_next_id td) (strip title) description due_date TODO in
      (Ok task, mkToDo (<[_next_id td := task]> (_tasks td)) (_next_id td + 1) true).
Proof.
  unfold add_task, Task_new. destruct (L15.is_blank title); reflexivity.
Qed.

Lemma well_numbered_init : well_numbered init.
Proof.
  split; [cbn; lia|]. intros k t H. unfold init in H. cbn in H.
  rewrite lookup_empty in H. discriminate.
Qed.

Lemma do_call_next_id (c : call) (td : ToDoList) :
  _next_id td <= _next_id (do_call c td).
Proof.
  destruct c as [title description due_date|k|k]; cbn [do_call].
  - rewrite add_task_cases. destruct (L15.is_blank title); cbn; lia.
  - unfold mark_complete. destruct (_tasks td !! k) as [t|]; [|cbn; lia].
    destruct (status t); cbn; lia.
  - unfold delete_task. destruct (_tasks td !! k); cbn; lia.
Qed.

Lemma well_numbered_do_call (c : call) (td : ToDoList) :
  well_numbered td -> well_numbered (do_call c td).
Proof.
  intros [Hone Hwn]. pose proof (do_call_next_id c td) as Hmono.
  split; [lia|]. revert Hmono.
  destruct c as [title description due_date|k|k]; cbn [do_call].
  - rewrite add_task_cases. destruct (L15.is_blank title); [intros _; exact Hwn|].
    cbn [snd]. intros _ k t. cbn [_tasks _next_id].
    destruct (Z.eq_dec k (_next_id td)) as [->|Hne].
    + rewrite lookup_insert_eq. intros [= <-]. cbn [id]. lia.
    + rewrite lookup_insert_ne by congruence. intros Hk.
      destruct (Hwn _ _ Hk). split; [assumption | lia].
  - unfold mark_complete. destruct (_tasks td !! k) as [t|] eqn:Hk; [|intros _; exact Hwn].
    destruct (status t); [|intros _; exact Hwn]. cbn [snd]. intros _ k' t'. cbn [_tasks _next_id].
    destruct (Z.eq_dec k' k) as [->|Hne].
    + rewrite lookup_insert_eq. intros [= <-]. cbn [id mark_done]. exact (Hwn _ _ Hk).
    + rewrite lookup_insert_ne by congruence. apply Hwn.
  - unfold delete_task. destruct (_tasks td !! k) as [t|] eqn:Hk; [|intros _; exact Hwn].
    cbn [snd]. intros _ k' t'. cbn [_tasks _next_id].
    destruct (Z.eq_dec k' k) as [->|Hne].
    + rewrite lookup_delete_eq. discriminate.
    + rewrite lookup_delete_ne by congruence. apply Hwn.
Qed.

Lemma well_numbered_do_calls (cs : list call) (td : ToDoList) :
  well_numbered td -> well_numbered (do_calls cs td).
Proof.
  revert td. induction cs as [|c cs IH]; intros td Hwn; [exact Hwn|].
  cbn [do_calls fold_left]. apply IH, well_numbered_do_call, Hwn.
Qed.

Lemma well_numbered_after (cs : list call) : well_numbered (after cs).
Proof. apply well_numbered_do_calls, well_numbered_init. Qed.

Lemma do_calls_app (cs cs' : list call) (td : ToDoList) :
  do_calls (cs ++ cs') td = do_calls cs' (do_calls cs td).
Proof. unfold do_calls. apply fold_left_app. Qed.

(** The ids given out count up from the next id of the list. *)
Lemma issued_ids_from (cs : list call) (td : ToDoList) :
  (forall i k, issued_ids cs td !! i = Some k -> k = _next_id td + Z.of_nat i) /\
  _next_id (do_calls cs td) = _next_id td + Z.of_nat (length (issued_ids cs td)).
Proof.
  revert td. induction cs as [|c cs IH]; intros td; cbn [issued_ids do_calls fold_left].
  { split; [intros i k H; rewrite lookup_nil in H; discriminate | cbn; lia]. }
  destruct (IH (do_call c td)) as [IHid IHnext]. fold (do_calls cs (do_call c td)).
  rewrite IHnext. clear IHnext.
  destruct c as [title description due_date|k|k].
  - cbn [do_call] in *. rewrite add_task_cases in *.
    destruct (L15.is_blank title); cbn [fst snd app] in *.
    + split; [exact IHid | lia].
    + cbn [id _next_id length] in *. split.
      * intros [|i] k; cbn [lookup list_lookup]; [intros [= <-]; lia|].
        intros Hk. apply IHid in Hk. lia.
      * lia.
  - cbn [app]. split.
    + intros i k' Hk. apply IHid in Hk.
      assert (_next_id (do_call (MarkComplete k) td) = _next_id td); [|lia].
      cbn [do_call]. unfold mark_complete. destruct (_tasks td !! k) as [t|]; [|reflexivity].
      destruct (status t); reflexivity.
    + assert (_next_id (do_call (MarkComplete k) td) = _next_id td); [|lia].
      cbn [do_call]. unfold mark_complete. destruct (_tasks td !! k) as [t|]; [|reflexivity].
      destruct (status t); reflexivity.
  - cbn [app]. split.
    + intros i k' Hk. apply IHid in Hk.
      assert (_next_id (do_call (DeleteTask k) td) = _next_id td); [|lia].
      cbn [do_call]. unfold delete_task. destruct (_tasks td !! k) as [t|]; reflexivity.
    + assert (_next_id (do_call (DeleteTask k) td) = _next_id td); [|lia].
      cbn [do_call]. unfold delete_task. destruct (_tasks td !! k) as [t|]; reflexivity.
Qed.

Lemma sorted_keys_strict (ks : list Z) :
  StronglySorted Z.le ks -> NoDup ks -> StronglySorted Z.lt ks.
Proof.
  induction 1 as [|k ks Hs IH Hall]; intros Hnd; [constructor|].
  apply NoDup_cons in Hnd as [Hk Hnd]. constructor; [now apply IH|].
  rewrite Forall_forall in *. intros k' Hin. specialize (Hall _ Hin).
  assert (k <> k') by (intros ->; now apply Hk). lia.
Qed.

Lemma sorted_keys (m : gmap Z Task) :
  let ks := merge_sort Z.le (map fst (map_to_list m)) in
  StronglySorted Z.lt ks /\ forall k, k ∈ ks <-> is_Some (m !! k).
Proof.
  intros ks.
  assert (Hperm : ks ≡ₚ (map_to_list m).*1) by apply merge_sort_Permutation.
  split.
  - apply sorted_keys_strict.
    + apply StronglySorted_merge_sort; [intros x y z; lia | intros x y; lia].
    + rewrite Hperm. apply NoDup_fst_map_to_list.
  - intros k. rewrite Hperm, list_elem_of_fmap. split.
    + intros ([k' t] & -> & Hin). apply elem_of_map_to_list in Hin. now exists t.
    + intros [t Ht]. exists (k, t). split; [reflexivity|]. now apply elem_of_map_to_list.
Qed.

Lemma omap_lookup_sorted (m : gmap Z Task) (ks : list Z) :
  (forall k t, m !! k = Some t -> id t = k) ->
  StronglySorted Z.lt ks ->
  StronglySorted (fun a b => id a < id b) (omap (fun k => m !! k) ks).
Proof.
  intros Hid. induction 1 as [|k ks Hs IH Hall]; cbn [omap list_omap]; [constructor|].
  destruct (m !! k) as [t|] eqn:Hk; [|exact IH].
  constructor; [exact IH|]. apply Forall_forall. intros b Hb.
  apply list_elem_of_omap in Hb as (k' & Hin & Hb).
  rewrite Forall_forall in Hall. specialize (Hall _ Hin).
  rewrite (Hid _ _ Hk), (Hid _ _ Hb). exact Hall.
Qed.

Lemma filter_sorted (R : Task -> Task -> Prop) (f : Task -> bool) (l : list Task) :
  StronglySorted R l -> StronglySorted R (List.filter f l).
Proof.
  induction 1 as [|a l Hs IH Hall]; cbn [List.filter]; [constructor|].
  destruct (f a); [|exact IH]. constructor; [exact IH|].
  rewrite Forall_forall in *. intros b Hb. apply Hall.
  apply list_elem_of_In in Hb. apply filter_In in Hb as [Hb _].
  now apply list_elem_of_In.
Qed.

Lemma mark_complete_next_id (k : Z) (td : ToDoList) :
  _next_id (snd (mark_complete k td)) = _next_id td.
Proof.
  unfold mark_complete. destruct (_tasks td !! k) as [t|]; [|reflexivity].
  destruct (status t); reflexivity.
Qed.

(** One call leaves a finished task as it is, or deletes it. *)
Lemma done_do_call (c : call) (td : ToDoList) (k : Z) (t : Task) :
  well_numbered td -> _tasks td !! k = Some t -> status t = DONE ->
  _tasks (do_call c td) !! k = Some t \/ _tasks (do_call c td) !! k = None.
Proof.
  intros [_ Hwn] Hk Hdone. destruct (Hwn _ _ Hk) as [_ Hlt].
  destruct c as [title description due_date|k'|k']; cbn [do_call].
  - rewrite add_task_cases. destruct (L15.is_blank title); cbn [snd _tasks]; [now left|].
    left. rewrite lookup_insert_ne by lia. exact Hk.
  - unfold mark_complete. destruct (_tasks td !! k') as [t'|] eqn:Hk'; [|now left].
    destruct (status t') eqn:Hst; [|now left]. cbn [snd _tasks].
    left. rewrite lookup_insert_ne; [exact Hk|]. intros ->. congruence.
  - unfold delete_task. destruct (_tasks td !! k') as [t'|] eqn:Hk'; [|now left].
    cbn [snd _tasks]. destruct (Z.eq_dec k' k) as [->|Hne].
    + right. apply lookup_delete_eq.
    + left. rewrite lookup_delete_ne by exact Hne. exact Hk.
Qed.

(** One call never fills an id that has been given out and is not in
    use. *)
Lemma gone_do_call (c : call) (td : ToDoList) (k : Z) :
  k < _next_id td -> _tasks td !! k = None -> _tasks (do_call c td) !! k = None.
Proof.
  intros Hlt Hk.
  destruct c as [title description due_date|k'|k']; cbn [do_call].
  - rewrite add_task_cases. destruct (L15.is_blank title); cbn [snd _tasks]; [exact Hk|].
    rewrite lookup_insert_ne by lia. exact Hk.
  - unfold mark_complete. destruct (_tasks td !! k') as [t'|] eqn:Hk'; [|exact Hk].
    destruct (status t'); [|exact Hk]. cbn [snd _tasks].
    rewrite lookup_insert_ne; [exact Hk|]. intros ->. congruence.
  - unfold delete_task. destruct (_tasks td !! k') as [t'|] eqn:Hk'; [|exact Hk].
    cbn [snd _tasks]. destruct (Z.eq_dec k' k) as [->|Hne].
    + apply lookup_delete_eq.
    + rewrite lookup_delete_ne by exact Hne. exact Hk.
Qed.

Lemma gone_do_calls (cs : list call) (td : ToDoList) (k : Z) :
  k < _next_id td -> _tasks td !! k = None -> _tasks (do_calls cs td) !! k = None.
Proof.
  revert td. induction cs as [|c cs IH]; intros td Hlt Hk; [exact Hk|].
  cbn [do_calls fold_left]. apply IH.
  - pose proof (do_call_next_id c td). lia.
  - now apply gone_do_call.
Qed.

Lemma done_do_calls (cs : list call) (td : ToDoList) (k : Z) (t : Task) :
  well_numbered td -> _tasks td !! k = Some t -> status t = DONE ->
  _tasks (do_calls cs td) !! k = Some t \/ _tasks (do_calls cs td) !! k = None.
Proof.
  revert td. induction cs as [|c cs IH]; intros td Hwn Hk Hdone; [now left|].
  cbn [do_calls fold_left].
  destruct (done_do_call c td k t Hwn Hk Hdone) as [Hsame|Hgone].
  - apply IH; [now apply well_numbered_do_call | exact Hsame | exact Hdone].
  - right. apply gone_do_calls; [|exact Hgone].
    destruct Hwn as [_ Hwn]. destruct (Hwn _ _ Hk) as [_ Hlt].
    pose proof (do_call_next_id c td). lia.
Qed.

End ToDoMore.

(** X28.  ToDoList (lesson 10), used through add_task, mark_complete and
    delete_task from an empty list: the ids that add_task gives out are
    1, 2, 3, ... in the order of the successful calls, whatever was
    completed or deleted in between, so no id is ever given twice; and
    every task in the list is stored under its own id, one of those
    given out. *)
Theorem todo_ids_count_up (cs : list ToDo.call) :
  (forall i k, ToDo.issued_ids cs ToDo.init !! i = Some k -> k = Z.of_nat i + 1) /\
  ToDo._next_id (ToDo.after cs) = Z.of_nat (length (ToDo.issued_ids cs ToDo.init)) + 1 /\
  (forall k t, ToDo.get_task k (ToDo.after cs) = Some t ->
     ToDo.id t = k /\ 1 <= k <= Z.of_nat (length (ToDo.issued_ids cs ToDo.init))).
Proof.
  destruct (issued_ids_from cs ToDo.init) as [Hid Hnext].
  change (ToDo._next_id ToDo.init) with 1 in *.
  fold (ToDo.after cs) in Hnext.
  split; [intros i k H; apply Hid in H; lia|]. split; [lia|].
  intros k t Hk. destruct (well_numbered_after cs) as [_ Hwn].
  destruct (Hwn _ _ Hk). split; [assumption | lia].
Qed.

(** X29.  ToDoList.list_all and list_incomplete (lesson 10), on a list
    made by add_task, mark_complete and delete_task: list_all holds
    exactly the stored tasks, list_incomplete exactly those still TODO,
    and both are in strictly ascending order of id. *)
Theorem list_all_is_sorted_by_id (cs : list ToDo.call) :
  let td := ToDo.after cs in
  StronglySorted (fun a b => ToDo.id a < ToDo.id b) (ToDo.list_all td) /\
  StronglySorted (fun a b => ToDo.id a < ToDo.id b) (ToDo.list_incomplete td) /\
  (forall t, t ∈ ToDo.list_all td <-> ToDo.get_task (ToDo.id t) td = Some t) /\
  (forall t, t ∈ ToDo.list_incomplete td <->
             ToDo.get_task (ToDo.id t) td = Some t /\ ToDo.status t = ToDo.TODO).
Proof.
  intros td. destruct (well_numbered_after cs) as [_ Hwn]. fold td in Hwn.
  assert (Hid : forall k t, ToDo._tasks td !! k = Some t -> ToDo.id t = k)
    by (intros k t Hk; now destruct (Hwn _ _ Hk)).
  destruct (sorted_keys (ToDo._tasks td)) as [Hsorted Hkeys]. cbv zeta in Hkeys.
  assert (Hall : StronglySorted (fun a b => ToDo.id a < ToDo.id b) (ToDo.list_all td))
    by (apply omap_lookup_sorted; assumption).
  assert (Hmem : forall t, t ∈ ToDo.list_all td <-> ToDo.get_task (ToDo.id t) td = Some t).
  { intros t. unfold ToDo.list_all, ToDo.get_task. rewrite list_elem_of_omap. split.
    - intros (k & _ & Hk). now rewrite (Hid _ _ Hk).
    - intros Ht. exists (ToDo.id t). split; [|exact Ht]. apply Hkeys. now exists t. }
  split; [exact Hall|]. split; [now apply filter_sorted|]. split; [exact Hmem|].
  intros t. unfold ToDo.list_incomplete.
  rewrite list_elem_of_In, filter_In, <- list_elem_of_In, Hmem.
  unfold ToDo.is_todo. destruct (ToDo.status t); split; intros [H1 H2];
    (split; [exact H1|]); congruence.
Qed.

(** X30.  ToDoList (lesson 10), used through add_task, mark_complete and
    delete_task from an empty list: a task that is DONE is never changed
    again, it can only be deleted; an id that was given out and is no
    longer in the list never comes back; and mark_complete changes the
    list only when it reports success, after which a second call reports
    that the task is already completed. *)
Theorem finished_tasks_never_change (cs cs' : list ToDo.call) (k : Z) :
  let td := ToDo.after cs in
  let td' := ToDo.after (cs ++ cs') in
  (forall t, ToDo.get_task k td = Some t -> ToDo.status t = ToDo.DONE ->
     ToDo.get_task k td' = Some t \/ ToDo.get_task k td' = None) /\
  (k < ToDo._next_id td -> ToDo.get_task k td = None -> ToDo.get_task k td' = None) /\
  match ToDo.mark_complete k td with
  | (Ok (true, _), td1) =>
      (exists t, ToDo.get_task k td = Some t /\ ToDo.status t = ToDo.TODO /\
                 ToDo.get_task k td1 = Some (ToDo.mark_done t)) /\
      (forall k', k' <> k -> ToDo.get_task k' td1 = ToDo.get_task k' td) /\
      ToDo.mark_complete k td1 = (Ok (false, "Task already completed"%string), td1)
  | (Ok (false, _), td1) => td1 = td
  | (Raise _, _) => False
  end.
Proof.
  intros td td'. unfold td', ToDo.after. rewrite do_calls_app. fold (ToDo.after cs). fold td.
  pose proof (well_numbered_after cs) as Hwn. fold td in Hwn.
  split; [intros t; now apply done_do_calls|]. split; [now apply gone_do_calls|].
  unfold ToDo.mark_complete at 1. unfold ToDo.get_task.
  destruct (ToDo._tasks td !! k) as [t|] eqn:Hk; [|reflexivity].
  destruct (ToDo.status t) eqn:Hst; [|reflexivity].
  cbn [ToDo._tasks]. split; [|split].
  - exists t. rewrite lookup_insert_eq. auto.
  - intros k' Hne. now rewrite lookup_insert_ne by congruence.
  - unfold ToDo.mark_complete. cbn [ToDo._tasks]. rewrite lookup_insert_eq. reflexivity.
Qed.

Lemma finished_tasks_never_change_witness :
  let cs := [ToDo.AddTask "X" "" None; ToDo.MarkComplete 1] in
  let cs' := [ToDo.DeleteTask 1; ToDo.AddTask "Y" "" None; ToDo.MarkComplete 1] in
  ToDo.get_task 1 (ToDo.after cs) = Some (ToDo.mkTask 1 "X" "" None ToDo.DONE) /\
  ToDo.get_task 1 (ToDo.after (cs ++ cs')) = None.
Proof.
  intros cs cs'.
  assert (H1 : ToDo.get_task 1 (ToDo.after cs) = Some (ToDo.mkTask 1 "X" "" None ToDo.DONE))
    by (vm_compute; reflexivity).
  split; [exact H1|].
  destruct (finished_tasks_never_change cs cs' 1) as (Hdone & _ & _).
  destruct (Hdone _ H1 eq_refl) as [Hsame|Hgone]; [|exact Hgone].
  vm_compute in Hsame. discriminate Hsame.
Defined.
